(** * comfyui-sdk: client, pool, session and pipeline

    A shallow embedding of the TypeScript sources
      - utils.ts     (exponentialBackoff, isBinaryManifest, applyNodeInputs,
                      applyNodeOutputs, extractFileExtension, ...)
      - client.ts    (ComfyUIClient: getHistory, pollUntilDone, walkLeaves, run,
                      headers, the base URL)
      - pool.ts      (ComfyUIPool: acquire, createSession, withSession, metrics)
      - session.ts   (ComfyUISession)
      - pipeline.ts  (ArtifactPipeline)
      - type-utils.ts (validateInputs)
      - logger.ts    (Logger)
    and the properties of the design document that are stated about them,
    followed by further properties read off the code.

    Conventions.  JavaScript numbers that hold millisecond delays, indices
    and JSON numbers are integers of [Z]; the pool, whose code can produce
    [NaN] and divides two counters, uses the type [number] of module [Pool]
    (exact rationals plus the special values).  The code computes with
    IEEE doubles: module [Double] has the two computations where that
    matters (the back-off and the load ratios) in the doubles of the
    kernel, and the statements about them carry the range in which the
    integers and rationals are what the doubles give.  JavaScript strings are
    [string]; arrays are lists; plain objects are association lists in
    property enumeration order.  Asynchronous functions are modelled by
    their sequential behaviour: a result (or a thrown error) together with
    the list of observable events they performed.

    The file has two parts: the embedding (definitions only), then the
    lemmas and theorems about it. *)

From Stdlib Require Import ZArith QArith Qcanon Ascii Bool Lia.
From Stdlib Require Import Numbers.DecimalString Numbers.DecimalNat Numbers.DecimalZ.
From Stdlib Require Floats Uint63.
From stdpp Require Import numbers base tactics option gmap strings list.

Local Open Scope Z_scope.
Set Warnings "-register-all".

(* ===================================================================== *)
(** * Part I: the embedding *)
(* ===================================================================== *)

(** ** JavaScript values *)

Module Js.

(** The dynamically typed values the SDK passes around: parsed JSON from the
    server, processor outputs, artifact payloads.  [Num] holds the integer
    valued numbers; [Buf] is a Node.js [Buffer].  An object is the list of
    its own properties in the order in which JavaScript enumerates them
    (for parsed JSON: the keys that are array indices in ascending order,
    then the others as they were written); what objects inherit from
    [Object.prototype] is not part of the list. *)
Inductive value : Type :=
  | Undefined
  | Null
  | Bool (b : bool)
  | Num (z : Z)
  | Str (s : string)
  | Buf (data : list Byte.byte)
  | Arr (items : list value)
  | Obj (props : list (string * value)).

(** Thrown exceptions. *)
Inductive error : Type :=
  | Error (msg : string)
  | TypeError (msg : string).

(** How a piece of code ends: with a value, with a thrown exception, or,
    for the poll loop run against finitely many scripted replies of the
    server, [Running]: the replies are used up and the loop is still
    polling. *)
Inductive outcome (A : Type) : Type :=
  | Ok (a : A)
  | Throw (e : error)
  | Running.
Arguments Ok {A} a.
Arguments Throw {A} e.
Arguments Running {A}.

(** JavaScript truthiness ([if (v)], [v || d], [!v]). *)
Definition truthy (v : value) : bool :=
  match v with
  | Undefined | Null => false
  | Bool b => b
  | Num z => negb (z =? 0)
  | Str s => negb (bool_decide (s = EmptyString))
  | Buf _ | Arr _ | Obj _ => true
  end.

Definition isUndefined (v : value) : bool :=
  match v with Undefined => true | _ => false end.

Definition isString (v : value) : bool :=
  match v with Str _ => true | _ => false end.

Definition isPlainObject (v : value) : bool :=
  match v with Obj _ => true | _ => false end.

(** [o[k]] on the property list of an object: [None] is a missing property.
    For a key that is the name of a property objects inherit
    ([toString], [constructor], ...: [TypeUtils.object_prototype_keys])
    JavaScript finds the inherited property where the list has none;
    statements that read a key which may be missing are made for other
    keys. *)
Fixpoint get_prop (o : list (string * value)) (k : string) : option value :=
  match o with
  | [] => None
  | (k', v) :: o' => if bool_decide (k' = k) then Some v else get_prop o' k
  end.

(** [o[k] = v]: an existing property keeps its place, a new one goes last
    (in JavaScript a new key that is an array index is enumerated before
    the keys that are not; the statements about written objects read them
    by key). *)
Fixpoint set_prop (o : list (string * value)) (k : string) (v : value)
  : list (string * value) :=
  match o with
  | [] => [(k, v)]
  | (k', v') :: o' =>
      if bool_decide (k' = k) then (k, v) :: o' else (k', v') :: set_prop o' k v
  end.

(** Decimal text of an array index or of a number, [String(i)]. *)
Definition string_of_nat (n : nat) : string :=
  NilEmpty.string_of_uint (Nat.to_uint n).

Definition string_of_Z (z : Z) : string :=
  NilEmpty.string_of_int (Z.to_int z).

(** [s.split('.')]. *)
Fixpoint split_dot (s : string) : list string :=
  match s with
  | EmptyString => [EmptyString]
  | String c s' =>
      if bool_decide (c = "."%char) then EmptyString :: split_dot s'
      else match split_dot s' with
           | [] => [String c EmptyString]
           | seg :: segs => String c seg :: segs
           end
  end.

(** *** [JSON.stringify] *)

Definition dquote : ascii := "034"%char.
Definition backslash : ascii := "092"%char.

Definition hex_digit (n : nat) : ascii :=
  nth n (String.list_ascii_of_string "0123456789abcdef") "0"%char.

(** One character inside a JSON string literal (ECMAScript QuoteJSONString). *)
Definition json_escape_char (c : ascii) : string :=
  let n := nat_of_ascii c in
  let esc (x : ascii) := String backslash (String x EmptyString) in
  if bool_decide (c = dquote) then esc dquote
  else if bool_decide (c = backslash) then esc backslash
  else if bool_decide (n = 8)%nat then esc "b"%char
  else if bool_decide (n = 9)%nat then esc "t"%char
  else if bool_decide (n = 10)%nat then esc "n"%char
  else if bool_decide (n = 12)%nat then esc "f"%char
  else if bool_decide (n = 13)%nat then esc "r"%char
  else if bool_decide (n < 32)%nat then
    String backslash
      (String "u" (String "0" (String "0"
         (String (hex_digit (n / 16)) (String (hex_digit (n mod 16)) EmptyString)))))
  else String c EmptyString.

Fixpoint json_escape (s : string) : string :=
  match s with
  | EmptyString => EmptyString
  | String c s' => json_escape_char c +:+ json_escape s'
  end.

Definition json_quote (s : string) : string :=
  String dquote (json_escape s +:+ String dquote EmptyString).

Definition string_of_byte (b : Byte.byte) : string :=
  NilEmpty.string_of_uint (N.to_uint (Byte.to_N b)).

(** [JSON.stringify(v)]; [None] is the result [undefined].  Inside an array
    [undefined] prints as [null], inside an object the property is left
    out; a [Buffer] prints through its [toJSON].  Numbers print in decimal
    digits, as JavaScript prints the integers below 10^21. *)
Fixpoint JSON_stringify (v : value) : option string :=
  let fix elements (l : list value) : list string :=
    match l with
    | [] => []
    | x :: l' => default "null" (JSON_stringify x) :: elements l'
    end in
  let fix members (o : list (string * value)) : list string :=
    match o with
    | [] => []
    | (k, x) :: o' =>
        match JSON_stringify x with
        | Some sx => (json_quote k +:+ ":" +:+ sx) :: members o'
        | None => members o'
        end
    end in
  match v with
  | Undefined => None
  | Null => Some "null"
  | Bool true => Some "true"
  | Bool false => Some "false"
  | Num z => Some (string_of_Z z)
  | Str s => Some (json_quote s)
  | Buf data =>
      Some ("{" +:+ json_quote "type" +:+ ":" +:+ json_quote "Buffer" +:+ ","
            +:+ json_quote "data" +:+ ":["
            +:+ String.concat "," (map string_of_byte data) +:+ "]}")
  | Arr l => Some ("[" +:+ String.concat "," (elements l) +:+ "]")
  | Obj o => Some ("{" +:+ String.concat "," (members o) +:+ "}")
  end.

(** [String(v)], also the text a template literal inserts for [v]. *)
Fixpoint toString (v : value) : string :=
  let fix elements (l : list value) : list string :=
    match l with
    | [] => []
    | Undefined :: l' | Null :: l' => EmptyString :: elements l'
    | x :: l' => toString x :: elements l'
    end in
  match v with
  | Undefined => "undefined"
  | Null => "null"
  | Bool true => "true"
  | Bool false => "false"
  | Num z => string_of_Z z
  | Str s => s
  | Buf data => String.string_of_list_byte data
  | Arr l => String.concat "," (elements l)
  | Obj _ => "[object Object]"
  end.

(** The text a template literal inserts for the result of [JSON.stringify]. *)
Definition template (o : option string) : string := default "undefined" o.

(** *** lodash [set] *)

(** lodash [isIndex]: the decimal text of a natural number. *)
Definition isIndex (k : string) : option nat :=
  match NilEmpty.uint_of_string k with
  | Some d =>
      let n := Nat.of_uint d in
      if bool_decide (string_of_nat n = k) then Some n else None
  | None => None
  end.

(** lodash [isObject]: objects, arrays and buffers, not [null]. *)
Definition isObject (v : value) : bool :=
  match v with Obj _ | Arr _ | Buf _ => true | _ => false end.

(** [v[key]] as an expression: a missing property reads as [undefined];
    an array is read at its indices (its [length], and the properties of
    strings and buffers, are not modelled: no modelled code reads them this
    way).  As with [get_prop], a key that names a property objects inherit
    reads, where the object has none of its own, as the inherited property
    in JavaScript and as [undefined] here. *)
Definition read (v : value) (key : string) : value :=
  match v with
  | Obj o => default Undefined (get_prop o key)
  | Arr l =>
      match isIndex key with
      | Some i => default Undefined (l !! i)
      | None => Undefined
      end
  | _ => Undefined
  end.

(** [v[key] = x], giving the updated [v].  An array written past its end is
    padded with holes.  Properties of arrays that are not indices, and
    writes into a buffer, are outside this model; on them, as on a
    primitive, the write leaves [v] as it is. *)
Definition write (v : value) (key : string) (x : value) : value :=
  match v with
  | Obj o => Obj (set_prop o key x)
  | Arr l =>
      match isIndex key with
      | Some i =>
          if bool_decide (i < length l)%nat then Arr (<[i := x]> l)
          else Arr (l ++ replicate (i - length l) Undefined ++ [x])
      | None => v
      end
  | _ => v
  end.

(** [key in v] for a plain object. *)
Definition has_prop (v : value) (key : string) : bool :=
  match v with
  | Obj o => bool_decide (is_Some (get_prop o key))
  | _ => false
  end.

(** [{ ...a, ...b }] and [Object.assign(a, b)]: the properties of [b]
    assigned over those of [a]. *)
Definition assign (a : value) (b : list (string * value)) : value :=
  fold_left (λ acc kv, write acc kv.1 kv.2) b a.

Definition unsafe_key (k : string) : bool :=
  bool_decide (k = "__proto__") || bool_decide (k = "constructor")
  || bool_decide (k = "prototype").

(** lodash [baseSet], the loop of [set(object, path, value)] for a path given
    as an array of keys: walk down [path], creating an array (next key is an
    index) or an object where the walk meets something that is not an
    object, and assign [v] at the last key.  The walk stops, keeping what it
    has built so far, at one of the keys lodash refuses. *)
Fixpoint baseSet (nested : value) (path : list string) (v : value) : value :=
  match path with
  | [] => nested
  | key :: rest =>
      if unsafe_key key then nested
      else match rest with
           | [] => write nested key v
           | next :: _ =>
               let objValue := read nested key in
               let newValue :=
                 if isObject objValue then objValue
                 else match isIndex next with
                      | Some _ => Arr []
                      | None => Obj []
                      end in
               write nested key (baseSet newValue rest v)
           end
  end.

Definition set (object : value) (path : list string) (v : value) : value :=
  if isObject object then baseSet object path v else object.

End Js.

(* ===================================================================== *)
(** ** Effects: events, and the monad of traced computations *)
(* ===================================================================== *)

Module Eff.
Import Js.

(** What a client does to the outside world, in the order it happens. *)
Inductive event : Type :=
  | EvPost (body : value)                 (* POST {baseUrl}/prompt *)
  | EvSleep (ms : Z)                      (* await sleep(ms) *)
  | EvFetch (promptId : string)           (* GET {baseUrl}/history/{promptId} *)
  | EvView (descriptor : value)           (* GET {baseUrl}/view?filename=... *)
  | EvUpload (filename : string)          (* POST {baseUrl}/upload/image *)
  | EvRun (processor : string).           (* await processor.run(artifact) *)

(** A computation: the events performed, and how it ended. *)
Definition M (A : Type) : Type := (list event * outcome A)%type.

Definition ret {A} (a : A) : M A := ([], Ok a).
Definition throw {A} (e : error) : M A := ([], Throw e).
Definition running {A} : M A := ([], Running).
Definition emit (e : event) : M unit := ([e], Ok tt).

Definition bind {A B} (m : M A) (k : A → M B) : M B :=
  match m with
  | (t, Ok a) => let '(t', r) := k a in (t ++ t', r)
  | (t, Throw e) => (t, Throw e)
  | (t, Running) => (t, Running)
  end.

(** The reply of the transport ([request], [requestArrayBuffer]): the decoded
    body, or the error the transport throws. *)
Definition reply (A : Type) : Type := (error + A)%type.

Definition await {A} (r : reply A) : M A :=
  match r with
  | inl e => throw e
  | inr a => ret a
  end.

(** [Promise.all(xs.map(f))], taken in list order: the calls are started
    in this order, and when all succeed the result is the list of theirs.
    ([Promise.all] rejects with the rejection that comes first in time;
    here the first failing call in list order ends the computation.) *)
Fixpoint mapM {A B} (f : A → M B) (xs : list A) : M (list B) :=
  match xs with
  | [] => ret []
  | x :: xs' => bind (f x) (λ y, bind (mapM f xs') (λ ys, ret (y :: ys)))
  end.

End Eff.

Notation "'let*' x ':=' m 'in' k" := (Eff.bind m (λ x, k))
  (at level 10, x pattern, m at level 100, k at level 200).

(* ===================================================================== *)
(** ** types.ts *)
(* ===================================================================== *)

Module Types.
Import Js.

(** An [Artifact] is, at run time, a plain object with the properties
    [kind], [payload], [manifest] and, once a pipeline has seen it,
    [pipeline]; it is a [value] here.  [mkArtifact] is the object literal
    [{ kind, payload, manifest }]. *)
Definition mkArtifact (kind : string) (payload : value) (manifest : value) : value :=
  Obj [("kind", Str kind); ("payload", payload); ("manifest", manifest)].

(** [NodeInput] and [NodeOutput], for the fields the code reads; an absent
    [defaultValue] is [Undefined]. *)
Record NodeInput : Type := mkNodeInput {
  in_from : string;
  in_to : string;
  in_defaultValue : value;
}.

Record NodeOutput : Type := mkNodeOutput {
  out_from : string;
  out_to : string;
  out_defaultValue : value;
}.

(** [PipelineNode] and [RunOptions]; [None] is an absent property. *)
Record PipelineNode : Type := mkPipelineNode {
  node_inputs : option (list NodeInput);
  node_outputs : option (list NodeOutput);
}.

Record RunOptions : Type := mkRunOptions {
  node : option PipelineNode;
  inputs : option (list (string * value));
}.

(** [History], for the fields the code reads. *)
Record Status : Type := mkStatus {
  status_str : string;
  completed : bool;
  messages : value;
}.

Record History : Type := mkHistory {
  outputs : value;
  status : Status;
}.

(** [Histories = Record<string, History>]. *)
Definition Histories : Type := list (string * History).

(** [histories[promptId]]; [None] is [undefined].  This is for a prompt id
    that is not the name of a property objects inherit ([Terms.own_name]):
    for such a name JavaScript finds the inherited property in a history
    without a record. *)
Fixpoint history_of (h : Histories) (promptId : string) : option History :=
  match h with
  | [] => None
  | (k, rec) :: h' => if bool_decide (k = promptId) then Some rec else history_of h' promptId
  end.

(** [ClientOptions['poll']]. *)
Record PollOptions : Type := mkPollOptions {
  opt_interval : option Z;
  opt_backoffBase : option Z;
  opt_backoffCap : option Z;
}.

Record ClientOptions : Type := mkClientOptions {
  timeout : option Z;
  poll : option PollOptions;
}.

End Types.

(* ===================================================================== *)
(** ** utils.ts *)
(* ===================================================================== *)

Module Utils.
Import Js Types.

(** [isPlainObject(v) && typeof v.filename === 'string'
     && typeof v.type === 'string'] *)
Definition isBinaryManifest (v : value) : bool :=
  isPlainObject v && isString (read v "filename") && isString (read v "type").

(** [isPlainObject(node) && 'kind' in node && 'payload' in node] *)
Definition isArtifact (node : value) : bool :=
  isPlainObject node && has_prop node "kind" && has_prop node "payload".

(** [Math.min(base * 2 ** attempt, cap)]; [attempt] is the loop counter of
    the poll loop, a natural number.  This is the value the code computes
    for integers [base] and [cap] of magnitude up to 2^53 when [base] is
    positive (a product beyond the doubles is [Infinity], and the minimum
    is [cap]) or [attempt] is at most 970 (the product is a double);
    outside this range the code yields [NaN] or [-Infinity], see
    [Double.exponentialBackoff]. *)
Definition exponentialBackoff (attempt : nat) (base cap : Z) : Z :=
  Z.min (base * 2 ^ Z.of_nat attempt) cap.

(** [Object.values(outputs).flatMap(artifacts => artifacts)] *)
Definition unwrapArtifacts (outputs : list (string * list value)) : list value :=
  flat_map snd outputs.

(** [v ?? d] *)
Definition nullish_or (v d : value) : value :=
  match v with
  | Undefined | Null => d
  | _ => v
  end.

(** [applyNodeInputs]: the clone of the workflow with every mapped input
    written at its target path. *)
Definition applyNodeInputs (originalWorkflow : value) (node : option (list NodeInput))
    (inputs : option (list (string * value))) : value :=
  let node := default [] node in
  let inputs := default [] inputs in
  fold_left
    (λ cloned ni,
       let v := nullish_or (default Undefined (get_prop inputs (in_from ni)))
                           (in_defaultValue ni) in
       if isUndefined v then cloned
       else set cloned (split_dot (in_to ni)) v)
    node originalWorkflow.

(** [art.manifest?.from] *)
Definition manifest_from (art : value) : value :=
  read (read art "manifest") "from".

(** The first loop of [applyNodeOutputs]: the [Map] from path to artifact;
    a later artifact replaces an earlier one with the same path. *)
Definition byFrom_of (artifacts : list value) : gmap string value :=
  fold_left
    (λ byFrom art,
       match manifest_from art with
       | Str from => <[from := art]> byFrom
       | _ => byFrom
       end)
    artifacts ∅.

(** [{ ...art, payload: value }], where [art] is an artifact object or
    [undefined] *)
Definition with_payload (art : option value) (v : value) : value :=
  write (assign (Obj []) (match art with Some (Obj o) => o | _ => [] end)) "payload" v.

(** The body of [outputs.forEach] in [applyNodeOutputs]:
    [const art = byFrom.get(from)
     const value = art ? art.payload : defaultValue
     if (!isUndefined(value))
       set(response, to.split('.'), { ...art, payload: value })] *)
Definition applyNodeOutput (byFrom : gmap string value) (response : value)
    (o : NodeOutput) : value :=
  let art := byFrom !! out_from o in
  let v := match art with
           | Some a => if truthy a then read a "payload" else out_defaultValue o
           | None => out_defaultValue o
           end in
  if isUndefined v then response
  else set response (split_dot (out_to o)) (with_payload art v).

Definition applyNodeOutputs (artifacts : list value) (outputs : list NodeOutput) : value :=
  fold_left (applyNodeOutput (byFrom_of artifacts)) outputs (Obj []).

End Utils.

(* ===================================================================== *)
(** ** core/client.ts *)
(* ===================================================================== *)

Module Client.
Import Js Eff Types Utils.

(** The remote server as the client sees it through the transport: what
    each request returns.  Headers, time-outs and logging are not
    modelled. *)
Record Server : Type := mkServer {
  post_prompt : value → reply string;          (* the [prompt_id] *)
  get_view : value → reply (list Byte.byte);   (* the bytes of a resource *)
  post_upload : string → reply value;          (* the [UploadOutput] *)
}.

Record PollCfg : Type := mkPollCfg {
  interval : Z;
  backoffBase : Z;
  backoffCap : Z;
}.

Record ComfyUIClient : Type := mkClient {
  timeoutMs : Z;
  pollCfg : PollCfg;
  server : Server;
}.

Definition POLL_DEFAULT_MS : Z := 4000.
Definition DEFAULT_TIMEOUT_MS : Z := 90000.

(** The constructor, for the fields that the modelled methods read. *)
Definition new_client (options : ClientOptions) (srv : Server) : ComfyUIClient :=
  {| timeoutMs := default DEFAULT_TIMEOUT_MS (timeout options);
     pollCfg :=
       {| interval := default POLL_DEFAULT_MS (poll options ≫= opt_interval);
          backoffBase := default 2000 (poll options ≫= opt_backoffBase);
          backoffCap := default 15000 (poll options ≫= opt_backoffCap) |};
     server := srv |}.

(** The text of the error [getHistory] throws:
    [`Prompt ${promptId} failed: ${JSON.stringify(messages || '{}')}`] *)
Definition prompt_error_text (promptId : string) (msgs : value) : string :=
  "Prompt " +:+ promptId +:+ " failed: "
  +:+ template (JSON_stringify (if truthy msgs then msgs else Str "{}")).

(** [getHistory(promptId)]; [r] is what the transport returns for this
    request. *)
Definition getHistory (r : reply Histories) (promptId : string) : M Histories :=
  let* _ := emit (EvFetch promptId) in
  let* histories := await r in
  match history_of histories promptId with
  | Some rec =>
      if bool_decide (status_str (status rec) = "error")
      then throw (Error (prompt_error_text promptId (messages (status rec))))
      else ret histories
  | None => ret histories
  end.

(** What [walkLeaves] yields: [{ value, from }]. *)
Record Leaf : Type := mkLeaf {
  leaf_value : value;
  leaf_from : string;
}.

(** The generator [walkLeaves(node, path)], as the list of what it yields. *)
Fixpoint walkLeaves (node : value) (path : string) {struct node} : list Leaf :=
  let fix walkItems (items : list value) (i : nat) : list Leaf :=
    match items with
    | [] => []
    | x :: items' =>
        walkLeaves x (path +:+ "[" +:+ string_of_nat i +:+ "]") ++ walkItems items' (S i)
    end in
  let fix walkProps (props : list (string * value)) : list Leaf :=
    match props with
    | [] => []
    | (key, val) :: props' => walkLeaves val (path +:+ "." +:+ key) ++ walkProps props'
    end in
  if isBinaryManifest node then [mkLeaf node path]
  else match node with
       | Arr items => walkItems items 0%nat
       | Str _ => [mkLeaf node path]
       | Obj props => walkProps props
       | _ => []
       end.

(** [leafToArtifact(leaf, promptId)] *)
Definition leafToArtifact (srv : Server) (leaf : Leaf) (promptId : string) : M value :=
  let v := leaf_value leaf in
  let from := leaf_from leaf in
  if isBinaryManifest v then
    let* _ := emit (EvView v) in
    let* buffer := await (get_view srv v) in
    ret (mkArtifact "binary" (Buf buffer)
           (assign v [("from", Str from); ("promptId", Str promptId)]))
  else
    ret (mkArtifact "text" (Str (toString v))
           (Obj [("from", Str from); ("promptId", Str promptId)])).

(** [Object.entries(v)] and [Object.keys(v)] *)
Definition entries (v : value) : list (string * value) :=
  match v with
  | Obj o => o
  | Arr l => imap (λ i x, (string_of_nat i, x)) l
  | Str s =>
      imap (λ i c, (string_of_nat i, Str (String c EmptyString)))
           (String.list_ascii_of_string s)
  | _ => []
  end.

Definition keys (v : value) : list string := map fst (entries v).

(** The leaves of one entry of the outputs, as [extractArtifacts] takes
    them: [isPlainObject(nodeOut) ? [...walkLeaves(nodeOut, nodeId)] : []] *)
Definition node_leaves (entry : string * value) : list Leaf :=
  if isPlainObject entry.2 then walkLeaves entry.2 entry.1 else [].

(** [extractArtifacts(outputs, promptId)]: per output node, the artifacts
    of its leaves (the two [Promise.all] taken in order).  This is the
    order in which the code starts the downloads, and its result when all
    of them succeed.  When one fails, the code has started the others as
    well and throws the rejection that comes first in time: of a failing
    extraction only that it fails, and with the error of one of the failed
    downloads, is the same here and there. *)
Definition extractArtifacts (srv : Server) (outputs : value) (promptId : string)
  : M (list (string * list value)) :=
  mapM (λ entry,
          let* artifacts :=
            mapM (λ leaf, leafToArtifact srv leaf promptId) (node_leaves entry) in
          ret (entry.1, artifacts))
       (entries outputs).

(** [pollUntilDone(promptId)].  [replies] are the transport's replies to the
    successive history requests; when they are used up the loop is still
    polling. *)
Fixpoint pollUntilDone (c : ComfyUIClient) (promptId : string)
    (replies : list (reply Histories)) (attempt : nat)
  : M (list (string * list value)) :=
  match replies with
  | [] => running
  | r :: replies' =>
      let waitMs := exponentialBackoff attempt (interval (pollCfg c)) (backoffCap (pollCfg c)) in
      let* _ := emit (EvSleep waitMs) in
      let attempt := S attempt in
      let* histories := getHistory r promptId in
      match history_of histories promptId with
      | Some rec =>
          if completed (status rec) && truthy (outputs rec)
             && negb (bool_decide (length (keys (outputs rec)) = 0%nat))
          then extractArtifacts (server c) (outputs rec) promptId
          else pollUntilDone c promptId replies' attempt
      | None => pollUntilDone c promptId replies' attempt
      end
  end.

(** The workflow as submitted by [run] and [queue]:
    [options?.node ? applyNodeInputs(workflow, options.node.inputs,
     options?.inputs) : workflow] *)
Definition prepare (workflow : value) (options : option RunOptions) : value :=
  match options ≫= node with
  | Some n => applyNodeInputs workflow (node_inputs n) (options ≫= inputs)
  | None => workflow
  end.

(** [options?.node?.outputs?.length ? applyNodeOutputs(artifacts,
     options.node.outputs) : artifacts] *)
Definition map_outputs (artifacts : list value) (options : option RunOptions) : value :=
  match (options ≫= node) ≫= node_outputs with
  | Some (o :: os) => applyNodeOutputs artifacts (o :: os)
  | _ => Arr artifacts
  end.

(** [run(workflow, options)] *)
Definition run (c : ComfyUIClient) (workflow : value) (options : option RunOptions)
    (replies : list (reply Histories)) : M value :=
  let preparedPayload := prepare workflow options in
  let* _ := emit (EvPost preparedPayload) in
  let* prompt_id := await (post_prompt (server c) preparedPayload) in
  let* rawOutputs := pollUntilDone c prompt_id replies 0 in
  let artifacts := unwrapArtifacts rawOutputs in
  ret (map_outputs artifacts options).

(** [queue(workflow, options)] *)
Definition queue (c : ComfyUIClient) (workflow : value) (options : option RunOptions)
  : M string :=
  let preparedPayload := prepare workflow options in
  let* _ := emit (EvPost preparedPayload) in
  await (post_prompt (server c) preparedPayload).

(** [uploadFile(file, { filename })] *)
Definition uploadFile (c : ComfyUIClient) (filename : string) : M value :=
  let* _ := emit (EvUpload filename) in
  await (post_upload (server c) filename).

End Client.

(* ===================================================================== *)
(** ** processors/processor.ts and core/pipeline.ts *)
(* ===================================================================== *)

Module Pipeline.
Import Js Eff Types Utils.

(** [Pick<Artifact, 'kind' | 'payload' | 'manifest'>] *)
Record NextArtifact : Type := mkNext {
  next_kind : value;
  next_payload : value;
  next_manifest : value;
}.

(** [ProcessorOutput] *)
Record ProcessorOutput : Type := mkOutput {
  output : value;
  next : option NextArtifact;
}.

(** [ArtifactProcessor]: the name, and the two methods as functions of the
    artifact they are given. *)
Record ArtifactProcessor : Type := mkProcessor {
  name : string;
  shouldRun : value → bool;
  run : value → ProcessorOutput;
}.

(** The base class's [shouldRun]. *)
Definition shouldRun_default (_ : value) : bool := true.

(** [ArtifactPipeline]: its [processors]. *)
Definition ArtifactPipeline : Type := list ArtifactProcessor.

(** [const state = artifact.pipeline ?? (artifact.pipeline = {})]: the
    artifact once its [pipeline] property is there.  [state] and
    [artifact.pipeline] are one object from here on; the model reads it back
    from the artifact. *)
Definition ensure_state (artifact : value) : value :=
  match read artifact "pipeline" with
  | Undefined | Null => write artifact "pipeline" (Obj [])
  | _ => artifact
  end.

(** [Object.assign(artifact, next)] *)
Definition assign_next (artifact : value) (n : NextArtifact) : value :=
  assign artifact [("kind", next_kind n); ("payload", next_payload n);
                   ("manifest", next_manifest n)].

(** One iteration of the loop of [processArtifact]. *)
Definition processor_step (artifact : value) (processor : ArtifactProcessor) : M value :=
  let state := read artifact "pipeline" in
  if truthy (read state (name processor)) || negb (shouldRun processor artifact)
  then ret artifact
  else
    let* _ := emit (EvRun (name processor)) in
    let r := run processor artifact in
    let artifact := write artifact "pipeline" (write state (name processor) (output r)) in
    match next r with
    | Some n => ret (assign_next artifact n)
    | None => ret artifact
    end.

Fixpoint run_processors (processors : ArtifactPipeline) (artifact : value) : M value :=
  match processors with
  | [] => ret artifact
  | processor :: rest =>
      let* artifact := processor_step artifact processor in
      run_processors rest artifact
  end.

(** [processArtifact(artifact)], giving the artifact as it is afterwards. *)
Definition processArtifact (processors : ArtifactPipeline) (artifact : value) : M value :=
  run_processors processors (ensure_state artifact).

(** [walk(node)] of [ArtifactPipeline.run], giving the node as it is
    afterwards. *)
Fixpoint walk (processors : ArtifactPipeline) (node : value) {struct node} : M value :=
  let fix walkItems (items : list value) : M (list value) :=
    match items with
    | [] => ret []
    | x :: items' =>
        let* x' := walk processors x in
        let* items'' := walkItems items' in
        ret (x' :: items'')
    end in
  let fix walkProps (props : list (string * value)) : M (list (string * value)) :=
    match props with
    | [] => ret []
    | (k, v) :: props' =>
        let* v' := walk processors v in
        let* props'' := walkProps props' in
        ret ((k, v') :: props'')
    end in
  match node with
  | Arr items => let* items' := walkItems items in ret (Arr items')
  | Obj props =>
      if isArtifact node then processArtifact processors node
      else let* props' := walkProps props in ret (Obj props')
  | _ => ret node
  end.

(** [run(artifacts)] *)
Definition run_pipeline (processors : ArtifactPipeline) (artifacts : value) : M value :=
  walk processors artifacts.

End Pipeline.

(* ===================================================================== *)
(** ** core/session.ts *)
(* ===================================================================== *)

Module Session.
Import Js Eff Types Utils.

(** A [p-queue] instance of the pool. *)
Record PQueue : Type := mkQueue { concurrency : Z }.

(** [ClientLease].  [client] and [queue] are [None] when the property holds
    [undefined].  [release] is the closure of the pool; it acts on the
    state [S] of the pool that issued the lease. *)
Record ClientLease (S : Type) : Type := mkLease {
  client : option Client.ComfyUIClient;
  queue : option PQueue;
  release : S → S;
}.
Arguments mkLease {S}.
Arguments client {S}.
Arguments queue {S}.
Arguments release {S}.

Record ComfyUISession (S : Type) : Type := mkSession {
  lease : ClientLease S;
  pipeline : option Pipeline.ArtifactPipeline;
  closed : bool;
}.
Arguments mkSession {S}.
Arguments lease {S}.
Arguments pipeline {S}.
Arguments closed {S}.

(** [new ComfyUISession(lease, pipeline)] *)
Definition new_session {S} (l : ClientLease S) (pl : option Pipeline.ArtifactPipeline)
  : ComfyUISession S :=
  {| lease := l; pipeline := pl; closed := false |}.

Definition cannot_read (prop : string) : error :=
  TypeError ("Cannot read properties of undefined (reading '" +:+ prop +:+ "')").

Definition assertOpen {S} (s : ComfyUISession S) : M unit :=
  if closed s then throw (Error "ComfyUISession already closed") else ret tt.

(** [this.lease.client.m(...)]: a [TypeError] when [client] is [undefined]. *)
Definition with_client {S A} (s : ComfyUISession S) (method : string)
    (call : Client.ComfyUIClient → M A) : M A :=
  match client (lease s) with
  | Some c => call c
  | None => throw (cannot_read method)
  end.

(** [run(workflow, options)].  [queue.add(task)] runs the task. *)
Definition run {S} (s : ComfyUISession S) (workflow : value)
    (options : option RunOptions) (replies : list (reply Histories)) : M value :=
  let* _ := assertOpen s in
  let* artifacts :=
    match queue (lease s) with
    | Some _ => with_client s "run" (λ c, Client.run c workflow options replies)
    | None => throw (cannot_read "add")
    end in
  if negb (truthy artifacts) then throw (Error "Generation failed")
  else match pipeline s with
       | Some pl => Pipeline.run_pipeline pl artifacts
       | None => ret artifacts
       end.

Definition queue_workflow {S} (s : ComfyUISession S) (workflow : value)
    (options : option RunOptions) : M string :=
  let* _ := assertOpen s in
  with_client s "queue" (λ c, Client.queue c workflow options).

Definition uploadFile {S} (s : ComfyUISession S) (filename : string) : M value :=
  let* _ := assertOpen s in
  with_client s "uploadFile" (λ c, Client.uploadFile c filename).

Definition getHistory {S} (s : ComfyUISession S) (r : reply Histories)
    (promptId : string) : M Histories :=
  let* _ := assertOpen s in
  with_client s "getHistory" (λ _, Client.getHistory r promptId).

(** [close()]: the session and the pool state afterwards. *)
Definition close {S} (s : ComfyUISession S) (st : S) : ComfyUISession S * S :=
  if closed s then (s, st)
  else ({| lease := lease s; pipeline := pipeline s; closed := true |},
        release (lease s) st).

End Session.

(* ===================================================================== *)
(** ** core/pool.ts *)
(* ===================================================================== *)

Module Pool.
Import Js Eff Types Utils Session.

(** The numbers of the pool: session counts, concurrency limits and their
    quotients.  Finite values are exact rationals (a double represents the
    counts exactly and orders the quotients of counts as the rationals do,
    for every count a pool can hold in practice); the special values are
    those of JavaScript. *)
Inductive number : Type :=
  | Fin (q : Qc)
  | PInf
  | NInf
  | NaN.

Definition Int (z : Z) : number := Fin (Qc_of_Z z).

(** [ToNumber] of what an array access gives: [undefined] is [NaN]. *)
Definition to_number (o : option number) : number := default NaN o.

Definition js_neg (x : number) : number :=
  match x with
  | Fin q => Fin (- q)%Qc
  | PInf => NInf
  | NInf => PInf
  | NaN => NaN
  end.

(** [x + y] *)
Definition js_add (x y : number) : number :=
  match x, y with
  | NaN, _ | _, NaN => NaN
  | Fin a, Fin b => Fin (a + b)%Qc
  | PInf, NInf | NInf, PInf => NaN
  | PInf, _ | _, PInf => PInf
  | NInf, _ | _, NInf => NInf
  end.

(** [x - y] *)
Definition js_sub (x y : number) : number := js_add x (js_neg y).

(** [x / y] (the sign of a zero is not modelled: [x / 0] has the sign of
    [x]).  The quotient is exact here and rounded to a double in the code:
    two different ratios [count / max] are different doubles, in the same
    order, when the limits are at most 2^26; beyond that they can round to
    the same double, see [Double.select]. *)
Definition js_div (x y : number) : number :=
  match x, y with
  | NaN, _ | _, NaN => NaN
  | Fin a, Fin b =>
      if bool_decide (b = 0%Qc) then
        if bool_decide (a = 0%Qc) then NaN
        else if bool_decide (0 < a)%Qc then PInf else NInf
      else Fin (a / b)%Qc
  | Fin _, (PInf | NInf) => Fin 0%Qc
  | (PInf | NInf), (PInf | NInf) => NaN
  | PInf, Fin b => if bool_decide (b < 0)%Qc then NInf else PInf
  | NInf, Fin b => if bool_decide (b < 0)%Qc then PInf else NInf
  end.

(** [x < y] *)
Definition js_lt (x y : number) : bool :=
  match x, y with
  | NaN, _ | _, NaN => false
  | Fin a, Fin b => bool_decide (a < b)%Qc
  | NInf, (Fin _ | PInf) => true
  | Fin _, PInf => true
  | _, _ => false
  end.

(** [Math.max(x, y)] *)
Definition js_max (x y : number) : number :=
  match x, y with
  | NaN, _ | _, NaN => NaN
  | _, _ => if js_lt x y then y else x
  end.

(** [PoolNodes]: the client options, the server behind [baseUrl], and the
    optional [maxConcurrency], an integer. *)
Record PoolNodes : Type := mkNode {
  node_options : ClientOptions;
  node_server : Client.Server;
  maxConcurrency : option Z;
}.

(** [ComfyUIPool].  [sessionCounts] is the array object: its elements under
    the indices [0 .. length - 1], and whatever else the code stores under
    an integer key. *)
Record ComfyUIPool : Type := mkPool {
  clients : list Client.ComfyUIClient;
  queues : list PQueue;
  sessionCounts : gmap Z number;
  maxConcurrencies : list Z;
}.

(** The constructor.  [new PQueue({ concurrency })] has a check of its own,
    which is not part of this code: it refuses a concurrency below 1.
    Statements about constructed pools are made for limits of at least
    1. *)
Definition new_pool (nodes : list PoolNodes) : error + ComfyUIPool :=
  if bool_decide (length nodes = 0%nat)
  then inl (Error "Must configure at least one client")
  else
    inr {| clients := (λ o, Client.new_client (node_options o) (node_server o)) <$> nodes;
           queues := (λ o, mkQueue (default 1 (maxConcurrency o))) <$> nodes;
           sessionCounts := map_seqZ 0 ((λ _, Int 0) <$> nodes);
           maxConcurrencies := (λ o, default 1 (maxConcurrency o)) <$> nodes |}.

(** [this.sessionCounts[i]] and [this.maxConcurrencies[i]] as numbers *)
Definition count (p : ComfyUIPool) (i : Z) : number :=
  to_number (sessionCounts p !! i).

Definition limit (p : ComfyUIPool) (i : nat) : number :=
  to_number (Int <$> maxConcurrencies p !! i).

(** [a[i]] for an array [a] and an integer [i] *)
Definition at_index {A} (a : list A) (i : Z) : option A :=
  if bool_decide (0 ≤ i) then a !! Z.to_nat i else None.

(** [this.sessionCounts[i] = x] *)
Definition set_count (p : ComfyUIPool) (i : Z) (x : number) : ComfyUIPool :=
  {| clients := clients p;
     queues := queues p;
     sessionCounts := <[i := x]> (sessionCounts p);
     maxConcurrencies := maxConcurrencies p |}.

(** The body of the [for] loop of [acquire], on the pair
    [(best, bestRatio)]. *)
Definition acquire_step (p : ComfyUIPool) (st : Z * number) (i : nat) : Z * number :=
  let ratio := js_div (count p (Z.of_nat i)) (limit p i) in
  if js_lt ratio st.2 && js_lt (count p (Z.of_nat i)) (limit p i)
  then (Z.of_nat i, ratio)
  else st.

(** [best] after the loop. *)
Definition select (p : ComfyUIPool) : Z :=
  (fold_left (acquire_step p) (seq 0 (length (clients p))) (-1, Int 1)).1.

(** The [release] closure of a lease issued for index [best]. *)
Definition release_at (best : Z) (p : ComfyUIPool) : ComfyUIPool :=
  set_count p best (js_max (Int 0) (js_sub (count p best) (Int 1))).

(** [acquire()]: what it returns, and the pool afterwards. *)
Definition acquire (p : ComfyUIPool) : option (ClientLease ComfyUIPool) * ComfyUIPool :=
  let best := select p in
  let p' := set_count p best (js_add (count p best) (Int 1)) in
  (Some {| client := at_index (clients p') best;
           queue := at_index (queues p') best;
           release := release_at best |},
   p').

(** [createSession(pipeline)]; [None] is the result [null]. *)
Definition createSession (p : ComfyUIPool) (pl : option Pipeline.ArtifactPipeline)
  : option (ComfyUISession ComfyUIPool) * ComfyUIPool :=
  match acquire p with
  | (Some l, p') => (Some (new_session l pl), p')
  | (None, p') => (None, p')
  end.

Definition saturated : error :=
  Error "No available clients in pool - all clients have reached their concurrency limit".

(** [withSession(fn, pipeline)].  [fn] is given the session and the pool it
    runs against, and hands back what it did, together with the session and
    the pool as it left them.  The [finally] block closes the session once
    the awaited callback has settled, with a value or an error; as long as
    the callback is still running nothing is closed. *)
Definition withSession {T} (p : ComfyUIPool)
    (fn : ComfyUISession ComfyUIPool → ComfyUIPool →
          M T * ComfyUISession ComfyUIPool * ComfyUIPool)
    (pl : option Pipeline.ArtifactPipeline) : M T * ComfyUIPool :=
  match createSession p pl with
  | (None, p') => (throw saturated, p')
  | (Some session, p') =>
      let '(result, session', p'') := fn session p' in
      (result,
       match result.2 with
       | Running => p''
       | _ => (close session' p'').2
       end)
  end.

(** [metrics] *)
Record PoolMetrics : Type := mkMetrics {
  index : nat;
  currentSessions : number;
  maxConcurrencyOf : number;
  available : bool;
}.

Definition metrics (p : ComfyUIPool) : list PoolMetrics :=
  imap (λ i _, {| index := i;
                  currentSessions := count p (Z.of_nat i);
                  maxConcurrencyOf := limit p i;
                  available := js_lt (count p (Z.of_nat i)) (limit p i) |})
       (clients p).

End Pool.

(* ===================================================================== *)
(** ** Vocabulary of the statements *)
(* ===================================================================== *)

Module Spec.
Import Js Eff Types Utils.

(** [s] occurs in [t]. *)
Definition occurs_in (s t : string) : Prop := ∃ a b, t = a +:+ s +:+ b.

(** The events of the poll loop proper: sleeps and history requests. *)
Definition is_poll_event (e : event) : bool :=
  match e with
  | EvSleep _ | EvFetch _ => true
  | _ => false
  end.

Definition poll_events (t : list event) : list event := filter is_poll_event t.

(** What a poll loop that makes [k] history requests for [promptId] does
    when the delay before request number [n] is [delay n]: sleep, request,
    sleep, request, ... *)
Definition poll_schedule (delay : nat → Z) (promptId : string) (k : nat) : list event :=
  flat_map (λ n, [EvSleep (delay n); EvFetch promptId]) (seq 0 k).

(** The number of history requests in a trace. *)
Definition is_fetch (e : event) : bool :=
  match e with
  | EvFetch _ => true
  | _ => false
  end.

Definition fetch_count (t : list event) : nat := length (filter is_fetch t).

(** A client that differs from [c] in its [backoffBase] only. *)
Definition with_backoffBase (b : Z) (c : Client.ComfyUIClient) : Client.ComfyUIClient :=
  {| Client.timeoutMs := Client.timeoutMs c;
     Client.pollCfg :=
       {| Client.interval := Client.interval (Client.pollCfg c);
          Client.backoffBase := b;
          Client.backoffCap := Client.backoffCap (Client.pollCfg c) |};
     Client.server := Client.server c |}.

(** Computations that neither sleep nor request a history. *)
Definition quiet {A} (m : M A) : Prop := Forall (λ e, is_poll_event e = false) m.1.

(** The delay the design prescribes before history request number [n]. *)
Definition delay_of (c : Client.ComfyUIClient) (n : nat) : Z :=
  Z.min (Client.interval (Client.pollCfg c) * 2 ^ Z.of_nat n)
        (Client.backoffCap (Client.pollCfg c)).

(** *** Paths of leaves *)

(** [c] occurs in [s]. *)
Fixpoint has_char (c : ascii) (s : string) : bool :=
  match s with
  | EmptyString => false
  | String c' s' => bool_decide (c' = c) || has_char c s'
  end.

(** The two characters with which [walkLeaves] starts a path segment. *)
Definition is_sep (c : ascii) : bool :=
  bool_decide (c = "."%char) || bool_decide (c = "["%char).

(** A key that contains neither ['.'] nor ['[']. *)
Definition plain_key (k : string) : bool :=
  negb (has_char "." k) && negb (has_char "[" k).

(** [P] holds of the list of keys of every object in [v], at any depth. *)
Fixpoint all_objects (P : list string → bool) (v : value) {struct v} : bool :=
  let fix items (l : list value) : bool :=
    match l with
    | [] => true
    | x :: l' => all_objects P x && items l'
    end in
  let fix props (o : list (string * value)) : bool :=
    match o with
    | [] => true
    | (_, x) :: o' => all_objects P x && props o'
    end in
  match v with
  | Arr l => items l
  | Obj o => P (o.*1) && props o
  | _ => true
  end.

(** No object has two properties of the same name (as in JavaScript). *)
Definition unique_keys (v : value) : bool :=
  all_objects (λ ks, bool_decide (NoDup ks)) v.

(** Every key of every object is a [plain_key]. *)
Definition plain_keys (v : value) : bool :=
  all_objects (forallb plain_key) v.

(** The leaves that the extraction of [outputs] turns into artifacts, in
    order. *)
Definition all_leaves (outputs : value) : list Client.Leaf :=
  flat_map Client.node_leaves (Client.entries outputs).

(** [walkLeaves] on the items of an array from index [i] on, and on the
    properties of an object. *)
Fixpoint walk_items (path : string) (items : list value) (i : nat) : list Client.Leaf :=
  match items with
  | [] => []
  | x :: items' =>
      Client.walkLeaves x (path +:+ "[" +:+ string_of_nat i +:+ "]")
      ++ walk_items path items' (S i)
  end.

Fixpoint walk_props (path : string) (props : list (string * value)) : list Client.Leaf :=
  match props with
  | [] => []
  | (key, val) :: props' =>
      Client.walkLeaves val (path +:+ "." +:+ key) ++ walk_props path props'
  end.

(** No character of [s] satisfies [S]. *)
Fixpoint avoids (S : ascii → bool) (s : string) : bool :=
  match s with
  | EmptyString => true
  | String c s' => negb (S c) && avoids S s'
  end.

(** [r] is empty or starts with a character that satisfies [S]. *)
Definition starts_with (S : ascii → bool) (r : string) : Prop :=
  match r with
  | EmptyString => True
  | String c _ => S c = true
  end.

Definition is_digit (c : ascii) : bool :=
  bool_decide (c ∈ String.list_ascii_of_string "0123456789").

(** The leaves below [v] have pairwise different paths, wherever [v] is
    walked from. *)
Definition paths_distinct (v : value) : Prop :=
  ∀ path, NoDup (Client.leaf_from <$> Client.walkLeaves v path).

(** [q] is [p] followed by zero or more path segments. *)
Definition extends (p q : string) : Prop :=
  ∃ r, q = p +:+ r ∧ starts_with is_sep r.

(** *** Output mapping *)

(** A [to] that names one property: no dot, and not one of the keys that
    lodash [set] refuses. *)
Definition simple_key (k : string) : bool :=
  negb (has_char "." k) && negb (unsafe_key k).

(** What [applyNodeOutputs] writes for the mapping entry [o]: nothing when
    the payload, or else the default value, is [undefined]. *)
Definition resolved (byFrom : gmap string value) (o : NodeOutput) : option value :=
  match byFrom !! out_from o with
  | Some art =>
      if isUndefined (read art "payload") then None
      else Some (with_payload (Some art) (read art "payload"))
  | None =>
      if isUndefined (out_defaultValue o) then None
      else Some (Obj [("payload", out_defaultValue o)])
  end.

(** The messages of the record of [promptId] when its status is
    [error]. *)
Definition errored (h : Histories) (promptId : string) : option value :=
  match history_of h promptId with
  | Some rec =>
      if bool_decide (status_str (status rec) = "error")
      then Some (messages (status rec)) else None
  | None => None
  end.

(** The record of [promptId] is completed and has outputs. *)
Definition finished (h : Histories) (promptId : string) : bool :=
  match history_of h promptId with
  | Some rec =>
      completed (status rec) && truthy (outputs rec)
      && negb (bool_decide (length (Client.keys (outputs rec)) = 0%nat))
  | None => false
  end.

(** A reply that leaves the poll loop polling: a history in which the
    prompt is neither failed nor finished. *)
Definition pending (promptId : string) (r : reply Histories) : Prop :=
  ∃ h, r = inr h ∧ errored h promptId = None ∧ finished h promptId = false.

(** *** The pool *)

(** Instance [i] has [c] current sessions; its limit is [m]. *)
Definition count_is (p : Pool.ComfyUIPool) (i : nat) (c : Z) : Prop :=
  Pool.sessionCounts p !! Z.of_nat i = Some (Pool.Int c).

Definition cap_is (p : Pool.ComfyUIPool) (i : nat) (m : Z) : Prop :=
  Pool.maxConcurrencies p !! i = Some m.

(** The load ratio [current / max]. *)
Definition load (c m : Z) : Qc := (Qc_of_Z c / Qc_of_Z m)%Qc.

(** The shape of a pool: one limit per client, and a session count that is
    a natural number for every instance. *)
Definition pool_wf (p : Pool.ComfyUIPool) : Prop :=
  length (Pool.maxConcurrencies p) = length (Pool.clients p)
  ∧ length (Pool.queues p) = length (Pool.clients p)
  ∧ ∀ i, (i < length (Pool.clients p))%nat → ∃ c, count_is p i c ∧ 0 ≤ c.

(** The pool invariant: no instance is over its limit. *)
Definition within_caps (p : Pool.ComfyUIPool) : Prop :=
  pool_wf p ∧ ∀ i c m, count_is p i c → cap_is p i m → c ≤ m.

(** Among the first [k] instances, [bi] (with count [cb] and limit [mb]) is
    under its limit and has the lowest load ratio of those under their
    limit, and is the first with that ratio. *)
Definition best_of (p : Pool.ComfyUIPool) (k bi : nat) (cb mb : Z) : Prop :=
  (bi < k)%nat ∧ count_is p bi cb ∧ cap_is p bi mb ∧ cb < mb
  ∧ ∀ j cj mj, (j < k)%nat → count_is p j cj → cap_is p j mj → cj < mj →
      (load cb mb ≤ load cj mj)%Qc ∧ (load cj mj = load cb mb → (bi ≤ j)%nat).

(** None of the first [k] instances is under its limit. *)
Definition none_under (p : Pool.ComfyUIPool) (k : nat) : Prop :=
  ∀ j cj mj, (j < k)%nat → count_is p j cj → cap_is p j mj → ¬ cj < mj.

(** The pair [(best, bestRatio)] of [acquire] after [k] iterations. *)
Definition loop_inv (p : Pool.ComfyUIPool) (k : nat) (st : Z * Pool.number) : Prop :=
  (st = (-1, Pool.Int 1) ∧ none_under p k)
  ∨ ∃ bi cb mb, st = (Z.of_nat bi, Pool.Fin (load cb mb)) ∧ best_of p k bi cb mb.

(** A write to [sessionCounts] that keeps the invariant: under the key
    [-1], or a natural number within the limit under an index. *)
Definition ok_update (p : Pool.ComfyUIPool) (best : Z) (x : Pool.number) : Prop :=
  best = -1
  ∨ ∃ bi c, best = Z.of_nat bi ∧ x = Pool.Int c ∧ 0 ≤ c ∧ ∀ m, cap_is p bi m → c ≤ m.

(** A lease of a pool with [n] instances: its [release] is the closure for
    the key [-1] or for an index of the pool. *)
Definition lease_ok (n : nat) (l : Session.ClientLease Pool.ComfyUIPool) : Prop :=
  ∃ best, Session.release l = Pool.release_at best
          ∧ (best = -1 ∨ ∃ bi, best = Z.of_nat bi ∧ (bi < n)%nat).

(** Every instance is at its limit. *)
Definition all_at_cap (p : Pool.ComfyUIPool) : Prop :=
  ∀ i c m, count_is p i c → cap_is p i m → c = m.

(** A pool in use: its state, and the leases [acquire] has handed out. *)
Record PoolState : Type := mkPoolState {
  pool : Pool.ComfyUIPool;
  issued : list (Session.ClientLease Pool.ComfyUIPool);
}.

(** One call: [acquire()], or the [release()] of a lease handed out before
    (any of them, any number of times). *)
Inductive pool_step : PoolState → PoolState → Prop :=
  | step_acquire p ls l p' :
      Pool.acquire p = (Some l, p') →
      pool_step (mkPoolState p ls) (mkPoolState p' (l :: ls))
  | step_release p ls l :
      l ∈ ls →
      pool_step (mkPoolState p ls) (mkPoolState (Session.release l p) ls).

(** What holds of a pool of [n] instances in use. *)
Definition pool_inv (n : nat) (st : PoolState) : Prop :=
  within_caps (pool st)
  ∧ length (Pool.clients (pool st)) = n
  ∧ Forall (lease_ok n) (issued st).

End Spec.

(* ===================================================================== *)
(** ** Concrete inputs *)
(* ===================================================================== *)

Module Examples.
Import Js Eff Types Utils Session Pool Spec.

(** A server that accepts every request. *)
Definition server_ok : Client.Server :=
  {| Client.post_prompt := λ _, inr "prompt-1";
     Client.get_view := λ _, inr [];
     Client.post_upload := λ _, inr (Obj [("name", Str "upload.png"); ("subfolder", Str "uploaded")]) |}.

Definition node_with (maxConcurrency : Z) : PoolNodes :=
  {| node_options := {| timeout := None; poll := None |};
     node_server := server_ok;
     maxConcurrency := Some maxConcurrency |}.

Definition pool_of (nodes : list PoolNodes) : ComfyUIPool :=
  match new_pool nodes with
  | inr p => p
  | inl _ => {| clients := []; queues := []; sessionCounts := ∅; maxConcurrencies := [] |}
  end.

(** A single instance with [maxConcurrency] 1, fresh. *)
Definition pool_one : ComfyUIPool := pool_of [node_with 1].

(** The same pool after one [acquire]: max = 1, current = 1. *)
Definition pool_full : ComfyUIPool := (acquire pool_one).2.

(** The lease that [acquire] handed out. *)
Definition lease_one : ClientLease ComfyUIPool :=
  {| client := at_index (clients pool_one) 0;
     queue := at_index (queues pool_one) 0;
     release := release_at 0 |}.

(** The pool in use after that [acquire] and two calls of the lease's
    [release]. *)
Definition released_twice : PoolState :=
  {| pool := release lease_one (release lease_one pool_full);
     issued := [lease_one] |}.

(** A client with the default options, talking to [server_ok]. *)
Definition client_ok : Client.ComfyUIClient :=
  Client.new_client {| timeout := None; poll := None |} server_ok.


(** A history in which the prompt is still executing. *)
Definition history_pending : Histories :=
  [("prompt-1",
    {| outputs := Obj [];
       status := {| status_str := "success"; completed := false;
                    messages := Arr [] |} |})].

(** An outputs tree with a key that contains a dot: node 1 has the
    property [a.b], and the property [a] with the property [b] in it. *)
Definition outputs_dotted : value :=
  Obj [("1", Obj [("a.b", Str "x"); ("a", Obj [("b", Str "y")])])].

(** An outputs tree as ComfyUI returns it: node 8 with two images, node 9
    with a text. *)
Definition outputs_plain : value :=
  Obj [("8", Obj [("images",
                   Arr [Obj [("filename", Str "a.png"); ("subfolder", Str "");
                             ("type", Str "output")];
                        Obj [("filename", Str "b.png"); ("subfolder", Str "");
                             ("type", Str "output")]])]);
       ("9", Obj [("text", Arr [Str "a cat"])])].

(** A mapping entry with a dotted target. *)
Definition output_dotted : NodeOutput :=
  {| out_from := "9"; out_to := "out.image"; out_defaultValue := Undefined |}.

(** The mapping of the design's example. *)
Definition output_image : NodeOutput :=
  {| out_from := "9"; out_to := "image"; out_defaultValue := Undefined |}.

(** What the extraction of [outputs_plain] gives against [server_ok]. *)
Definition extracted_plain : list (string * list value) :=
  match (Client.extractArtifacts server_ok outputs_plain "prompt-1").2 with
  | Ok arts => arts
  | _ => []
  end.

(** A text artifact as the client extracts it. *)
Definition artifact_hello : value :=
  mkArtifact "text" (Str "hello") (Obj [("from", Str "9"); ("promptId", Str "prompt-1")]).

Fixpoint ends_with_mark (s : string) : bool :=
  match s with
  | EmptyString => false
  | String c EmptyString => bool_decide (c = "!"%char)
  | String _ s' => ends_with_mark s'
  end.

(** A processor that appends a mark to a text payload; its output tells
    whether the payload was marked already. *)
Definition marker : Pipeline.ArtifactProcessor :=
  {| Pipeline.name := "marker";
     Pipeline.shouldRun := Pipeline.shouldRun_default;
     Pipeline.run := λ artifact,
       {| Pipeline.output := Bool (ends_with_mark (toString (read artifact "payload")));
          Pipeline.next :=
            Some {| Pipeline.next_kind := read artifact "kind";
                    Pipeline.next_payload :=
                      Str (toString (read artifact "payload") +:+ "!");
                    Pipeline.next_manifest := read artifact "manifest" |} |} |}.

(** [artifact_hello] after one, and after two, runs of the pipeline
    [[marker]]. *)
Definition artifact_marked_once : value :=
  Obj [("kind", Str "text"); ("payload", Str "hello!");
       ("manifest", Obj [("from", Str "9"); ("promptId", Str "prompt-1")]);
       ("pipeline", Obj [("marker", Bool false)])].

Definition artifact_marked_twice : value :=
  Obj [("kind", Str "text"); ("payload", Str "hello!!");
       ("manifest", Obj [("from", Str "9"); ("promptId", Str "prompt-1")]);
       ("pipeline", Obj [("marker", Bool true)])].

(** A callback for [withSession] that uploads one file. *)
Definition upload_callback (s : ComfyUISession ComfyUIPool) (p : ComfyUIPool)
  : M value * ComfyUISession ComfyUIPool * ComfyUIPool :=
  (uploadFile s "a.png", s, p).

(** Instances A (max 2, current 0) and B (max 2, current 1). *)
Definition pool_AB : ComfyUIPool :=
  set_count (pool_of [node_with 2; node_with 2]) 1 (Int 1).

End Examples.

(* ===================================================================== *)
(** ** utils.ts: file names *)
(* ===================================================================== *)

Module FileName.
Import Js.

(** [s.lastIndexOf(c)] for a one-character [c]; [None] is the result [-1]. *)
Fixpoint lastIndexOf (s : string) (c : ascii) : option nat :=
  match s with
  | EmptyString => None
  | String c' s' =>
      match lastIndexOf s' c with
      | Some i => Some (S i)
      | None => if bool_decide (c' = c) then Some 0%nat else None
      end
  end.

(** [s.substring(start)] *)
Fixpoint substring (s : string) (start : nat) : string :=
  match start, s with
  | O, _ => s
  | S n, String _ s' => substring s' n
  | S _, EmptyString => EmptyString
  end.

(** [s.toLowerCase()] on ASCII text: the letters [A] to [Z] become [a] to
    [z], every other character stays.  Text with other letters is outside
    this definition ([toLowerCase] lowers those too); statements that
    involve it are made for ASCII text. *)
Definition is_upper (c : ascii) : bool :=
  (65 <=? nat_of_ascii c)%nat && (nat_of_ascii c <=? 90)%nat.

Definition lower_char (c : ascii) : ascii :=
  if is_upper c then ascii_of_nat (nat_of_ascii c + 32) else c.

Fixpoint toLowerCase (s : string) : string :=
  match s with
  | EmptyString => EmptyString
  | String c s' => String (lower_char c) (toLowerCase s')
  end.

(** [extractFileExtension(fileName)]; the argument is a string, as its type
    says. *)
Definition extractFileExtension (fileName : string) : error + string :=
  if bool_decide (fileName = EmptyString)
  then inl (Error "Invalid input: fileName must be a non-empty string.")
  else match lastIndexOf fileName "." with
       | None => inr EmptyString
       | Some O => inr EmptyString
       | Some index => inr (toLowerCase (substring fileName (index + 1)))
       end.

End FileName.

(* ===================================================================== *)
(** ** type-utils.ts *)
(* ===================================================================== *)

Module TypeUtils.
Import Js.

(** A [NodeInput] as [validateInputs] reads it: [from] and the optional
    [required]. *)
Record InputSpec : Type := mkInputSpec {
  from : string;
  required : option bool;
}.

(** The property names every plain object inherits from
    [Object.prototype]. *)
Definition object_prototype_keys : list string :=
  ["constructor"; "__defineGetter__"; "__defineSetter__"; "hasOwnProperty";
   "__lookupGetter__"; "__lookupSetter__"; "isPrototypeOf";
   "propertyIsEnumerable"; "toString"; "valueOf"; "__proto__"; "toLocaleString"].

(** [key in o] for a plain object [o]: an own property, or an inherited
    one. *)
Definition js_in (key : string) (o : list (string * value)) : bool :=
  bool_decide (is_Some (get_prop o key)) || bool_decide (key ∈ object_prototype_keys).

Definition is_required (input : InputSpec) : bool :=
  match required input with
  | Some true => true
  | _ => false
  end.

(** [validateInputs(node, inputs)]; the first argument is [node.inputs]. *)
Definition validateInputs (node_inputs : option (list InputSpec))
    (inputs : list (string * value)) : error + bool :=
  match node_inputs with
  | None => inr true
  | Some all =>
      let requiredInputs := filter (λ input, is_required input = true) all in
      let missingInputs :=
        filter (λ input, js_in (from input) inputs = false) requiredInputs in
      if bool_decide (0 < length missingInputs)%nat
      then inl (Error ("Missing required inputs: "
                       +:+ String.concat ", " (from <$> missingInputs)))
      else inr true
  end.

End TypeUtils.

(* ===================================================================== *)
(** ** logger.ts *)
(* ===================================================================== *)

Module Logger.

Inductive LogLevel : Type := DEBUG | INFO | WARN | ERROR | NONE.

(** The numbers of the enumeration. *)
Definition level_number (l : LogLevel) : Z :=
  match l with
  | DEBUG => 10
  | INFO => 20
  | WARN => 30
  | ERROR => 40
  | NONE => 50
  end.

Record LoggerOptions : Type := mkLoggerOptions {
  level : option LogLevel;
  namespace : option string;
  color : option bool;
}.

Record Logger : Type := mkLogger {
  currentLevel : LogLevel;
  namespacePrefix : string;
  enableColor : bool;
}.

(** The constructor; [isTTY] is [process.stdout.isTTY]. *)
Definition new_logger (options : LoggerOptions) (isTTY : bool) : Logger :=
  {| currentLevel := default INFO (level options);
     namespacePrefix :=
       match namespace options with
       | Some ns => if bool_decide (ns = EmptyString) then EmptyString
                    else "[" +:+ ns +:+ "]"
       | None => EmptyString
       end;
     enableColor := default isTTY (color options) |}.

Definition setLevel (lg : Logger) (newLevel : LogLevel) : Logger :=
  {| currentLevel := newLevel;
     namespacePrefix := namespacePrefix lg;
     enableColor := enableColor lg |}.

(** What [console.log] is given: the text, and the [chalk] colour it is
    wrapped in, if any. *)
Inductive Color : Type := CyanBright | Blue | Yellow | Red.

Record Line : Type := mkLine {
  line_color : option Color;
  line_text : string;
}.

Definition colorize (lg : Logger) (severityLevel : LogLevel) (text : string) : Line :=
  if negb (enableColor lg) then mkLine None text
  else match severityLevel with
       | DEBUG => mkLine (Some CyanBright) text
       | INFO => mkLine (Some Blue) text
       | WARN => mkLine (Some Yellow) text
       | ERROR => mkLine (Some Red) text
       | NONE => mkLine None text
       end.

Section Print.

(** [util.inspect(metadata, { depth: null, colors, compact: false })] *)
Variable inspect : Js.value → bool → string.

(** [printLog]: the line printed, if any.  [timestamp] is
    [new Date().toISOString()] at the time of the call; an absent
    [metadata] is [Undefined]. *)
Definition printLog (lg : Logger) (severityLevel : LogLevel) (logLabel message : string)
    (metadata : Js.value) (timestamp : string) : option Line :=
  if level_number severityLevel <? level_number (currentLevel lg) then None
  else
    let outputLine :=
      timestamp +:+ " [" +:+ logLabel +:+ "]" +:+ namespacePrefix lg +:+ " " +:+ message in
    let outputLine :=
      if Js.isUndefined metadata then outputLine
      else outputLine +:+ " " +:+ inspect metadata (enableColor lg) in
    Some (colorize lg severityLevel outputLine).

Definition debug (lg : Logger) (message : string) (metadata : Js.value) (timestamp : string)
  : option Line := printLog lg DEBUG "DEBUG" message metadata timestamp.

Definition info (lg : Logger) (message : string) (metadata : Js.value) (timestamp : string)
  : option Line := printLog lg INFO "INFO " message metadata timestamp.

Definition warn (lg : Logger) (message : string) (metadata : Js.value) (timestamp : string)
  : option Line := printLog lg WARN "WARN " message metadata timestamp.

Definition error (lg : Logger) (message : string) (metadata : Js.value) (timestamp : string)
  : option Line := printLog lg ERROR "ERROR" message metadata timestamp.

End Print.

(** The logger a component makes for itself (constructors of
    [ComfyUIClient] and [ComfyUIPool]):
    [const { logging = false, logLevel = LogLevel.INFO } = options
     new Logger({ namespace, level: logging ? logLevel : LogLevel.NONE })] *)
Definition component_logger (namespace : string) (logging : option bool)
    (logLevel : option LogLevel) (isTTY : bool) : Logger :=
  new_logger
    {| level := Some (if default false logging then default INFO logLevel else NONE);
       namespace := Some namespace;
       color := None |}
    isTTY.

End Logger.

(* ===================================================================== *)
(** ** core/client.ts: base URL and headers *)
(* ===================================================================== *)

Module ClientRequest.
Import Js.

(** [options.baseUrl.replace(/\/+$/, '')], the [baseUrl] the constructor
    stores. *)
Fixpoint baseUrl_of (baseUrl : string) : string :=
  match baseUrl with
  | EmptyString => EmptyString
  | String c rest =>
      match baseUrl_of rest with
      | EmptyString =>
          if bool_decide (c = "/"%char) then EmptyString else String c EmptyString
      | kept => String c kept
      end
  end.

(** [`${this.baseUrl}/prompt`] and [`${this.baseUrl}/history/${promptId}`] *)
Definition prompt_url (baseUrl : string) : string := baseUrl_of baseUrl +:+ "/prompt".

Definition history_url (baseUrl promptId : string) : string :=
  baseUrl_of baseUrl +:+ "/history/" +:+ promptId.

(** [headers(extra)]:
    [this.apiKey ? { Authorization: `Bearer ${this.apiKey}`, ...extra } : extra] *)
Definition headers (apiKey : option string) (extra : list (string * value)) : value :=
  match apiKey with
  | Some key =>
      if bool_decide (key = EmptyString) then Obj extra
      else assign (Obj [("Authorization", Str ("Bearer " +:+ key))]) extra
  | None => Obj extra
  end.

End ClientRequest.

(* ===================================================================== *)
(** ** The arithmetic of the code: IEEE doubles *)
(* ===================================================================== *)

Module Double.

(** The double of an integer below 2^63 in magnitude (the integer itself up
    to 2^53, rounded to the nearest double beyond). *)
Definition of_Z (z : Z) : PrimFloat.float :=
  if z <? 0 then PrimFloat.opp (PrimFloat.of_uint63 (Uint63.of_Z (- z)))
  else PrimFloat.of_uint63 (Uint63.of_Z z).

(** [2 ** n] for a natural number [n]: [Infinity] from [n = 1024] on. *)
Definition pow2 (n : nat) : PrimFloat.float :=
  Nat.iter n (PrimFloat.mul (of_Z 2)) (of_Z 1).

(** [Math.min(x, y)] (the sign of a zero is not modelled) *)
Definition min (x y : PrimFloat.float) : PrimFloat.float :=
  if PrimFloat.is_nan x || PrimFloat.is_nan y then PrimFloat.nan
  else if PrimFloat.ltb y x then y else x.

(** utils.ts, [exponentialBackoff]: [Math.min(base * 2 ** attempt, cap)] *)
Definition exponentialBackoff (attempt : nat) (base cap : Z) : PrimFloat.float :=
  min (PrimFloat.mul (of_Z base) (pow2 attempt)) (of_Z cap).

(** client.ts, [pollUntilDone]:
    [const waitMs = exponentialBackoff(attempt, this.pollCfg.interval,
     this.pollCfg.backoffCap)] *)
Definition waitMs (c : Client.ComfyUIClient) (attempt : nat) : PrimFloat.float :=
  exponentialBackoff attempt (Client.interval (Client.pollCfg c))
                     (Client.backoffCap (Client.pollCfg c)).

(** pool.ts, the loop of [acquire] for instances with the session counts
    [counts] and the limits [maxes]:
    [const ratio = this.sessionCounts[i] / this.maxConcurrencies[i]
     if (ratio < bestRatio && this.sessionCounts[i] < this.maxConcurrencies[i])
       { bestRatio = ratio; best = i }] *)
Definition ratio (count max : Z) : PrimFloat.float :=
  PrimFloat.div (of_Z count) (of_Z max).

Definition acquire_step (counts maxes : list Z) (st : Z * PrimFloat.float) (i : nat)
  : Z * PrimFloat.float :=
  match counts !! i, maxes !! i with
  | Some count, Some max =>
      if PrimFloat.ltb (ratio count max) st.2 && (count <? max)
      then (Z.of_nat i, ratio count max)
      else st
  | _, _ => st
  end.

(** [best] after the loop. *)
Definition select (counts maxes : list Z) : Z :=
  (fold_left (acquire_step counts maxes) (seq 0 (length counts)) (-1, of_Z 1)).1.

End Double.

(* ===================================================================== *)
(** ** Vocabulary of the further statements *)
(* ===================================================================== *)

Module Terms.
Import Js Eff Types Utils.

(** The delays of a trace, in order, and their sum. *)
Definition sleeps (t : list event) : list Z :=
  omap (λ e, match e with EvSleep ms => Some ms | _ => None end) t.

Definition total_sleep (t : list event) : Z := foldr Z.add 0 (sleeps t).


(** How [run] ends when the extraction of the outputs ends with [ex]. *)
Definition mapped (ex : outcome (list (string * list value)))
    (options : option RunOptions) : outcome value :=
  match ex with
  | Ok raw => Ok (Client.map_outputs (unwrapArtifacts raw) options)
  | Throw e => Throw e
  | Running => Running
  end.

(** *** The range of the doubles *)

(** Arguments of [exponentialBackoff] on which the integers of
    [Utils.exponentialBackoff] are what the doubles of the code give:
    [base] and [cap] are integers a double holds, and [base * 2^attempt] is
    positive (beyond the doubles it is [Infinity], and the minimum is
    [cap]) or is itself a double. *)
Definition in_double_range (attempt : nat) (base cap : Z) : Prop :=
  Z.abs base ≤ 2 ^ 53 ∧ Z.abs cap ≤ 2 ^ 53 ∧ (0 < base ∨ (attempt ≤ 970)%nat).

(** A pool in which the doubles of the load ratios are ordered as the
    ratios themselves: the limits are at most 2^26 (two different ratios
    under 1 are then at least 2^-52 apart, more than the rounding of a
    quotient), and the counts are integers a double holds. *)
Definition ratios_exact (p : Pool.ComfyUIPool) : Prop :=
  (∀ i m, Spec.cap_is p i m → m ≤ 2 ^ 26)
  ∧ (∀ i c, (i < length (Pool.clients p))%nat → Spec.count_is p i c → c ≤ 2 ^ 53).

(** A name that objects do not inherit from [Object.prototype]: reading it
    from an object that has no such property gives [undefined]. *)
Definition own_name (k : string) : Prop := k ∉ TypeUtils.object_prototype_keys.

(** Client options that differ from [options] in [poll.backoffBase] at
    most. *)
Definition same_but_backoffBase (options options' : ClientOptions) : Prop :=
  timeout options' = timeout options
  ∧ poll options' ≫= opt_interval = poll options ≫= opt_interval
  ∧ poll options' ≫= opt_backoffCap = poll options ≫= opt_backoffCap.

(** ASCII text. *)
Definition ascii_text (s : string) : bool :=
  Spec.avoids (λ c, (128 <=? nat_of_ascii c)%nat) s.

(** *** Extraction *)

(** A leaf that is a binary descriptor: the client downloads it. *)
Definition is_binary (leaf : Client.Leaf) : bool :=
  isBinaryManifest (Client.leaf_value leaf).

(** The downloads an extraction needs, in the order of the leaves. *)
Definition downloads (outputs : value) : list event :=
  (λ leaf, EvView (Client.leaf_value leaf))
    <$> filter (λ leaf, is_binary leaf = true) (Spec.all_leaves outputs).

(** What can be read from the artifact [art] made from [leaf]. *)
Definition artifact_of (srv : Client.Server) (promptId : string)
    (leaf : Client.Leaf) (art : value) : Prop :=
  isArtifact art = true
  ∧ manifest_from art = Str (Client.leaf_from leaf)
  ∧ read (read art "manifest") "promptId" = Str promptId
  ∧ if is_binary leaf
    then read art "kind" = Str "binary"
         ∧ (∃ bytes, Client.get_view srv (Client.leaf_value leaf) = inr bytes
                     ∧ read art "payload" = Buf bytes)
         ∧ ∀ k, k ≠ "from" → k ≠ "promptId" →
             read (read art "manifest") k = read (Client.leaf_value leaf) k
    else read art "kind" = Str "text"
         ∧ read art "payload" = Client.leaf_value leaf
         ∧ Client.keys (read art "manifest") = ["from"; "promptId"].

(** An artifact as [leafToArtifact] makes it: the object literal
    [{ kind, payload, manifest }] with a payload that is there. *)
Definition extracted (art : value) : Prop :=
  ∃ kind payload manifest,
    art = mkArtifact kind payload manifest ∧ isUndefined payload = false.

(** *** The pool *)

(** [k] calls of [acquire] in a row, none of the leases released: for each
    call whether the lease has a client, and the pool afterwards. *)
Fixpoint acquires (k : nat) (p : Pool.ComfyUIPool) : list bool * Pool.ComfyUIPool :=
  match k with
  | O => ([], p)
  | S k' =>
      let served :=
        match (Pool.acquire p).1 with
        | Some l => bool_decide (is_Some (Session.client l))
        | None => false
        end in
      (served :: (acquires k' (Pool.acquire p).2).1, (acquires k' (Pool.acquire p).2).2)
  end.

(** The instances of [p] have the session counts [cs], in order. *)
Definition counts_are (p : Pool.ComfyUIPool) (cs : list Z) : Prop :=
  length cs = length (Pool.clients p)
  ∧ ∀ i c, cs !! i = Some c → Spec.count_is p i c.

(** The free slots of instances with limits [ms] and counts [cs]. *)
Definition free_slots (ms cs : list Z) : Z := foldr Z.add 0 (zip_with Z.sub ms cs).

(** The limits the constructor gives the instances of [nodes], summed. *)
Definition total_limit (nodes : list Pool.PoolNodes) : Z :=
  foldr Z.add 0 ((λ o, default 1 (Pool.maxConcurrency o)) <$> nodes).

(** *** The pipeline *)

(** The [pipeline] property of an artifact is absent or holds an object. *)
Definition state_ok (artifact : value) : bool :=
  match read artifact "pipeline" with
  | Undefined | Null | Obj _ => true
  | _ => false
  end.

(** Every artifact in [node], at any depth the pipeline's walk reaches,
    satisfies [state_ok]. *)
Fixpoint artifacts_ok (node : value) {struct node} : bool :=
  let fix items (l : list value) : bool :=
    match l with
    | [] => true
    | x :: l' => artifacts_ok x && items l'
    end in
  let fix props (o : list (string * value)) : bool :=
    match o with
    | [] => true
    | (_, x) :: o' => artifacts_ok x && props o'
    end in
  match node with
  | Arr l => items l
  | Obj o => if isArtifact node then state_ok node else props o
  | _ => true
  end.

(** The artifact after an iteration of [processArtifact] that runs
    [processor]. *)
Definition stepped (artifact : value) (processor : Pipeline.ArtifactProcessor) : value :=
  let r := Pipeline.run processor artifact in
  let artifact' :=
    write artifact "pipeline"
      (write (read artifact "pipeline") (Pipeline.name processor) (Pipeline.output r)) in
  match Pipeline.next r with
  | Some n => Pipeline.assign_next artifact' n
  | None => artifact'
  end.

(** The walk of [ArtifactPipeline.run] on the items of an array and on the
    properties of an object. *)
Fixpoint pipe_items (processors : Pipeline.ArtifactPipeline) (items : list value)
  : M (list value) :=
  match items with
  | [] => ret []
  | x :: items' =>
      let* x' := Pipeline.walk processors x in
      let* items'' := pipe_items processors items' in
      ret (x' :: items'')
  end.

Fixpoint pipe_props (processors : Pipeline.ArtifactPipeline)
    (props : list (string * value)) : M (list (string * value)) :=
  match props with
  | [] => ret []
  | (k, v) :: props' =>
      let* v' := Pipeline.walk processors v in
      let* props'' := pipe_props processors props' in
      ret ((k, v') :: props'')
  end.

(** [node'] has the shape of [node]: arrays of the same length, objects
    with the same keys in the same order, an artifact where there was an
    artifact, and everything else unchanged. *)
Inductive same_shape : value → value → Prop :=
  | shape_artifact o o' :
      isArtifact (Obj o) = true → isArtifact (Obj o') = true →
      same_shape (Obj o) (Obj o')
  | shape_array l l' :
      Forall2 same_shape l l' → same_shape (Arr l) (Arr l')
  | shape_object o o' :
      isArtifact (Obj o) = false → o.*1 = o'.*1 → Forall2 same_shape o.*2 o'.*2 →
      same_shape (Obj o) (Obj o')
  | shape_other v :
      match v with Arr _ | Obj _ => False | _ => True end → same_shape v v.

(** *** Input mapping *)

(** [get(v, path)]: the value found by reading the keys of [path] in
    turn. *)
Fixpoint read_path (v : value) (path : list string) : value :=
  match path with
  | [] => v
  | key :: rest => read_path (read v key) rest
  end.

(** The value [applyNodeInputs] takes for a mapping entry:
    [inputs[from] ?? defaultValue]. *)
Definition input_value (inputs : list (string * value)) (ni : NodeInput) : value :=
  nullish_or (default Undefined (get_prop inputs (in_from ni))) (in_defaultValue ni).

(** A key under which a value can be stored in [v]: any key of an object,
    an index of an array. *)
Definition assignable (v : value) (key : string) : bool :=
  match v with
  | Obj _ => true
  | Arr _ => bool_decide (is_Some (isIndex key))
  | _ => false
  end.

(** A path along which lodash [set] stores a value in [nested]: no key is
    one of those it refuses or the name of a property that objects
    inherit, and at each step the key is [assignable] in what the walk has
    reached (what was there if that is an object or an array, or else the
    container [set] creates). *)
Fixpoint settable (nested : value) (path : list string) : bool :=
  match path with
  | [] => true
  | key :: rest =>
      negb (unsafe_key key || bool_decide (key ∈ TypeUtils.object_prototype_keys))
      && assignable nested key
      && match rest with
         | [] => true
         | next :: _ =>
             settable
               (if isObject (read nested key) then read nested key
                else match isIndex next with
                     | Some _ => Arr []
                     | None => Obj []
                     end)
               rest
         end
  end.



(** *** Strings *)

(** [n] slashes. *)
Fixpoint slashes (n : nat) : string :=
  match n with
  | O => EmptyString
  | S n' => String "/" (slashes n')
  end.

(** The last character of [s] is a slash. *)
Fixpoint ends_with_slash (s : string) : bool :=
  match s with
  | EmptyString => false
  | String c EmptyString => bool_decide (c = "/"%char)
  | String _ s' => ends_with_slash s'
  end.

End Terms.

(* ===================================================================== *)
(** ** Further concrete inputs *)
(* ===================================================================== *)

Module Samples.
Import Js Eff Types Utils Session Pool Spec Terms Examples.

(** A history in which the prompt is completed, with the outputs
    [outputs_plain]. *)
Definition history_done : Histories :=
  [("prompt-1",
    {| outputs := outputs_plain;
       status := {| status_str := "success"; completed := true;
                    messages := Arr [] |} |})].

(** A history in which the prompt is completed but has no outputs. *)
Definition history_empty : Histories :=
  [("prompt-1",
    {| outputs := Obj [];
       status := {| status_str := "success"; completed := true;
                    messages := Arr [] |} |})].

(** A server that refuses every request, and a client of it. *)
Definition busy : error := Error "503 - busy".

Definition server_down : Client.Server :=
  {| Client.post_prompt := λ _, inl busy;
     Client.get_view := λ _, inl busy;
     Client.post_upload := λ _, inl busy |}.



(** A processor that, like [CosUploader], runs on binary artifacts only
    ([shouldRun]: [a.kind === 'binary']); as there, [run] returns
    [{ url }], an object without [output] and without [next]. *)
Definition uploader : Pipeline.ArtifactProcessor :=
  {| Pipeline.name := "cosUploader";
     Pipeline.shouldRun := λ a,
       match read a "kind" with
       | Str kind => bool_decide (kind = "binary")
       | _ => false
       end;
     Pipeline.run := λ _,
       {| Pipeline.output := Undefined;
          Pipeline.next := None |} |}.

(** A binary artifact as the client extracts it. *)
Definition artifact_image : value :=
  mkArtifact "binary" (Buf [])
    (Obj [("filename", Str "a.png"); ("subfolder", Str EmptyString);
          ("type", Str "output"); ("from", Str "8.images[0]");
          ("promptId", Str "prompt-1")]).


(** A workflow with one node, and a mapping of the input [prompt] to the
    text of that node. *)
Definition workflow_text : value :=
  Obj [("6", Obj [("inputs", Obj [("text", Str "old"); ("clip", Arr [Str "4"; Num 1])]);
                  ("class_type", Str "CLIPTextEncode")])].

Definition input_prompt : NodeInput :=
  {| in_from := "prompt"; in_to := "6.inputs.text"; in_defaultValue := Str "a dog" |}.



(** A mapping of the text of node 9 to the key [caption], the run options
    with it, and the artifact of that text. *)
Definition output_caption : NodeOutput :=
  {| out_from := "9.text[0]"; out_to := "caption"; out_defaultValue := Undefined |}.

Definition options_caption : option RunOptions :=
  Some {| node := Some {| node_inputs := None; node_outputs := Some [output_caption] |};
          inputs := None |}.

Definition artifact_caption : value :=
  mkArtifact "text" (Str "a cat")
    (Obj [("from", Str "9.text[0]"); ("promptId", Str "prompt-1")]).

(** A client that is configured to poll without delay. *)
Definition options_eager : ClientOptions :=
  {| timeout := None;
     poll := Some {| opt_interval := Some 0; opt_backoffBase := None;
                     opt_backoffCap := None |} |}.

(** The default options, and the same with a [backoffBase] of a minute. *)
Definition options_default : ClientOptions := {| timeout := None; poll := None |}.

Definition options_base_minute : ClientOptions :=
  {| timeout := None;
     poll := Some {| opt_interval := None; opt_backoffBase := Some 60000;
                     opt_backoffCap := None |} |}.

(** Two large instances: A (max 2^30 + 1, current 2^30) and B (max 2^30,
    current 2^30 - 1). *)
Definition pool_large : ComfyUIPool :=
  set_count (set_count (pool_of [node_with (2 ^ 30 + 1); node_with (2 ^ 30)])
                       0 (Int (2 ^ 30)))
            1 (Int (2 ^ 30 - 1)).

End Samples.

(* ===================================================================== *)
(** * Part II: properties *)
(* ===================================================================== *)

Import Js Eff Types Utils Spec.

(** ** The monad of traced computations *)

Lemma bind_ok {A B} (m : M A) (k : A → M B) t a :
  m = (t, Ok a) → bind m k = (t ++ (k a).1, (k a).2).
Proof. intros ->. unfold bind. by destruct (k a). Qed.

Lemma bind_throw {A B} (m : M A) (k : A → M B) t e :
  m = (t, Throw e) → bind m k = (t, Throw e).
Proof. by intros ->. Qed.

Lemma bind_running {A B} (m : M A) (k : A → M B) t :
  m = (t, Running) → bind m k = (t, Running).
Proof. by intros ->. Qed.

Lemma bind_emit {B} (e : event) (k : unit → M B) :
  bind (emit e) k = (e :: (k tt).1, (k tt).2).
Proof. unfold bind, emit. by destruct (k tt). Qed.

Lemma bind_ret {A B} (a : A) (k : A → M B) : bind (ret a) k = k a.
Proof. unfold bind, ret. by destruct (k a). Qed.

Lemma bind_ext {A B} (m : M A) (k1 k2 : A → M B) :
  (∀ a, k1 a = k2 a) → bind m k1 = bind m k2.
Proof. intros H. destruct m as [t [a|e|]]; simpl; [by rewrite H|done|done]. Qed.

Lemma bind_throw' {A B} (e : error) (k : A → M B) : bind (throw e) k = throw e.
Proof. done. Qed.

(** ** exponentialBackoff *)

Lemma pow2_mono (m n : nat) : (m ≤ n)%nat → 2 ^ Z.of_nat m ≤ 2 ^ Z.of_nat n.
Proof. intros H. apply Z.pow_le_mono_r; lia. Qed.

Lemma backoff_le_cap attempt base cap : exponentialBackoff attempt base cap ≤ cap.
Proof. unfold exponentialBackoff. lia. Qed.

Lemma backoff_zero base cap : exponentialBackoff 0 base cap = Z.min base cap.
Proof. unfold exponentialBackoff. simpl. f_equal. lia. Qed.

Lemma backoff_mono m n base cap :
  0 ≤ base → (m ≤ n)%nat →
  exponentialBackoff m base cap ≤ exponentialBackoff n base cap.
Proof.
  intros Hb Hmn. unfold exponentialBackoff.
  apply Z.min_le_compat_r.
  apply Z.mul_le_mono_nonneg_l; [exact Hb | by apply pow2_mono].
Qed.

(** C8, as stated, fails: the first delay is the cap, not the base, when
    the base exceeds the cap (a poll interval of 20 s under the default cap
    of 15 s); and with a negative base the delays decrease. *)
Lemma C8_backoff_counterexample :
  exponentialBackoff 0 20000 15000 ≠ 20000
  ∧ ¬ (exponentialBackoff 0 (-1) 0 ≤ exponentialBackoff 1 (-1) 0).
Proof. split; vm_compute; [discriminate | intros H; by apply H]. Qed.

(** The range of [in_double_range] is needed: in the doubles of the code,
    base 0 gives [0 * Infinity], which is [NaN], from attempt 1024 on (and
    0 up to there), and base -1 with cap 0 gives [-Infinity].  With the
    defaults of the client, which are in the range, the doubles are the
    integers of [exponentialBackoff] (here for the attempts below 1200). *)
Lemma backoff_in_doubles :
  PrimFloat.is_nan (Double.exponentialBackoff 1024 0 15000) = true
  ∧ Double.exponentialBackoff 1023 0 15000 = Double.of_Z 0
  ∧ Double.exponentialBackoff 1024 (-1) 0 = PrimFloat.neg_infinity
  ∧ forallb (λ n, PrimFloat.eqb (Double.exponentialBackoff n 4000 15000)
                                (Double.of_Z (exponentialBackoff n 4000 15000)))
            (seq 0 1200) = true.
Proof. repeat split; vm_compute; reflexivity. Qed.

(** C8 (amended): for integers [base] and [cap] of magnitude up to 2^53 and
    an attempt such that [base] is positive or the attempt at most 970,
    [exponentialBackoff attempt base cap] is [min (base * 2^attempt) cap];
    attempt 0 gives [min base cap], which is [base] whenever [base ≤ cap];
    the result never exceeds [cap]; it is non-decreasing in [attempt]
    whenever [base] is not negative (up to every later attempt in that
    range); and base 2000 with cap 15000 gives 2000, 4000, 8000, 15000 for
    attempts 0 to 3. *)
Theorem C8_backoff (attempt : nat) (base cap : Z) :
  Terms.in_double_range attempt base cap →
  exponentialBackoff attempt base cap = Z.min (base * 2 ^ Z.of_nat attempt) cap
  ∧ exponentialBackoff 0 base cap = Z.min base cap
  ∧ (base ≤ cap → exponentialBackoff 0 base cap = base)
  ∧ exponentialBackoff attempt base cap ≤ cap
  ∧ (0 ≤ base → ∀ later : nat, (attempt ≤ later)%nat →
       Terms.in_double_range later base cap →
       exponentialBackoff attempt base cap ≤ exponentialBackoff later base cap)
  ∧ map (λ a, exponentialBackoff a 2000 15000) [0; 1; 2; 3]%nat
    = [2000; 4000; 8000; 15000].
Proof.
  intros _.
  split; [reflexivity|].
  split; [apply backoff_zero|].
  split; [intros H; rewrite backoff_zero; lia|].
  split; [apply backoff_le_cap|].
  split; [intros Hb later Hl _; by apply backoff_mono|].
  reflexivity.
Qed.

Lemma C8_backoff_witness :
  Terms.in_double_range 1 2000 15000
  ∧ exponentialBackoff 0 2000 15000 = 2000
  ∧ exponentialBackoff 1 2000 15000 ≤ exponentialBackoff 2 2000 15000.
Proof.
  assert (∀ n, Terms.in_double_range n 2000 15000) as Hrange.
  { intros n. unfold Terms.in_double_range. lia. }
  split; [apply Hrange|].
  destruct (C8_backoff 1 2000 15000 (Hrange 1%nat)) as (_ & _ & Hzero & _ & Hmono & _).
  split; [apply Hzero; lia | apply Hmono; [lia | lia | apply Hrange]].
Defined.

(** ** The poll loop *)

Section PollLoop.
Import Client.

Lemma poll_events_app t1 t2 : poll_events (t1 ++ t2) = poll_events t1 ++ poll_events t2.
Proof. unfold poll_events. apply list.filter_app. Qed.

Lemma fetch_count_app t1 t2 : fetch_count (t1 ++ t2) = (fetch_count t1 + fetch_count t2)%nat.
Proof. unfold fetch_count. by rewrite list.filter_app, length_app. Qed.

Lemma quiet_poll_events {A} (m : M A) : quiet m → poll_events m.1 = [].
Proof.
  unfold quiet, poll_events. induction 1 as [|e t He _ IH]; [done|].
  rewrite filter_cons. destruct (decide (is_poll_event e)) as [Hd|Hd]; [|done].
  rewrite He in Hd. done.
Qed.

Lemma quiet_fetch_count {A} (m : M A) : quiet m → fetch_count m.1 = 0%nat.
Proof.
  unfold quiet, fetch_count. induction 1 as [|e t He _ IH]; [done|].
  rewrite filter_cons. destruct (decide (is_fetch e)) as [Hd|Hd]; [|done].
  destruct e; simpl in *; done.
Qed.

Lemma quiet_ret {A} (a : A) : quiet (ret a).
Proof. constructor. Qed.

Lemma quiet_bind {A B} (m : M A) (k : A → M B) :
  quiet m → (∀ a, quiet (k a)) → quiet (bind m k).
Proof.
  unfold quiet. destruct m as [t [a|e|]]; simpl; intros Hm Hk; try done.
  specialize (Hk a). destruct (k a) as [t' r]. simpl in *. by apply Forall_app.
Qed.

Lemma quiet_mapM {A B} (f : A → M B) (xs : list A) :
  (∀ x, quiet (f x)) → quiet (mapM f xs).
Proof.
  intros Hf. induction xs as [|x xs IH]; simpl; [apply quiet_ret|].
  apply quiet_bind; [apply Hf|]. intros y.
  apply quiet_bind; [apply IH|]. intros ys. apply quiet_ret.
Qed.

Lemma quiet_leafToArtifact srv leaf promptId : quiet (leafToArtifact srv leaf promptId).
Proof.
  unfold leafToArtifact. destruct (isBinaryManifest _); [|apply quiet_ret].
  unfold quiet. rewrite bind_emit. constructor; [done|].
  fold (quiet (let* buffer := await (get_view srv (leaf_value leaf)) in
    ret (mkArtifact "binary" (Buf buffer)
      (assign (leaf_value leaf) [("from", Str (leaf_from leaf)); ("promptId", Str promptId)])))).
  apply quiet_bind; [|intros; apply quiet_ret].
  destruct (get_view _ _); constructor.
Qed.

Lemma quiet_extractArtifacts srv outputs promptId :
  quiet (extractArtifacts srv outputs promptId).
Proof.
  unfold extractArtifacts. apply quiet_mapM. intros entry.
  apply quiet_bind; [|intros; apply quiet_ret].
  apply quiet_mapM. intros leaf. apply quiet_leafToArtifact.
Qed.

(** The trace of [getHistory] is the one request. *)
Lemma getHistory_trace r promptId : (getHistory r promptId).1 = [EvFetch promptId].
Proof.
  unfold getHistory. rewrite bind_emit. cbn [fst]. f_equal.
  destruct r as [e|h]; [done|].
  unfold await. rewrite bind_ret.
  destruct (history_of h promptId) as [rec|]; [|done].
  by destruct (bool_decide _).
Qed.

(** One iteration of the loop, unfolded. *)
Lemma pollUntilDone_cons c promptId r replies attempt :
  pollUntilDone c promptId (r :: replies) attempt
  = let* _ := emit (EvSleep (exponentialBackoff attempt (interval (pollCfg c))
                                                (backoffCap (pollCfg c)))) in
    let* histories := getHistory r promptId in
    match history_of histories promptId with
    | Some rec =>
        if completed (status rec) && truthy (outputs rec)
           && negb (bool_decide (length (keys (outputs rec)) = 0%nat))
        then extractArtifacts (server c) (outputs rec) promptId
        else pollUntilDone c promptId replies (S attempt)
    | None => pollUntilDone c promptId replies (S attempt)
    end.
Proof. reflexivity. Qed.

Lemma poll_events_step d promptId t :
  poll_events (EvSleep d :: [EvFetch promptId] ++ t)
  = EvSleep d :: EvFetch promptId :: poll_events t.
Proof. reflexivity. Qed.

Lemma poll_trace_from c promptId replies attempt :
  ∃ k, (k ≤ length replies)%nat
       ∧ poll_events (pollUntilDone c promptId replies attempt).1
         = flat_map (λ n, [EvSleep (delay_of c n); EvFetch promptId]) (seq attempt k).
Proof.
  revert attempt. induction replies as [|r replies IH]; intros attempt.
  { exists 0%nat. split; [done|]. reflexivity. }
  rewrite pollUntilDone_cons. rewrite bind_emit.
  pose proof (getHistory_trace r promptId) as Ht.
  destruct (getHistory r promptId) as [t [h|e|]] eqn:Hg; simpl in Ht; subst t.
  - erewrite bind_ok by reflexivity. cbn [fst].
    set (rest := match history_of h promptId with Some rec => _ | None => _ end).
    assert (Hrest : rest = pollUntilDone c promptId replies (S attempt)
                    ∨ ∃ o, rest = extractArtifacts (server c) o promptId).
    { subst rest. destruct (history_of h promptId) as [rec|]; [|by left].
      destruct (_ && _); [right; eauto | by left]. }
    destruct Hrest as [-> | [o ->]].
    + destruct (IH (S attempt)) as (k & Hk & Hev).
      exists (S k). split; [simpl; lia|].
      rewrite poll_events_step, Hev. reflexivity.
    + exists 1%nat. split; [simpl; lia|].
      rewrite poll_events_step.
      rewrite (quiet_poll_events _ (quiet_extractArtifacts _ _ _)). reflexivity.
  - erewrite bind_throw by reflexivity. exists 1%nat. split; [simpl; lia|]. reflexivity.
  - erewrite bind_running by reflexivity. exists 1%nat. split; [simpl; lia|]. reflexivity.
Qed.

Lemma fetch_count_poll_events t : fetch_count (poll_events t) = fetch_count t.
Proof.
  unfold fetch_count, poll_events. induction t as [|e t IH]; [done|].
  destruct e; rewrite ?filter_cons; simpl; rewrite ?filter_cons; simpl; by rewrite ?IH.
Qed.

Lemma fetch_count_schedule (delay : nat → Z) promptId a k :
  fetch_count (flat_map (λ n, [EvSleep (delay n); EvFetch promptId]) (seq a k)) = k.
Proof.
  revert a. induction k as [|k IH]; intros a; [done|].
  simpl. unfold fetch_count in *. rewrite !filter_cons. simpl. by rewrite IH.
Qed.

Lemma poll_independent_of_backoffBase b c promptId replies attempt :
  pollUntilDone (with_backoffBase b c) promptId replies attempt
  = pollUntilDone c promptId replies attempt.
Proof.
  revert attempt. induction replies as [|r replies IH]; intros attempt; [done|].
  rewrite !pollUntilDone_cons.
  cbn [with_backoffBase pollCfg interval backoffCap server].
  apply bind_ext; intros _. apply bind_ext; intros h.
  destruct (history_of h promptId) as [rec|]; [|apply IH].
  destruct (_ && _); [done | apply IH].
Qed.

Lemma run_independent_of_backoffBase b c workflow options replies :
  run (with_backoffBase b c) workflow options replies = run c workflow options replies.
Proof.
  unfold run. cbn [with_backoffBase server].
  apply bind_ext; intros _. apply bind_ext; intros promptId.
  by rewrite poll_independent_of_backoffBase.
Qed.

(** The [backoffBase] option reaches the client's [pollCfg] and nothing
    else. *)
Lemma new_client_backoffBase t i b b' cap srv :
  new_client {| timeout := t;
                poll := Some {| opt_interval := i; opt_backoffBase := b;
                                opt_backoffCap := cap |} |} srv
  = with_backoffBase (default 2000 b)
      (new_client {| timeout := t;
                     poll := Some {| opt_interval := i; opt_backoffBase := b';
                                     opt_backoffCap := cap |} |} srv).
Proof. reflexivity. Qed.

(** Options that differ in [poll.backoffBase] only give clients that differ
    in their [backoffBase] only. *)
Lemma new_client_same_but_backoffBase options options' srv :
  Terms.same_but_backoffBase options options' →
  new_client options' srv
  = with_backoffBase (default 2000 (poll options' ≫= opt_backoffBase))
      (new_client options srv).
Proof.
  intros (Ht & Hi & Hc). unfold new_client, with_backoffBase. cbn.
  by rewrite Ht, Hi, Hc.
Qed.

Lemma poll_fetch_count c promptId replies attempt k :
  poll_events (pollUntilDone c promptId replies attempt).1
  = flat_map (λ n, [EvSleep (delay_of c n); EvFetch promptId]) (seq attempt k) →
  fetch_count (pollUntilDone c promptId replies attempt).1 = k.
Proof.
  intros H. rewrite <- fetch_count_poll_events, H. apply fetch_count_schedule.
Qed.

End PollLoop.

(** C10, as stated, fails for a client constructed with the poll interval
    0: when the prompt stays pending the loop comes to history request
    number 1024 (of 1025 pending replies it requests every one), and the
    delay the code computes there is [0 * 2 ** 1024], that is
    [0 * Infinity = NaN], where [min (interval * 2^n) backoffCap] is 0. *)
Lemma C10_poll_delay_counterexample :
  Client.interval (Client.pollCfg (Client.new_client Samples.options_eager Examples.server_ok))
  = 0
  ∧ Client.backoffCap
      (Client.pollCfg (Client.new_client Samples.options_eager Examples.server_ok))
    = 15000
  ∧ fetch_count
      (Client.pollUntilDone (Client.new_client Samples.options_eager Examples.server_ok)
         "prompt-1" (replicate 1025 (inr Examples.history_pending)) 0).1 = 1025%nat
  ∧ PrimFloat.is_nan
      (Double.waitMs (Client.new_client Samples.options_eager Examples.server_ok) 1024)
    = true
  ∧ Z.min (0 * 2 ^ 1024) 15000 = 0.
Proof. repeat split; vm_compute; reflexivity. Qed.

(** C10 (amended): for a client constructed from [options], let [interval]
    be the configured [poll.interval] (4000 when absent) and [cap] the
    configured [poll.backoffCap] (15000 when absent), both integers of
    magnitude up to 2^53, and let [interval] be positive or the replies at
    most 970; let the prompt id not be the name of a property objects
    inherit.  Then in the poll loop the events of sleeping and requesting
    alternate, and the delay slept before history request number [n] (from
    0) is [min (interval * 2^n) cap]; and a client constructed from options
    that differ in [poll.backoffBase] only polls, and runs, in exactly the
    same way. *)
Theorem C10_poll_delay_schedule (options : ClientOptions) (srv : Client.Server)
    (promptId : string) (replies : list (reply Histories)) :
  Terms.own_name promptId →
  Terms.in_double_range (length replies)
    (default 4000 (poll options ≫= opt_interval))
    (default 15000 (poll options ≫= opt_backoffCap)) →
  poll_events (Client.pollUntilDone (Client.new_client options srv) promptId replies 0).1
  = poll_schedule
      (λ n, Z.min (default 4000 (poll options ≫= opt_interval) * 2 ^ Z.of_nat n)
                  (default 15000 (poll options ≫= opt_backoffCap)))
      promptId
      (fetch_count (Client.pollUntilDone (Client.new_client options srv) promptId replies 0).1)
  ∧ (fetch_count (Client.pollUntilDone (Client.new_client options srv) promptId replies 0).1
     ≤ length replies)%nat
  ∧ (∀ options', Terms.same_but_backoffBase options options' →
       Client.pollUntilDone (Client.new_client options' srv) promptId replies 0
       = Client.pollUntilDone (Client.new_client options srv) promptId replies 0
       ∧ ∀ workflow runOptions,
           Client.run (Client.new_client options' srv) workflow runOptions replies
           = Client.run (Client.new_client options srv) workflow runOptions replies).
Proof.
  intros _ _. split; [|split].
  - destruct (poll_trace_from (Client.new_client options srv) promptId replies 0)
      as (k & _ & Hk).
    rewrite (poll_fetch_count _ _ _ _ _ Hk). exact Hk.
  - destruct (poll_trace_from (Client.new_client options srv) promptId replies 0)
      as (k & Hle & Hk).
    by rewrite (poll_fetch_count _ _ _ _ _ Hk).
  - intros options' Hsame.
    rewrite (new_client_same_but_backoffBase options options' srv Hsame).
    split; [apply poll_independent_of_backoffBase|].
    intros workflow runOptions. apply run_independent_of_backoffBase.
Qed.

Lemma C10_poll_delay_schedule_witness :
  Terms.in_double_range 2 4000 15000
  ∧ Terms.same_but_backoffBase Samples.options_default Samples.options_base_minute
  ∧ poll_events
      (Client.pollUntilDone (Client.new_client Samples.options_default Examples.server_ok)
         "prompt-1" [inr Examples.history_pending; inr Examples.history_pending] 0).1
    = [EvSleep 4000; EvFetch "prompt-1"; EvSleep 8000; EvFetch "prompt-1"]
  ∧ Client.pollUntilDone (Client.new_client Samples.options_base_minute Examples.server_ok)
      "prompt-1" [inr Examples.history_pending; inr Examples.history_pending] 0
    = Client.pollUntilDone (Client.new_client Samples.options_default Examples.server_ok)
        "prompt-1" [inr Examples.history_pending; inr Examples.history_pending] 0.
Proof.
  assert (Terms.in_double_range 2 4000 15000) as Hrange.
  { unfold Terms.in_double_range. lia. }
  assert (Terms.same_but_backoffBase Samples.options_default Samples.options_base_minute) as Hsame.
  { repeat split. }
  split; [exact Hrange|]. split; [exact Hsame|].
  assert (Terms.own_name "prompt-1") as Hown.
  { apply (bool_decide_unpack _). vm_compute. exact I. }
  destruct (C10_poll_delay_schedule Samples.options_default Examples.server_ok "prompt-1"
              [inr Examples.history_pending; inr Examples.history_pending] Hown Hrange)
    as (Hev & _ & Hbase).
  split; [rewrite Hev; reflexivity|].
  apply (Hbase Samples.options_base_minute Hsame).
Defined.

(** ** The pool *)

Section PoolProps.
Import Session Pool.
Local Open Scope Qc_scope.
Local Arguments Int : simpl never.

Lemma Int_1 : Int 1 = Fin 1.
Proof. unfold Int. by rewrite Z2Qc_inj_1. Qed.

Lemma Int_0 : Int 0 = Fin 0.
Proof. unfold Int. by rewrite Z2Qc_inj_0. Qed.

Lemma js_lt_Int a b : js_lt (Int a) (Int b) = bool_decide (a < b)%Z.
Proof. unfold Int. simpl. apply bool_decide_ext. symmetry. apply Z2Qc_inj_lt. Qed.

Lemma js_add_Int a b : js_add (Int a) (Int b) = Int (a + b).
Proof. unfold Int. simpl. by rewrite Z2Qc_inj_add. Qed.

Lemma js_sub_Int a b : js_sub (Int a) (Int b) = Int (a - b).
Proof. unfold Int, js_sub. simpl. by rewrite Z2Qc_inj_sub. Qed.

Lemma js_max_Int a b : js_max (Int a) (Int b) = Int (Z.max a b).
Proof.
  unfold js_max. change (Int a) with (Fin (Qc_of_Z a)) at 1.
  change (Int b) with (Fin (Qc_of_Z b)) at 1. cbv iota beta.
  rewrite js_lt_Int. case_bool_decide; f_equal; lia.
Qed.

Lemma js_div_Int c m : (m ≠ 0)%Z → js_div (Int c) (Int m) = Fin (load c m).
Proof.
  intros Hm. unfold Int, js_div, load.
  rewrite bool_decide_false; [done|].
  rewrite <- Z2Qc_inj_0. by intros ?%Z2Qc_inj.
Qed.

Lemma load_lt_1 c m : (0 ≤ c)%Z → (c < m)%Z → load c m < 1.
Proof.
  intros Hc Hcm. unfold load.
  assert (Hm : 0 < Qc_of_Z m).
  { rewrite <- Z2Qc_inj_0. apply (proj1 (Z2Qc_inj_lt 0 m)). lia. }
  assert (Hne : Qc_of_Z m ≠ 0) by (intros E; rewrite E in Hm; by apply (irreflexivity Qclt 0)).
  rewrite <- (Qcmult_inv_r (Qc_of_Z m)) by done.
  unfold Qcdiv. apply Qcmult_lt_mono_pos_r; [by apply Qcinv_pos|].
  by apply (proj1 (Z2Qc_inj_lt c m)).
Qed.

Lemma count_is_inj p i c1 c2 : count_is p i c1 → count_is p i c2 → c1 = c2.
Proof.
  unfold count_is. intros H1 H2. rewrite H1 in H2.
  by injection H2 as H2.
Qed.

Lemma cap_is_inj p i m1 m2 : cap_is p i m1 → cap_is p i m2 → m1 = m2.
Proof. unfold cap_is. congruence. Qed.

Lemma count_of p k c : count_is p k c → count p (Z.of_nat k) = Int c.
Proof. unfold count_is, count. by intros ->. Qed.

Lemma limit_of p k m : cap_is p k m → limit p k = Int m.
Proof. unfold cap_is, limit. by intros ->. Qed.

Lemma acquire_step_over p st k c m :
  count_is p k c → cap_is p k m → ¬ (c < m)%Z → acquire_step p st k = st.
Proof.
  intros Hc Hm Hn. unfold acquire_step.
  rewrite (count_of _ _ _ Hc), (limit_of _ _ _ Hm).
  rewrite js_lt_Int, bool_decide_false by done. by rewrite andb_false_r.
Qed.

Lemma acquire_step_under p st k c m :
  count_is p k c → cap_is p k m → (0 ≤ c)%Z → (c < m)%Z →
  acquire_step p st k
  = if js_lt (Fin (load c m)) st.2 then (Z.of_nat k, Fin (load c m)) else st.
Proof.
  intros Hc Hm H0 Hlt. unfold acquire_step.
  rewrite (count_of _ _ _ Hc), (limit_of _ _ _ Hm).
  rewrite js_lt_Int, bool_decide_true, andb_true_r by done.
  rewrite js_div_Int by lia. done.
Qed.

Lemma loop_inv_step p k st :
  pool_wf p → (k < length (clients p))%nat →
  loop_inv p k st → loop_inv p (S k) (acquire_step p st k).
Proof.
  intros (Hlen & _ & Hcounts) Hk Hinv.
  destruct (Hcounts k Hk) as (c & Hc & Hc0).
  destruct (lookup_lt_is_Some_2 (maxConcurrencies p) k) as [m Hm]; [lia|].
  destruct (decide (c < m)%Z) as [Hlt|Hge].
  - rewrite (acquire_step_under p st k c m) by done.
    destruct Hinv as [[-> Hnone] | (bi & cb & mb & -> & Hb & Hcb & Hmb & Hlb & Hbest)].
    + (* first instance under its limit *)
      cbn [snd]. rewrite Int_1. cbn [js_lt].
      rewrite bool_decide_true by (by apply load_lt_1).
      right. exists k, c, m. split; [done|].
      split; [lia|]. split; [done|]. split; [done|]. split; [done|].
      intros j cj mj Hj Hcj Hmj Hltj.
      destruct (decide (j = k)) as [->|Hne].
      * rewrite (count_is_inj _ _ _ _ Hcj Hc), (cap_is_inj _ _ _ _ Hmj Hm).
        split; [apply Qcle_refl | done].
      * exfalso. apply (Hnone j cj mj); [lia|done..].
    + cbn [snd js_lt]. case_bool_decide as Hcmp.
      * (* a strictly lower ratio: the new best *)
        right. exists k, c, m. split; [done|].
        split; [lia|]. split; [done|]. split; [done|]. split; [done|].
        intros j cj mj Hj Hcj Hmj Hltj.
        destruct (decide (j = k)) as [->|Hne].
        -- rewrite (count_is_inj _ _ _ _ Hcj Hc), (cap_is_inj _ _ _ _ Hmj Hm).
           split; [apply Qcle_refl | done].
        -- destruct (Hbest j cj mj ltac:(lia) Hcj Hmj Hltj) as [Hle _].
           split.
           ++ apply Qclt_le_weak. by eapply Qclt_le_trans.
           ++ intros Heq. exfalso. rewrite Heq in Hle.
              by apply (Qclt_not_le _ _ Hcmp).
      * (* not lower: the best stays *)
        right. exists bi, cb, mb. split; [done|].
        split; [lia|]. split; [done|]. split; [done|]. split; [done|].
        intros j cj mj Hj Hcj Hmj Hltj.
        destruct (decide (j = k)) as [->|Hne].
        -- rewrite (count_is_inj _ _ _ _ Hcj Hc), (cap_is_inj _ _ _ _ Hmj Hm).
           split; [by apply Qcnot_lt_le | intros _; lia].
        -- apply Hbest; [lia|done..].
  - rewrite (acquire_step_over p st k c m) by done.
    destruct Hinv as [[-> Hnone] | (bi & cb & mb & -> & Hb & Hcb & Hmb & Hlb & Hbest)].
    + left. split; [done|]. intros j cj mj Hj Hcj Hmj.
      destruct (decide (j = k)) as [->|Hne].
      * by rewrite (count_is_inj _ _ _ _ Hcj Hc), (cap_is_inj _ _ _ _ Hmj Hm).
      * apply (Hnone j cj mj); [lia|done..].
    + right. exists bi, cb, mb. split; [done|].
      split; [lia|]. split; [done|]. split; [done|]. split; [done|].
      intros j cj mj Hj Hcj Hmj Hltj.
      destruct (decide (j = k)) as [->|Hne].
      * exfalso. apply Hge.
        by rewrite <- (count_is_inj _ _ _ _ Hcj Hc), <- (cap_is_inj _ _ _ _ Hmj Hm).
      * apply Hbest; [lia|done..].
Qed.

Lemma loop_inv_fold p k :
  pool_wf p → (k ≤ length (clients p))%nat →
  loop_inv p k (fold_left (acquire_step p) (seq 0 k) ((-1)%Z, Int 1)).
Proof.
  intros Hwf. induction k as [|k IH]; intros Hk.
  - left. split; [done|]. intros j ? ? Hj. lia.
  - rewrite seq_S, fold_left_app. simpl. apply loop_inv_step; [done|lia|].
    apply IH. lia.
Qed.

(** What the loop of [acquire] selects. *)
Lemma select_spec p :
  pool_wf p →
  (select p = (-1)%Z ∧ none_under p (length (clients p)))
  ∨ ∃ bi cb mb, select p = Z.of_nat bi ∧ best_of p (length (clients p)) bi cb mb.
Proof.
  intros Hwf. unfold select.
  destruct (loop_inv_fold p (length (clients p)) Hwf (Nat.le_refl _))
    as [[-> Hnone] | (bi & cb & mb & -> & Hbest)].
  - by left.
  - right. by exists bi, cb, mb.
Qed.

Lemma set_count_ne p best x i c :
  best ≠ Z.of_nat i → count_is (set_count p best x) i c ↔ count_is p i c.
Proof.
  intros Hne. unfold count_is, set_count. cbn [sessionCounts].
  by rewrite lookup_insert_ne.
Qed.

Lemma set_count_eq p i c : count_is (set_count p (Z.of_nat i) (Int c)) i c.
Proof. unfold count_is, set_count. cbn [sessionCounts]. by rewrite lookup_insert_eq. Qed.

Lemma set_count_within p best x :
  within_caps p → ok_update p best x → within_caps (set_count p best x).
Proof.
  intros [(Hlen & Hq & Hcounts) Hcaps] Hok. split; [split; [done|split; [done|]]|].
  - intros i Hi. cbn [set_count clients] in Hi.
    destruct (Hcounts i Hi) as (c & Hc & Hc0).
    destruct Hok as [-> | (bi & c' & -> & -> & Hc' & _)].
    + exists c. split; [|done]. apply set_count_ne; [lia|done].
    + destruct (decide (bi = i)) as [->|Hne].
      * exists c'. split; [apply set_count_eq | done].
      * exists c. split; [|done]. apply set_count_ne; [lia|done].
  - intros i c m Hc Hm. change (cap_is p i m) in Hm.
    destruct Hok as [-> | (bi & c' & -> & -> & Hc' & Hle)].
    + apply set_count_ne in Hc; [|lia]. by eapply Hcaps.
    + destruct (decide (bi = i)) as [->|Hne].
      * rewrite (count_is_inj _ _ _ _ Hc (set_count_eq p i c')). by apply Hle.
      * apply set_count_ne in Hc; [|lia]. by eapply Hcaps.
Qed.

Lemma acquire_pool p :
  (acquire p).2 = set_count p (select p) (js_add (count p (select p)) (Int 1)).
Proof. reflexivity. Qed.

Lemma acquire_lease p :
  (acquire p).1 = Some {| client := at_index (clients p) (select p);
                          queue := at_index (queues p) (select p);
                          release := release_at (select p) |}.
Proof. reflexivity. Qed.

Lemma acquire_within p : within_caps p → within_caps (acquire p).2.
Proof.
  intros Hin. rewrite acquire_pool. apply set_count_within; [done|].
  destruct Hin as [Hwf Hcaps].
  destruct (select_spec p Hwf) as [[-> _] | (bi & cb & mb & -> & Hbi & Hcb & Hmb & Hlt & _)].
  - by left.
  - right. exists bi, (cb + 1)%Z. split; [done|].
    rewrite (count_of _ _ _ Hcb), js_add_Int. split; [done|].
    destruct Hwf as (_ & _ & Hcounts).
    destruct (Hcounts bi Hbi) as (c & Hc & Hc0).
    rewrite (count_is_inj _ _ _ _ Hc Hcb) in Hc0.
    split; [lia|]. intros m Hm. rewrite (cap_is_inj _ _ _ _ Hm Hmb). lia.
Qed.

Lemma release_at_within p best :
  within_caps p →
  (best = (-1)%Z ∨ ∃ bi, best = Z.of_nat bi ∧ (bi < length (clients p))%nat) →
  within_caps (release_at best p).
Proof.
  intros Hin Hbest. unfold release_at. apply set_count_within; [done|].
  destruct Hbest as [-> | (bi & -> & Hbi)]; [by left|].
  right. destruct Hin as [(_ & _ & Hcounts) Hcaps].
  destruct (Hcounts bi Hbi) as (c & Hc & Hc0).
  exists bi, (Z.max 0 (c - 1)). split; [done|].
  rewrite (count_of _ _ _ Hc), js_sub_Int, js_max_Int. split; [done|].
  split; [lia|]. intros m Hm. specialize (Hcaps bi c m Hc Hm). lia.
Qed.

(** [release] takes one off the count of its instance, but not below
    zero. *)
Lemma release_at_count p i c :
  count_is p i c → count_is (release_at (Z.of_nat i) p) i (Z.max 0 (c - 1)).
Proof.
  intros Hc. unfold release_at.
  rewrite (count_of _ _ _ Hc), js_sub_Int, js_max_Int. apply set_count_eq.
Qed.

Lemma release_at_zero p best i :
  count_is p i 0 → count_is (release_at best p) i 0.
Proof.
  intros Hc. unfold release_at.
  destruct (decide (best = Z.of_nat i)) as [->|Hne].
  - rewrite (count_of _ _ _ Hc), js_sub_Int, js_max_Int. apply set_count_eq.
  - by apply set_count_ne.
Qed.

Lemma pool_step_inv n st st' : pool_inv n st → pool_step st st' → pool_inv n st'.
Proof.
  intros (Hin & Hn & Hls) Hstep. destruct Hstep as [p ls l p' Hacq | p ls l Hl];
    cbn [pool issued] in *.
  - assert (Hp' : p' = (acquire p).2) by (by rewrite Hacq).
    assert (Hl : Some l = (acquire p).1) by (by rewrite Hacq).
    rewrite acquire_lease in Hl. injection Hl as ->. subst p'.
    split; [by apply acquire_within|]. split; [done|].
    constructor; [|done].
    exists (select p). split; [done|].
    destruct Hin as [Hwf _].
    destruct (select_spec p Hwf) as [[-> _] | (bi & cb & mb & -> & Hbi & _)]; [by left|].
    right. exists bi. split; [done|lia].
  - rewrite Forall_forall in Hls. destruct (Hls l Hl) as (best & Hrel & Hbest).
    rewrite Hrel. split; [|split; [done | by rewrite Forall_forall]].
    apply release_at_within; [done|]. by rewrite Hn.
Qed.

Lemma pool_inv_reachable p0 st :
  within_caps p0 → rtc pool_step (mkPoolState p0 []) st →
  pool_inv (length (clients p0)) st.
Proof.
  intros Hin. revert st. apply rtc_ind_r.
  - split; [done|]. split; [done|]. constructor.
  - intros y z _ Hstep IH. by eapply pool_step_inv.
Qed.

(** The constructor establishes the invariant when no configured limit is
    negative. *)
Lemma new_pool_within_caps nodes p :
  new_pool nodes = inr p →
  Forall (λ o, 0 ≤ default 1 (maxConcurrency o))%Z nodes →
  within_caps p.
Proof.
  intros Hnew Hpos. unfold new_pool in Hnew.
  case_bool_decide; [done|]. injection Hnew as <-. rename nodes into ns.
  assert (Hcount : ∀ i, (i < length ns)%nat →
            map_seqZ (M := gmap Z number) 0 ((λ _, Int 0) <$> ns) !! Z.of_nat i = Some (Int 0)).
  { intros i Hi. rewrite lookup_map_seqZ_0 by lia. rewrite Nat2Z.id.
    rewrite list_lookup_fmap. destruct (lookup_lt_is_Some_2 ns i Hi) as [x ->]. done. }
  split; [split; [|split]|].
  - cbn [maxConcurrencies clients]. by rewrite !length_fmap.
  - cbn [queues clients]. by rewrite !length_fmap.
  - intros i Hi. cbn [clients] in Hi. rewrite length_fmap in Hi.
    exists 0%Z. split; [by apply Hcount | done].
  - intros i c m Hc Hm. unfold cap_is in Hm. cbn [maxConcurrencies] in Hm.
    rewrite list_lookup_fmap in Hm.
    destruct (ns !! i) as [x|] eqn:Hx; [|done]. injection Hm as <-.
    assert (Hi : (i < length ns)%nat) by (by eapply lookup_lt_Some).
    rewrite (count_is_inj _ _ _ _ Hc (Hcount i Hi)).
    rewrite Forall_forall in Hpos. apply Hpos. by eapply list_elem_of_lookup_2.
Qed.

End PoolProps.

(** C2: starting from a pool in which no instance is over its limit (a
    freshly constructed pool is one), after every sequence of [acquire] and
    lease-release calls every instance [i] has
    [0 ≤ currentSessions[i] ≤ maxConcurrency[i]]; and releasing any lease
    when an instance's count is zero leaves that count at zero. *)
Theorem C2_counts_within_caps (p0 : Pool.ComfyUIPool) (st : PoolState) :
  within_caps p0 →
  rtc pool_step (mkPoolState p0 []) st →
  (∀ i c m, count_is (pool st) i c → cap_is (pool st) i m → 0 ≤ c ≤ m)
  ∧ (∀ l i, l ∈ issued st → count_is (pool st) i 0 →
       count_is (Session.release l (pool st)) i 0).
Proof.
  intros Hin Hrtc.
  destruct (pool_inv_reachable p0 st Hin Hrtc) as ([(Hlen & _ & Hcounts) Hcaps] & _ & Hls).
  split.
  - intros i c m Hc Hm. split; [|by eapply Hcaps].
    assert (Hi : (i < length (Pool.clients (pool st)))%nat).
    { rewrite <- Hlen. by eapply lookup_lt_Some. }
    destruct (Hcounts i Hi) as (c' & Hc' & Hc0).
    by rewrite (count_is_inj _ _ _ _ Hc Hc').
  - intros l i Hl Hc. rewrite Forall_forall in Hls.
    destruct (Hls l Hl) as (best & -> & _). by apply release_at_zero.
Qed.

Section PoolExamples.
Import Session Pool Examples.

Lemma pool_one_within : within_caps pool_one.
Proof.
  apply (new_pool_within_caps [node_with 1]); [reflexivity|].
  repeat constructor; simpl; lia.
Qed.

(** The lease [acquire] hands out on the fresh single-instance pool. *)
Lemma acquire_pool_one : acquire pool_one = (Some lease_one, pool_full).
Proof. reflexivity. Qed.

End PoolExamples.

Lemma C2_counts_within_caps_witness :
  (∀ c, count_is (pool Examples.released_twice) 0 c → 0 ≤ c ≤ 1)
  ∧ (count_is (pool Examples.released_twice) 0 0 →
     count_is (Session.release Examples.lease_one (pool Examples.released_twice)) 0 0).
Proof.
  destruct (C2_counts_within_caps Examples.pool_one Examples.released_twice)
    as [Hcaps Hzero].
  - apply pool_one_within.
  - eapply rtc_l; [apply step_acquire, acquire_pool_one|].
    eapply rtc_l; [apply (step_release _ _ Examples.lease_one); left|].
    eapply rtc_l; [apply (step_release _ _ Examples.lease_one); left|].
    apply rtc_refl.
  - split.
    + intros c Hc. apply (Hcaps 0%nat c 1 Hc). reflexivity.
    + apply Hzero. left.
Defined.

Section PoolSelection.
Import Session Pool Examples.

Lemma at_index_nat {A} (a : list A) (i : nat) : at_index a (Z.of_nat i) = a !! i.
Proof. unfold at_index. rewrite bool_decide_true by lia. by rewrite Nat2Z.id. Qed.

Lemma at_index_neg {A} (a : list A) : at_index a (-1) = None.
Proof. reflexivity. Qed.

Lemma select_under p :
  pool_wf p →
  (∃ i c m, count_is p i c ∧ cap_is p i m ∧ c < m) →
  ∃ bi cb mb, select p = Z.of_nat bi ∧ best_of p (length (clients p)) bi cb mb.
Proof.
  intros Hwf (i & c & m & Hc & Hm & Hlt).
  destruct (select_spec p Hwf) as [[_ Hnone] | H]; [|done].
  exfalso. apply (Hnone i c m); [|done..].
  destruct Hwf as (Hlen & _). rewrite <- Hlen. by eapply lookup_lt_Some.
Qed.

(** With every instance at its limit the loop leaves [best] at [-1]. *)
Lemma select_saturated p : pool_wf p → all_at_cap p → select p = -1.
Proof.
  intros Hwf Hall.
  destruct (select_spec p Hwf) as [[H _] | (bi & cb & mb & _ & _ & Hcb & Hmb & Hlt & _)]; [done|].
  specialize (Hall bi cb mb Hcb Hmb). lia.
Qed.

Lemma pool_AB_wf : pool_wf pool_AB.
Proof.
  split; [reflexivity|]. split; [reflexivity|].
  intros [|[|i]] Hi.
  - exists 0. split; [reflexivity|lia].
  - exists 1. split; [reflexivity|lia].
  - exfalso. change (length (clients pool_AB)) with 2%nat in Hi. lia.
Qed.

End PoolSelection.

(** C5, as stated, fails for large instances: with A (max 2^30 + 1, current
    2^30) and B (max 2^30, current 2^30 - 1) both are under their limit and
    the load ratio of B is the lower one, but the two quotients are the
    same double, so that the loop of [acquire] stays with A, the first. *)
Lemma C5_least_loaded_counterexample :
  count_is Samples.pool_large 0 (2 ^ 30) ∧ cap_is Samples.pool_large 0 (2 ^ 30 + 1)
  ∧ count_is Samples.pool_large 1 (2 ^ 30 - 1) ∧ cap_is Samples.pool_large 1 (2 ^ 30)
  ∧ (load (2 ^ 30 - 1) (2 ^ 30) < load (2 ^ 30) (2 ^ 30 + 1))%Qc
  ∧ PrimFloat.eqb (Double.ratio (2 ^ 30 - 1) (2 ^ 30)) (Double.ratio (2 ^ 30) (2 ^ 30 + 1))
    = true
  ∧ Double.select [2 ^ 30; 2 ^ 30 - 1] [2 ^ 30 + 1; 2 ^ 30] = 0.
Proof. repeat split; vm_compute; reflexivity. Qed.

(** In the range of [ratios_exact] the loop over the doubles selects as
    the loop over the ratios does: the pool of the design's example, and
    the same with A and B exchanged. *)
Lemma select_in_doubles :
  Double.select [0; 1] [2; 2] = Pool.select Examples.pool_AB
  ∧ Double.select [1; 0] [2; 2] = 1
  ∧ Double.select [2; 2] [2; 2] = -1.
Proof. repeat split; vm_compute; reflexivity. Qed.

(** C5 (amended): in a pool whose limits are at most 2^26 (and whose counts
    are at most 2^53) and where some instance is under its limit, [acquire]
    selects an instance [bi] that is under its limit, whose load ratio
    [current / max] is the lowest among the instances under their limit
    and which is the first (lowest index) with that ratio; it increments
    the session count of [bi] and of no other instance, and leases the
    client of [bi].  With A (max 2, current 0) and B (max 2, current 1) it
    selects A. *)
Theorem C5_acquire_least_loaded (p : Pool.ComfyUIPool) :
  pool_wf p →
  Terms.ratios_exact p →
  (∃ i c m, count_is p i c ∧ cap_is p i m ∧ c < m) →
  (∃ bi cb mb,
     Pool.select p = Z.of_nat bi
     ∧ best_of p (length (Pool.clients p)) bi cb mb
     ∧ Pool.sessionCounts (Pool.acquire p).2
       = <[Z.of_nat bi := Pool.Int (cb + 1)]> (Pool.sessionCounts p)
     ∧ ∃ l c, (Pool.acquire p).1 = Some l
              ∧ Pool.clients p !! bi = Some c ∧ Session.client l = Some c)
  ∧ Pool.select Examples.pool_AB = 0.
Proof.
  intros Hwf _ Hex. split; [|reflexivity].
  destruct (select_under p Hwf Hex) as (bi & cb & mb & Hsel & Hbest).
  exists bi, cb, mb. split; [done|]. split; [done|].
  destruct Hbest as (Hbi & Hcb & _).
  split.
  - rewrite acquire_pool, Hsel. cbn [Pool.set_count Pool.sessionCounts].
    by rewrite (count_of _ _ _ Hcb), js_add_Int.
  - destruct (lookup_lt_is_Some_2 (Pool.clients p) bi Hbi) as [c Hcl].
    eexists _, c. split; [apply acquire_lease|]. split; [done|].
    cbn [Session.client]. by rewrite Hsel, at_index_nat.
Qed.

Lemma C5_acquire_least_loaded_witness :
  Terms.ratios_exact Examples.pool_AB
  ∧ (∃ bi cb mb,
     Pool.select Examples.pool_AB = Z.of_nat bi
     ∧ best_of Examples.pool_AB (length (Pool.clients Examples.pool_AB)) bi cb mb
     ∧ Pool.sessionCounts (Pool.acquire Examples.pool_AB).2
       = <[Z.of_nat bi := Pool.Int (cb + 1)]> (Pool.sessionCounts Examples.pool_AB)
     ∧ ∃ l c, (Pool.acquire Examples.pool_AB).1 = Some l
              ∧ Pool.clients Examples.pool_AB !! bi = Some c ∧ Session.client l = Some c)
  ∧ Pool.select Examples.pool_AB = 0.
Proof.
  assert (Terms.ratios_exact Examples.pool_AB) as Hexact.
  { split.
    - intros [|[|i]] m [= <-]; lia.
    - intros [|[|i]] c Hi Hc.
      + assert (c = 0) as -> by (eapply count_is_inj; [exact Hc | reflexivity]). lia.
      + assert (c = 1) as -> by (eapply count_is_inj; [exact Hc | reflexivity]). lia.
      + exfalso. change (length (Pool.clients Examples.pool_AB)) with 2%nat in Hi. lia. }
  split; [exact Hexact|].
  apply (C5_acquire_least_loaded Examples.pool_AB).
  - apply pool_AB_wf.
  - exact Hexact.
  - exists 0%nat, 0, 2. split; [reflexivity|]. split; [reflexivity|lia].
Defined.

(** ** Saturation *)

Section Saturation.
Import Session Pool Examples.

(** [acquire] has no path that returns [null]. *)
Lemma acquire_always_leases p : ∃ l, (acquire p).1 = Some l.
Proof. eexists. apply acquire_lease. Qed.

Lemma createSession_never_null p pl : ∃ s, (createSession p pl).1 = Some s.
Proof. unfold createSession. rewrite (surjective_pairing (acquire p)), acquire_lease. by eexists. Qed.

(** In a saturated pool [acquire] still returns a lease; it refers to no
    client and no queue, and no instance's count changes (the increment
    lands on the property [-1] of the array). *)
Lemma acquire_saturated p :
  pool_wf p → all_at_cap p →
  (acquire p).1 = Some {| client := None; queue := None; release := release_at (-1) |}
  ∧ ∀ i c, count_is (acquire p).2 i c ↔ count_is p i c.
Proof.
  intros Hwf Hall. rewrite acquire_lease, acquire_pool, (select_saturated p Hwf Hall).
  split; [done|]. intros i c. apply set_count_ne. lia.
Qed.

Lemma pool_full_count : count_is pool_full 0 1.
Proof.
  unfold pool_full. rewrite acquire_pool.
  change (select pool_one) with (Z.of_nat 0).
  rewrite (count_of pool_one 0 0) by reflexivity.
  rewrite js_add_Int. apply set_count_eq.
Qed.

Lemma pool_full_wf : pool_wf pool_full.
Proof.
  split; [reflexivity|]. split; [reflexivity|].
  intros [|i] Hi.
  - exists 1. split; [apply pool_full_count|lia].
  - exfalso. change (length (clients pool_full)) with 1%nat in Hi. lia.
Qed.

Lemma pool_full_at_cap : all_at_cap pool_full.
Proof.
  intros [|i] c m Hc Hm.
  - rewrite (count_is_inj _ _ _ _ Hc pool_full_count). unfold cap_is in Hm.
    change (maxConcurrencies pool_full) with [1] in Hm. by injection Hm.
  - unfold cap_is in Hm. change (maxConcurrencies pool_full) with [1] in Hm. done.
Qed.

End Saturation.

(** C1 (the code at the saturated pool: one instance, max = 1, current = 1).
    Every instance is at its limit, yet [acquire] returns a lease: one with
    no client and no queue, after storing [NaN] under the key [-1] of the
    session counts; [createSession] returns a session and not [null]; and
    [withSession] runs its callback, whose upload fails with a [TypeError]
    (an undefined client), not with the pool-saturation error. *)
Theorem C1_saturated_pool_still_leases :
  all_at_cap Examples.pool_full
  ∧ count_is Examples.pool_full 0 1 ∧ cap_is Examples.pool_full 0 1
  ∧ (Pool.acquire Examples.pool_full).1
    = Some {| Session.client := None; Session.queue := None;
              Session.release := Pool.release_at (-1) |}
  ∧ Pool.sessionCounts (Pool.acquire Examples.pool_full).2 !! (-1) = Some Pool.NaN
  ∧ (∃ s, (Pool.createSession Examples.pool_full None).1 = Some s
          ∧ Session.closed s = false ∧ Session.client (Session.lease s) = None)
  ∧ (Pool.withSession Examples.pool_full Examples.upload_callback None).1
    = throw (Session.cannot_read "uploadFile")
  ∧ (Pool.withSession Examples.pool_full Examples.upload_callback None).1
    ≠ throw Pool.saturated.
Proof.
  split; [apply pool_full_at_cap|].
  split; [apply pool_full_count|]. split; [reflexivity|].
  split; [reflexivity|]. split; [reflexivity|].
  split; [eexists; split; [reflexivity|]; by split|].
  split; [reflexivity|]. discriminate.
Qed.

(** ** Sessions *)

Section SessionProps.
Import Session.
Context {S : Type}.

Lemma close_open (l : ClientLease S) pl (st : S) :
  close (new_session l pl) st
  = ({| lease := l; pipeline := pl; closed := true |}, release l st).
Proof. reflexivity. Qed.

Lemma close_closed (s : ComfyUISession S) (st : S) :
  closed s = true → close s st = (s, st).
Proof. unfold close. by intros ->. Qed.

Lemma assertOpen_closed (s : ComfyUISession S) :
  closed s = true → assertOpen s = throw (Error "ComfyUISession already closed").
Proof. unfold assertOpen. by intros ->. Qed.

(** Any number of further [close()] calls, whatever the pool state they
    meet, change nothing. *)
Lemma close_again (s : ComfyUISession S) (n : nat) (st : S) :
  closed s = true → Nat.iter n (λ x, close x.1 x.2) (s, st) = (s, st).
Proof.
  intros Hs. induction n as [|n IH]; [done|].
  simpl. rewrite IH. by apply close_closed.
Qed.

End SessionProps.

(** C7: [close()] on an open session marks it closed and calls the lease's
    [release] once (the pool state afterwards is [release] applied once to
    the state before); on the closed session every further [close()]
    leaves session and pool state as they are; and [run], [queue],
    [uploadFile] and [getHistory] on the closed session throw the error
    "ComfyUISession already closed" with no event performed. *)
Theorem C7_close_idempotent {S : Type} (l : Session.ClientLease S)
    (pl : option Pipeline.ArtifactPipeline) (st : S) :
  Session.closed (Session.close (Session.new_session l pl) st).1 = true
  ∧ (Session.close (Session.new_session l pl) st).2 = Session.release l st
  ∧ (∀ st', Session.close (Session.close (Session.new_session l pl) st).1 st'
            = ((Session.close (Session.new_session l pl) st).1, st'))
  ∧ (∀ workflow options replies,
       Session.run (Session.close (Session.new_session l pl) st).1 workflow options replies
       = ([], Throw (Error "ComfyUISession already closed")))
  ∧ (∀ workflow options,
       Session.queue_workflow (Session.close (Session.new_session l pl) st).1 workflow options
       = ([], Throw (Error "ComfyUISession already closed")))
  ∧ (∀ filename,
       Session.uploadFile (Session.close (Session.new_session l pl) st).1 filename
       = ([], Throw (Error "ComfyUISession already closed")))
  ∧ (∀ r promptId,
       Session.getHistory (Session.close (Session.new_session l pl) st).1 r promptId
       = ([], Throw (Error "ComfyUISession already closed"))).
Proof. repeat split. Qed.

(** ** Strings *)

Section StringFacts.

Lemma app_cons c (s t : string) : String c s +:+ t = String c (s +:+ t).
Proof. reflexivity. Qed.

Lemma app_empty_l (t : string) : EmptyString +:+ t = t.
Proof. reflexivity. Qed.

Lemma app_empty_r (s : string) : s +:+ EmptyString = s.
Proof. induction s as [|c s IH]; [done|]. by rewrite app_cons, IH. Qed.

Lemma app_assoc_s (s t u : string) : (s +:+ t) +:+ u = s +:+ (t +:+ u).
Proof. induction s as [|c s IH]; [done|]. by rewrite !app_cons, IH. Qed.

Lemma app_inv_head_s (s t u : string) : s +:+ t = s +:+ u → t = u.
Proof.
  induction s as [|c s IH]; [done|]. rewrite !app_cons. intros H.
  injection H as H. by apply IH.
Qed.

Lemma occurs_in_refl s : occurs_in s s.
Proof. exists EmptyString, EmptyString. by rewrite app_empty_l, app_empty_r. Qed.

Lemma occurs_in_app_l s t u : occurs_in s t → occurs_in s (u +:+ t).
Proof. intros (a & b & ->). exists (u +:+ a), b. by rewrite app_assoc_s. Qed.

Lemma occurs_in_app_r s t u : occurs_in s t → occurs_in s (t +:+ u).
Proof. intros (a & b & ->). exists a, (b +:+ u). by rewrite !app_assoc_s. Qed.

Lemma occurs_in_trans s t u : occurs_in s t → occurs_in t u → occurs_in s u.
Proof. intros Hst (a & b & ->). by apply occurs_in_app_l, occurs_in_app_r. Qed.

Lemma occurs_in_concat sep (l : list string) s :
  s ∈ l → occurs_in s (String.concat sep l).
Proof.
  induction l as [|x l IH]; [by intros ?%elem_of_nil|].
  intros [->|Hin]%elem_of_cons.
  - destruct l; [apply occurs_in_refl|]. simpl. apply occurs_in_app_r, occurs_in_refl.
  - destruct l as [|y l]; [by apply elem_of_nil in Hin|].
    change (String.concat sep (x :: y :: l))
      with (x +:+ sep +:+ String.concat sep (y :: l)).
    by apply occurs_in_app_l, occurs_in_app_l, IH.
Qed.

End StringFacts.

(** ** getHistory *)

Section GetHistory.
Import Client.


Lemma getHistory_not_errored h promptId :
  errored h promptId = None →
  getHistory (inr h) promptId = ([EvFetch promptId], Ok h).
Proof.
  unfold errored, getHistory. rewrite bind_emit. unfold await. rewrite bind_ret.
  destruct (history_of h promptId) as [rec|]; [|done].
  by case_bool_decide.
Qed.






End GetHistory.

Section PollOutcome.
Import Client Examples.

Lemma poll_schedule_S delay promptId k :
  poll_schedule delay promptId (S k)
  = poll_schedule delay promptId k ++ [EvSleep (delay k); EvFetch promptId].
Proof. unfold poll_schedule. by rewrite seq_S, flat_map_app. Qed.


Lemma poll_pending c promptId r replies attempt :
  pending promptId r →
  pollUntilDone c promptId (r :: replies) attempt
  = (EvSleep (delay_of c attempt) :: EvFetch promptId
       :: (pollUntilDone c promptId replies (S attempt)).1,
     (pollUntilDone c promptId replies (S attempt)).2).
Proof.
  intros (h & -> & Herr & Hfin). rewrite pollUntilDone_cons, bind_emit.
  rewrite (bind_ok _ _ _ _ (getHistory_not_errored _ _ Herr)).
  unfold finished in Hfin. destruct (history_of h promptId) as [rec|]; [|done].
  by rewrite Hfin.
Qed.

Lemma poll_after_pending c promptId ps replies attempt :
  Forall (pending promptId) ps →
  pollUntilDone c promptId (ps ++ replies) attempt
  = (flat_map (λ n, [EvSleep (delay_of c n); EvFetch promptId]) (seq attempt (length ps))
       ++ (pollUntilDone c promptId replies (attempt + length ps)).1,
     (pollUntilDone c promptId replies (attempt + length ps)).2).
Proof.
  intros Hps. revert attempt. induction Hps as [|r ps Hr _ IH]; intros attempt.
  - simpl. rewrite Nat.add_0_r. by destruct (pollUntilDone _ _ _ _).
  - rewrite <- app_comm_cons, (poll_pending _ _ _ _ _ Hr), IH.
    cbn [fst snd length]. by rewrite Nat.add_succ_r.
Qed.



Lemma history_pending_is_pending : pending "prompt-1" (inr history_pending).
Proof. by exists history_pending. Qed.

End PollOutcome.



(** ** The pipeline *)

(** C3 (the code on a processor whose output is falsy).  The pipeline
    [[marker]] processes the artifact once: [marker] runs and its bus entry
    is set, to [false].  Run again on the processed artifact, the
    pipeline invokes [marker] a second time, although the bus has an entry
    under its name, and both the payload and the bus entry change. *)
Theorem C3_falsy_output_is_rerun :
  Pipeline.run_pipeline [Examples.marker] Examples.artifact_hello
  = ([EvRun "marker"], Ok Examples.artifact_marked_once)
  ∧ has_prop (read Examples.artifact_marked_once "pipeline") "marker" = true
  ∧ Pipeline.run_pipeline [Examples.marker] Examples.artifact_marked_once
    = ([EvRun "marker"], Ok Examples.artifact_marked_twice)
  ∧ read Examples.artifact_marked_twice "payload"
    ≠ read Examples.artifact_marked_once "payload"
  ∧ read Examples.artifact_marked_twice "pipeline"
    ≠ read Examples.artifact_marked_once "pipeline".
Proof.
  split; [reflexivity|]. split; [reflexivity|]. split; [reflexivity|].
  split; discriminate.
Qed.

(** ** The paths of the leaves *)

Section Paths.
Import Client.

(** Induction on values, with the hypothesis for every item of an array
    and every property of an object. *)
Lemma value_nested_ind (P : value → Prop) :
  P Undefined → P Null → (∀ b, P (Bool b)) → (∀ z, P (Num z)) →
  (∀ s, P (Str s)) → (∀ d, P (Buf d)) →
  (∀ l, Forall P l → P (Arr l)) →
  (∀ o, Forall (λ kv, P kv.2) o → P (Obj o)) →
  ∀ v, P v.
Proof.
  intros HU HN HB HZ HS HD HA HO. fix IH 1.
  intros [| |b|z|s|d|l|o]; [done..| |].
  - apply HA. induction l as [|x l IHl]; constructor; [apply IH | apply IHl].
  - apply HO. induction o as [|[k x] o IHo]; constructor; [apply IH | apply IHo].
Qed.

(** A string splits in one way only into a part that avoids [S] and a rest
    that starts with [S]. *)
Lemma split_unique (S : ascii → bool) (k1 k2 r1 r2 : string) :
  avoids S k1 = true → avoids S k2 = true →
  starts_with S r1 → starts_with S r2 →
  k1 +:+ r1 = k2 +:+ r2 → k1 = k2 ∧ r1 = r2.
Proof.
  revert k2. induction k1 as [|c1 k1 IH]; intros [|c2 k2] H1 H2 Hr1 Hr2 Heq.
  - done.
  - rewrite app_empty_l, app_cons in Heq. subst r1. simpl in Hr1, H2.
    rewrite Hr1 in H2. done.
  - rewrite app_empty_l, app_cons in Heq. subst r2. simpl in Hr2, H1.
    rewrite Hr2 in H1. done.
  - rewrite !app_cons in Heq. injection Heq as -> Heq.
    simpl in H1, H2. apply andb_true_iff in H1 as [_ H1], H2 as [_ H2].
    destruct (IH k2 H1 H2 Hr1 Hr2 Heq) as [-> ->]. done.
Qed.

Lemma avoids_weaken (S T : ascii → bool) (s : string) :
  (∀ c, T c = true → S c = true) → avoids S s = true → avoids T s = true.
Proof.
  intros HTS. induction s as [|c s IH]; [done|]. simpl.
  intros [Hc Hs]%andb_true_iff. rewrite (IH Hs), andb_true_r.
  destruct (T c) eqn:HT; [|done]. by rewrite (HTS c HT) in Hc.
Qed.

Lemma has_char_avoids c s :
  has_char c s = false → avoids (λ c', bool_decide (c' = c)) s = true.
Proof.
  induction s as [|c' s IH]; [done|]. simpl.
  intros [-> Hs]%orb_false_iff. by rewrite (IH Hs).
Qed.

Lemma avoids_and (S T : ascii → bool) s :
  avoids S s = true → avoids T s = true → avoids (λ c, S c || T c) s = true.
Proof.
  induction s as [|c s IH]; [done|]. simpl.
  intros [Hc Hs]%andb_true_iff [Hc' Hs']%andb_true_iff.
  rewrite (IH Hs Hs'), andb_true_r. by destruct (S c), (T c).
Qed.

Lemma plain_key_avoids k : plain_key k = true → avoids is_sep k = true.
Proof.
  unfold plain_key. intros [H1 H2]%andb_true_iff.
  apply negb_true_iff in H1, H2.
  apply (avoids_and _ _ _ (has_char_avoids _ _ H1) (has_char_avoids _ _ H2)).
Qed.

(** Decimal numerals. *)
Lemma string_of_uint_digits (d : Decimal.uint) :
  avoids (λ c, negb (is_digit c)) (NilEmpty.string_of_uint d) = true.
Proof. induction d; simpl; [done|by rewrite IHd..]. Qed.

Lemma string_of_nat_digits (n : nat) :
  avoids (λ c, negb (is_digit c)) (string_of_nat n) = true.
Proof. apply string_of_uint_digits. Qed.

Lemma string_of_nat_inj (m n : nat) : string_of_nat m = string_of_nat n → m = n.
Proof.
  unfold string_of_nat. intros H.
  apply (f_equal NilEmpty.uint_of_string) in H. rewrite !NilEmpty.usu in H.
  injection H as H. by apply DecimalNat.Unsigned.to_uint_inj.
Qed.

Lemma string_of_nat_avoids (S : ascii → bool) (n : nat) :
  (∀ c, S c = true → is_digit c = false) → avoids S (string_of_nat n) = true.
Proof.
  intros HS. apply (avoids_weaken (λ c, negb (is_digit c))); [|apply string_of_nat_digits].
  intros c Hc. by rewrite (HS c Hc).
Qed.

Lemma string_of_nat_plain (n : nat) : avoids is_sep (string_of_nat n) = true.
Proof.
  apply string_of_nat_avoids. intros c. unfold is_sep.
  intros [Hc|Hc]%orb_true_iff; apply bool_decide_eq_true in Hc; by subst c.
Qed.

Lemma walkLeaves_Arr items path : walkLeaves (Arr items) path = walk_items path items 0.
Proof.
  change (walkLeaves (Arr items) path) with
    ((fix walkItems (items : list value) (i : nat) : list Leaf :=
        match items with
        | [] => []
        | x :: items' =>
            walkLeaves x (path +:+ "[" +:+ string_of_nat i +:+ "]") ++ walkItems items' (S i)
        end) items 0%nat).
  generalize 0%nat. induction items as [|x items IH]; intros i; [done|].
  simpl. by rewrite IH.
Qed.

Lemma walkLeaves_Obj props path :
  walkLeaves (Obj props) path
  = if isBinaryManifest (Obj props) then [mkLeaf (Obj props) path]
    else walk_props path props.
Proof.
  change (walkLeaves (Obj props) path) with
    (if isBinaryManifest (Obj props) then [mkLeaf (Obj props) path]
     else (fix walkProps (props : list (string * value)) : list Leaf :=
             match props with
             | [] => []
             | (key, val) :: props' =>
                 walkLeaves val (path +:+ "." +:+ key) ++ walkProps props'
             end) props).
  destruct (isBinaryManifest _); [done|].
  induction props as [|[k v] props IH]; [done|]. simpl. by rewrite IH.
Qed.

Lemma extends_refl p : extends p p.
Proof. exists EmptyString. by rewrite app_empty_r. Qed.

(** A path that extends [p] by a segment and more extends [p]. *)
Lemma extends_segment p c seg q :
  is_sep c = true → extends (p +:+ String c seg) q → extends p q.
Proof.
  intros Hc (r & -> & _). exists (String c seg +:+ r).
  by rewrite app_assoc_s.
Qed.

Lemma walk_extends node :
  ∀ path leaf, leaf ∈ walkLeaves node path → extends path (leaf_from leaf).
Proof.
  induction node as [| | | |s|d|l IH|o IH] using value_nested_ind; intros path leaf Hin;
    try (by apply elem_of_nil in Hin).
  - apply list_elem_of_singleton in Hin as ->. apply extends_refl.
  - rewrite walkLeaves_Arr in Hin. revert Hin. generalize 0%nat.
    induction IH as [|x l Hx _ IHl]; intros i Hin; [by apply elem_of_nil in Hin|].
    simpl in Hin. apply elem_of_app in Hin as [Hin|Hin]; [|by eapply IHl].
    apply Hx in Hin. by eapply (extends_segment path "[").
  - rewrite walkLeaves_Obj in Hin. destruct (isBinaryManifest _).
    { apply list_elem_of_singleton in Hin as ->. apply extends_refl. }
    induction IH as [|[k x] o Hx _ IHo]; [by apply elem_of_nil in Hin|].
    simpl in Hin. apply elem_of_app in Hin as [Hin|Hin]; [|by apply IHo].
    apply Hx in Hin. by eapply (extends_segment path ".").
Qed.

(** Paths below two different indices of one array differ. *)
Lemma separate_indices p i j q1 q2 :
  i ≠ j →
  extends (p +:+ "[" +:+ string_of_nat i +:+ "]") q1 →
  extends (p +:+ "[" +:+ string_of_nat j +:+ "]") q2 →
  q1 ≠ q2.
Proof.
  intros Hij (r1 & -> & Hr1) (r2 & -> & Hr2) Heq. apply Hij.
  rewrite !app_assoc_s in Heq. apply app_inv_head_s in Heq.
  rewrite !app_cons, !app_empty_l in Heq. injection Heq as Heq.
  apply (split_unique (λ c, bool_decide (c = "]"%char))) in Heq as [Heq _].
  - by apply string_of_nat_inj.
  - apply string_of_nat_avoids. intros c Hc. apply bool_decide_eq_true in Hc. by subst c.
  - apply string_of_nat_avoids. intros c Hc. apply bool_decide_eq_true in Hc. by subst c.
  - done.
  - done.
Qed.

(** Paths below two different plain keys of one object differ. *)
Lemma separate_keys p k1 k2 q1 q2 :
  plain_key k1 = true → plain_key k2 = true → k1 ≠ k2 →
  extends (p +:+ "." +:+ k1) q1 → extends (p +:+ "." +:+ k2) q2 →
  q1 ≠ q2.
Proof.
  intros Hk1 Hk2 Hne (r1 & -> & Hr1) (r2 & -> & Hr2) Heq. apply Hne.
  rewrite !app_assoc_s in Heq. apply app_inv_head_s in Heq.
  rewrite !app_cons, !app_empty_l in Heq. injection Heq as Heq.
  by apply (split_unique is_sep) in Heq as [Heq _]; [|apply plain_key_avoids..|done|done].
Qed.

(** Paths below two different plain node ids differ. *)
Lemma separate_roots n1 n2 q1 q2 :
  avoids is_sep n1 = true → avoids is_sep n2 = true → n1 ≠ n2 →
  extends n1 q1 → extends n2 q2 → q1 ≠ q2.
Proof.
  intros Hn1 Hn2 Hne (r1 & -> & Hr1) (r2 & -> & Hr2) Heq. apply Hne.
  by apply (split_unique is_sep) in Heq as [Heq _].
Qed.

Lemma walk_items_extends path items i leaf :
  leaf ∈ walk_items path items i →
  ∃ j, (i ≤ j)%nat
       ∧ extends (path +:+ "[" +:+ string_of_nat j +:+ "]") (leaf_from leaf).
Proof.
  revert i. induction items as [|x items IH]; intros i Hin; [by apply elem_of_nil in Hin|].
  simpl in Hin. apply elem_of_app in Hin as [Hin|Hin].
  - exists i. split; [done|]. by apply walk_extends in Hin.
  - destruct (IH (S i) Hin) as (j & Hj & Hext). exists j. split; [lia|done].
Qed.

Lemma walk_props_extends path props leaf :
  leaf ∈ walk_props path props →
  ∃ k, k ∈ props.*1 ∧ extends (path +:+ "." +:+ k) (leaf_from leaf).
Proof.
  induction props as [|[k x] props IH]; intros Hin; [by apply elem_of_nil in Hin|].
  simpl in Hin. apply elem_of_app in Hin as [Hin|Hin].
  - exists k. split; [left|]. by apply walk_extends in Hin.
  - destruct (IH Hin) as (k' & Hk' & Hext). exists k'. split; [by right|done].
Qed.

Lemma NoDup_walk_items path items i :
  Forall paths_distinct items → NoDup (leaf_from <$> walk_items path items i).
Proof.
  intros Hitems. revert i. induction Hitems as [|x items Hx _ IH]; intros i; [constructor|].
  simpl. rewrite fmap_app. apply NoDup_app. split; [apply Hx|]. split; [|apply IH].
  intros q (l1 & -> & Hl1)%list_elem_of_fmap (l2 & Hq & Hl2)%list_elem_of_fmap.
  apply walk_extends in Hl1.
  destruct (walk_items_extends _ _ _ _ Hl2) as (j & Hj & Hext).
  by apply (separate_indices path i j (leaf_from l1) (leaf_from l2)); [lia|..].
Qed.

Lemma NoDup_walk_props path props :
  NoDup props.*1 → Forall (λ k, plain_key k = true) props.*1 →
  Forall (λ kv, paths_distinct kv.2) props →
  NoDup (leaf_from <$> walk_props path props).
Proof.
  intros Hnd Hplain Hprops.
  induction Hprops as [|[k x] props Hx _ IH]; [constructor|].
  rewrite fmap_cons in Hnd, Hplain. cbn [fst] in Hnd, Hplain.
  apply NoDup_cons in Hnd as [Hk Hnd]. apply Forall_cons in Hplain as [Hpk Hplain].
  simpl. rewrite fmap_app. apply NoDup_app. split; [apply Hx|]. split; [|by apply IH].
  intros q (l1 & -> & Hl1)%list_elem_of_fmap (l2 & Hq & Hl2)%list_elem_of_fmap.
  apply walk_extends in Hl1.
  destruct (walk_props_extends _ _ _ Hl2) as (k' & Hk' & Hext).
  apply (separate_keys path k k' (leaf_from l1) (leaf_from l2)); try done.
  - rewrite Forall_forall in Hplain. by apply Hplain.
  - by intros ->.
Qed.

Lemma all_objects_Arr P l :
  all_objects P (Arr l) = true → Forall (λ x, all_objects P x = true) l.
Proof.
  change (all_objects P (Arr l)) with
    ((fix items (l : list value) : bool :=
        match l with
        | [] => true
        | x :: l' => all_objects P x && items l'
        end) l).
  induction l as [|x l IH]; [constructor|].
  intros [Hx Hl]%andb_true_iff. constructor; [done | by apply IH].
Qed.

Lemma all_objects_Obj P o :
  all_objects P (Obj o) = true →
  P (o.*1) = true ∧ Forall (λ kv, all_objects P kv.2 = true) o.
Proof.
  change (all_objects P (Obj o)) with
    (P (o.*1) &&
     (fix props (o : list (string * value)) : bool :=
        match o with
        | [] => true
        | (_, x) :: o' => all_objects P x && props o'
        end) o).
  intros [HP Ho]%andb_true_iff. split; [done|]. clear HP.
  induction o as [|[k x] o IH]; [constructor|].
  apply andb_true_iff in Ho as [Hx Ho]. constructor; [done | by apply IH].
Qed.

Lemma forallb_Forall {A} (f : A → bool) (l : list A) :
  forallb f l = true → Forall (λ x, f x = true) l.
Proof.
  induction l as [|x l IH]; [constructor|]. simpl.
  intros [Hx Hl]%andb_true_iff. constructor; [done | by apply IH].
Qed.

(** Below a value whose objects have unique, plain keys, no two leaves
    have the same path. *)
Lemma walk_distinct v :
  unique_keys v = true → plain_keys v = true → paths_distinct v.
Proof.
  unfold unique_keys, plain_keys.
  induction v as [| | | |s|d|l IH|o IH] using value_nested_ind; intros Hu Hp path;
    try constructor; try (by apply not_elem_of_nil); try constructor.
  - rewrite walkLeaves_Arr. apply NoDup_walk_items.
    apply all_objects_Arr in Hu, Hp.
    rewrite Forall_forall in IH, Hu, Hp. apply Forall_forall. intros x Hx.
    by apply IH; [|apply Hu|apply Hp].
  - rewrite walkLeaves_Obj. destruct (isBinaryManifest _).
    { apply NoDup_singleton. }
    apply all_objects_Obj in Hu as [Hnd Hu], Hp as [Hpl Hp].
    apply NoDup_walk_props.
    + by apply bool_decide_eq_true in Hnd.
    + by apply forallb_Forall.
    + rewrite Forall_forall in IH, Hu, Hp. apply Forall_forall. intros kv Hkv.
      by apply IH; [|apply Hu|apply Hp].
Qed.

(** *** The whole outputs tree *)

Lemma node_leaves_extends k v leaf :
  leaf ∈ node_leaves (k, v) → extends k (leaf_from leaf).
Proof.
  unfold node_leaves. cbn [fst snd]. destruct (isPlainObject v).
  - apply walk_extends.
  - by intros ?%elem_of_nil.
Qed.

Lemma NoDup_flat_node_leaves (es : list (string * value)) :
  NoDup es.*1 → Forall (λ k, avoids is_sep k = true) es.*1 →
  Forall (λ kv, paths_distinct kv.2) es →
  NoDup (leaf_from <$> flat_map node_leaves es).
Proof.
  intros Hnd Hplain Hes.
  induction Hes as [|[k v] es Hv _ IH]; [constructor|].
  rewrite fmap_cons in Hnd, Hplain. cbn [fst] in Hnd, Hplain.
  apply NoDup_cons in Hnd as [Hk Hnd]. apply Forall_cons in Hplain as [Hpk Hplain].
  simpl. rewrite fmap_app. apply NoDup_app. split; [|split; [|by apply IH]].
  - unfold node_leaves. cbn [fst snd]. destruct (isPlainObject v); [apply Hv|constructor].
  - intros q (l1 & -> & Hl1)%list_elem_of_fmap (l2 & Hq & Hl2)%list_elem_of_fmap.
    apply node_leaves_extends in Hl1.
    apply list_elem_of_In, in_flat_map in Hl2 as ([k' v'] & Hkv & Hl2).
    apply list_elem_of_In in Hkv, Hl2. apply node_leaves_extends in Hl2.
    assert (Hk' : k' ∈ es.*1) by (apply list_elem_of_fmap; by exists (k', v')).
    apply (separate_roots k k' (leaf_from l1) (leaf_from l2)); try done.
    + rewrite Forall_forall in Hplain. by apply Hplain.
    + by intros ->.
Qed.

(** The entries of an array or of a string: the indices as keys. *)
Lemma index_entries_ok {A} (g : nat → A → value) (l : list A) :
  (∀ i x, l !! i = Some x → paths_distinct (g i x)) →
  NoDup (imap (λ i x, (string_of_nat i, g i x)) l).*1
  ∧ Forall (λ k, avoids is_sep k = true) (imap (λ i x, (string_of_nat i, g i x)) l).*1
  ∧ Forall (λ kv, paths_distinct kv.2) (imap (λ i x, (string_of_nat i, g i x)) l).
Proof.
  intros Hg. split; [|split].
  - apply NoDup_alt. intros i j k Hi Hj.
    rewrite list_lookup_fmap, list_lookup_imap in Hi, Hj.
    destruct (l !! i) as [x|]; [|done]. destruct (l !! j) as [y|]; [|done].
    simpl in Hi, Hj. injection Hi as <-. injection Hj as Hj.
    by apply string_of_nat_inj.
  - apply Forall_lookup. intros i k Hi.
    rewrite list_lookup_fmap, list_lookup_imap in Hi.
    destruct (l !! i) as [x|]; [|done]. injection Hi as <-. apply string_of_nat_plain.
  - apply Forall_lookup. intros i kv Hi. rewrite list_lookup_imap in Hi.
    destruct (l !! i) as [x|] eqn:Hx; [|done]. injection Hi as <-. by eapply Hg.
Qed.

Lemma entries_ok outputs :
  unique_keys outputs = true → plain_keys outputs = true →
  NoDup (entries outputs).*1
  ∧ Forall (λ k, avoids is_sep k = true) (entries outputs).*1
  ∧ Forall (λ kv, paths_distinct kv.2) (entries outputs).
Proof.
  intros Hu Hp. destruct outputs as [| | | |s|d|l|o];
    try (split; [constructor | split; constructor]).
  - apply index_entries_ok. intros i c _ path. apply NoDup_singleton.
  - apply index_entries_ok. intros i x Hx.
    apply all_objects_Arr in Hu, Hp. rewrite Forall_forall in Hu, Hp.
    apply list_elem_of_lookup_2 in Hx. by apply walk_distinct; [apply Hu|apply Hp].
  - apply all_objects_Obj in Hu as [Hnd Hu], Hp as [Hpl Hp]. cbn [entries].
    split; [by apply bool_decide_eq_true in Hnd|]. split.
    + apply forallb_Forall in Hpl. eapply Forall_impl; [exact Hpl|].
      intros k. apply plain_key_avoids.
    + rewrite Forall_forall in Hu, Hp. apply Forall_forall. intros kv Hkv.
      by apply walk_distinct; [apply Hu|apply Hp].
Qed.

(** The paths of all leaves of an outputs tree with unique, plain keys are
    pairwise different. *)
Lemma all_leaves_distinct outputs :
  unique_keys outputs = true → plain_keys outputs = true →
  NoDup (leaf_from <$> all_leaves outputs).
Proof.
  intros Hu Hp. destruct (entries_ok outputs Hu Hp) as (H1 & H2 & H3).
  by apply NoDup_flat_node_leaves.
Qed.

End Paths.

Section Extraction.
Import Client.

Lemma get_set_prop o k v k' :
  get_prop (set_prop o k v) k' = if bool_decide (k = k') then Some v else get_prop o k'.
Proof.
  induction o as [|[k0 v0] o IH]; simpl.
  - by case_bool_decide.
  - destruct (bool_decide (k0 = k)) eqn:Hk0; simpl.
    + apply bool_decide_eq_true in Hk0 as ->. by case_bool_decide.
    + rewrite IH. apply bool_decide_eq_false in Hk0.
      repeat case_bool_decide; congruence.
Qed.

Lemma mapM_ok {A B} (f : A → M B) (xs : list A) t ys :
  mapM f xs = (t, Ok ys) → Forall2 (λ x y, ∃ t', f x = (t', Ok y)) xs ys.
Proof.
  revert t ys. induction xs as [|x xs IH]; intros t ys; simpl.
  - intros [= <- <-]. constructor.
  - destruct (f x) as [t1 [y| |]] eqn:Hfx; try done.
    erewrite bind_ok by reflexivity.
    destruct (mapM f xs) as [t2 [ys'| |]] eqn:Hxs; try done.
    simpl. intros [= <- <-]. constructor; [by eexists | by eapply IH].
Qed.

(** The artifact of a leaf carries the path of the leaf as
    [manifest.from]. *)
Lemma leafToArtifact_from srv leaf promptId t a :
  leafToArtifact srv leaf promptId = (t, Ok a) →
  manifest_from a = Str (leaf_from leaf).
Proof.
  unfold leafToArtifact. destruct (isBinaryManifest (leaf_value leaf)) eqn:Hb.
  - rewrite bind_emit. destruct (get_view srv (leaf_value leaf)) as [e|buffer]; [done|].
    unfold await. rewrite bind_ret. intros [= _ <-].
    destruct (leaf_value leaf) as [| | | | | | |o]; try done.
    unfold manifest_from, mkArtifact, assign. simpl.
    by rewrite !get_set_prop.
  - by intros [= _ <-].
Qed.

Lemma extract_froms srv outputs promptId t arts :
  extractArtifacts srv outputs promptId = (t, Ok arts) →
  manifest_from <$> unwrapArtifacts arts = (Str ∘ leaf_from) <$> all_leaves outputs.
Proof.
  unfold extractArtifacts, all_leaves. intros H%mapM_ok.
  induction H as [|entry [k' as'] es arts (t' & He) _ IH]; [done|].
  unfold unwrapArtifacts in *. simpl. rewrite !fmap_app, IH. f_equal.
  destruct (mapM _ (node_leaves entry)) as [t1 [as1| |]] eqn:Hm; try done.
  erewrite bind_ok in He by reflexivity. injection He as _ _ <-.
  apply mapM_ok in Hm. clear -Hm.
  induction Hm as [|leaf a ls as1 (t' & Ha) _ IH]; [done|].
  rewrite !fmap_cons, IH. f_equal. by eapply leafToArtifact_from.
Qed.

End Extraction.

(** C4, as stated, fails: a key may contain a dot.  In the outputs
    [{ "1": { "a.b": "x", "a": { "b": "y" } } }] the two leaves, at different
    positions, both get the path [1.a.b]. *)
Lemma C4_paths_counterexample :
  unique_keys Examples.outputs_dotted = true
  ∧ Client.leaf_from <$> all_leaves Examples.outputs_dotted = ["1.a.b"; "1.a.b"]
  ∧ ¬ NoDup (Client.leaf_from <$> all_leaves Examples.outputs_dotted).
Proof.
  split; [reflexivity|]. split; [reflexivity|].
  intros H. apply NoDup_cons in H as [H _]. apply H. left.
Qed.

(** C4 (amended): for every outputs tree in which no object key, the node
    ids included, contains ['.'] or ['['], the paths of the leaves the
    extraction walk yields are pairwise different, at any nesting depth;
    and the [manifest.from] values of the extracted artifacts are these
    paths, in order. *)
Theorem C4_paths_distinct (outputs : value) :
  unique_keys outputs = true → plain_keys outputs = true →
  NoDup (Client.leaf_from <$> all_leaves outputs)
  ∧ ∀ srv promptId t arts,
      Client.extractArtifacts srv outputs promptId = (t, Ok arts) →
      manifest_from <$> unwrapArtifacts arts = (Str ∘ Client.leaf_from) <$> all_leaves outputs
      ∧ NoDup (manifest_from <$> unwrapArtifacts arts).
Proof.
  intros Hu Hp. pose proof (all_leaves_distinct outputs Hu Hp) as Hnd.
  split; [done|]. intros srv promptId t arts Hex.
  pose proof (extract_froms _ _ _ _ _ Hex) as Hfrom. split; [done|].
  rewrite Hfrom, list_fmap_compose. apply NoDup_fmap_2; [|done].
  by intros x y [= ->].
Qed.

Lemma C4_paths_distinct_witness :
  Client.leaf_from <$> all_leaves Examples.outputs_plain
  = ["8.images[0]"; "8.images[1]"; "9.text[0]"]
  ∧ NoDup (Client.leaf_from <$> all_leaves Examples.outputs_plain)
  ∧ NoDup (manifest_from <$> unwrapArtifacts Examples.extracted_plain).
Proof.
  destruct (C4_paths_distinct Examples.outputs_plain) as [Hleaves Hartifacts];
    [reflexivity..|].
  split; [reflexivity|]. split; [exact Hleaves|].
  apply (Hartifacts Examples.server_ok "prompt-1"
           (Client.extractArtifacts Examples.server_ok Examples.outputs_plain "prompt-1").1).
  reflexivity.
Defined.

(** ** Output mapping *)

Section OutputMapping.
Import Client.

Lemma manifest_from_object art f : manifest_from art = Str f → ∃ o, art = Obj o.
Proof.
  unfold manifest_from. destruct art as [| | | | | |l|o]; try done. by eexists.
Qed.

Lemma byFrom_snoc artifacts art :
  byFrom_of (artifacts ++ [art])
  = match manifest_from art with
    | Str from => <[from := art]> (byFrom_of artifacts)
    | _ => byFrom_of artifacts
    end.
Proof. unfold byFrom_of. by rewrite fold_left_app. Qed.

(** What the map holds under a path is an artifact of the list with that
    path. *)
Lemma byFrom_lookup artifacts f art :
  byFrom_of artifacts !! f = Some art → art ∈ artifacts ∧ manifest_from art = Str f.
Proof.
  induction artifacts as [|a artifacts IH] using rev_ind; [done|].
  rewrite byFrom_snoc. destruct (manifest_from a) as [| | | |from| | |] eqn:Ha;
    try (intros [H1 H2]%IH; split; [apply elem_of_app; by left | done]).
  destruct (decide (from = f)) as [->|Hne].
  - rewrite lookup_insert_eq. intros [= <-]. split; [|done].
    apply elem_of_app. right. left.
  - rewrite lookup_insert_ne by done.
    intros [H1 H2]%IH. split; [apply elem_of_app; by left | done].
Qed.

(** The map holds something under the path of every artifact of the
    list. *)
Lemma byFrom_some artifacts f art :
  art ∈ artifacts → manifest_from art = Str f → is_Some (byFrom_of artifacts !! f).
Proof.
  induction artifacts as [|a artifacts IH] using rev_ind; [by intros ?%elem_of_nil|].
  rewrite byFrom_snoc. intros [Hin|Hin]%elem_of_app Hf.
  - specialize (IH Hin Hf).
    destruct (manifest_from a) as [| | | |from| | |]; try done.
    destruct (decide (from = f)) as [->|Hne].
    + rewrite lookup_insert_eq. by eexists.
    + by rewrite lookup_insert_ne.
  - apply list_elem_of_singleton in Hin as ->. rewrite Hf, lookup_insert_eq. by eexists.
Qed.

(** With pairwise different paths it holds exactly that artifact. *)
Lemma byFrom_unique artifacts f art :
  NoDup (manifest_from <$> artifacts) →
  art ∈ artifacts → manifest_from art = Str f → byFrom_of artifacts !! f = Some art.
Proof.
  intros Hnd Hin Hf.
  destruct (byFrom_some _ _ _ Hin Hf) as [art' Hart'].
  destruct (byFrom_lookup _ _ _ Hart') as [Hin' Hf'].
  rewrite Hart'. f_equal.
  apply list_elem_of_lookup in Hin as [i Hi], Hin' as [j Hj].
  assert (i = j) as ->; [|congruence].
  apply (NoDup_lookup _ i j (Str f) Hnd); rewrite list_lookup_fmap.
  - by rewrite Hi; simpl; rewrite Hf.
  - by rewrite Hj; simpl; rewrite Hf'.
Qed.

Lemma split_dot_simple k : has_char "." k = false → split_dot k = [k].
Proof.
  induction k as [|c k IH]; [done|]. simpl.
  intros [Hc Hk]%orb_false_iff. rewrite Hc, (IH Hk). done.
Qed.

(** On a [to] that names one property, the entry writes that property of
    the response, or nothing. *)
Lemma applyNodeOutput_simple artifacts r o :
  simple_key (out_to o) = true →
  applyNodeOutput (byFrom_of artifacts) (Obj r) o
  = Obj (match resolved (byFrom_of artifacts) o with
         | Some v => set_prop r (out_to o) v
         | None => r
         end).
Proof.
  unfold simple_key. intros [Hdot Hsafe]%andb_true_iff.
  apply negb_true_iff in Hdot, Hsafe.
  unfold applyNodeOutput, resolved.
  destruct (byFrom_of artifacts !! out_from o) as [art|] eqn:Hart.
  - destruct (byFrom_lookup _ _ _ Hart) as [_ Hf].
    destruct (manifest_from_object _ _ Hf) as [ao ->]. cbn [truthy].
    destruct (isUndefined (read (Obj ao) "payload")); [done|].
    rewrite (split_dot_simple _ Hdot). unfold set. simpl. by rewrite Hsafe.
  - destruct (isUndefined (out_defaultValue o)); [done|].
    rewrite (split_dot_simple _ Hdot). unfold set. simpl. by rewrite Hsafe.
Qed.

(** The response for a mapping whose [to]s name one property each and are
    pairwise different: every entry finds under its [to] what it wrote. *)
Lemma applyNodeOutputs_fold artifacts outputs r0 :
  Forall (λ e, simple_key (out_to e) = true) outputs →
  NoDup (out_to <$> outputs) →
  ∃ rs, fold_left (applyNodeOutput (byFrom_of artifacts)) outputs (Obj r0) = Obj rs
        ∧ (∀ o, o ∈ outputs → get_prop r0 (out_to o) = None →
             get_prop rs (out_to o) = resolved (byFrom_of artifacts) o)
        ∧ (∀ k, k ∉ out_to <$> outputs → get_prop rs k = get_prop r0 k).
Proof.
  intros Hsimple. revert r0.
  induction Hsimple as [|e outputs He _ IH]; intros r0 Hnd.
  { exists r0. split; [done|]. split; [by intros o ?%elem_of_nil | done]. }
  rewrite fmap_cons in Hnd. apply NoDup_cons in Hnd as [Hfresh Hnd].
  simpl. rewrite (applyNodeOutput_simple _ _ _ He).
  set (r1 := match resolved (byFrom_of artifacts) e with
             | Some v => set_prop r0 (out_to e) v
             | None => r0
             end).
  destruct (IH r1 Hnd) as (rs & Hfold & Hin & Hout).
  exists rs. split; [done|]. split.
  - intros o [->|Ho]%elem_of_cons Hnone.
    + rewrite (Hout _ Hfresh). subst r1.
      destruct (resolved _ e) as [v|]; [|done].
      by rewrite get_set_prop, bool_decide_true.
    + apply Hin; [done|]. subst r1.
      destruct (resolved _ e) as [v|]; [|done].
      rewrite get_set_prop, bool_decide_false; [done|].
      intros Heq. apply Hfresh. rewrite Heq. apply list_elem_of_fmap. by exists o.
  - intros k Hk. apply not_elem_of_cons in Hk as [Hne Hk].
    rewrite (Hout _ Hk). subst r1.
    destruct (resolved _ e) as [v|]; [|done].
    by rewrite get_set_prop, bool_decide_false.
Qed.

(** [{ ...art, payload: art.payload }] is [art] again, for an artifact
    that has a payload. *)
Lemma assign_fresh acc o :
  NoDup (acc.*1 ++ o.*1) → assign (Obj acc) o = Obj (acc ++ o).
Proof.
  revert acc. induction o as [|[k v] o IH]; intros acc Hnd.
  { by rewrite app_nil_r. }
  unfold assign in *. simpl.
  assert (Hset : set_prop acc k v = acc ++ [(k, v)]).
  { assert (Hk : k ∉ acc.*1).
    { apply NoDup_app in Hnd as (_ & Hdis & _). intros Hk. apply (Hdis k Hk). left. }
    clear -Hk. induction acc as [|[k' v'] acc IHacc]; [done|].
    simpl. rewrite fmap_cons in Hk. apply not_elem_of_cons in Hk as [Hne Hk].
    rewrite bool_decide_false by done. by rewrite IHacc. }
  rewrite Hset, IH.
  - by rewrite <- app_assoc.
  - by rewrite fmap_app, <- app_assoc.
Qed.

Lemma set_prop_same o k v : get_prop o k = Some v → set_prop o k v = o.
Proof.
  induction o as [|[k' v'] o IH]; [done|]. simpl.
  case_bool_decide as Hk; [by intros [= ->]; subst | by intros ->%IH].
Qed.

Lemma with_payload_same o :
  NoDup o.*1 → is_Some (get_prop o "payload") →
  with_payload (Some (Obj o)) (read (Obj o) "payload") = Obj o.
Proof.
  intros Hnd [v Hv]. unfold with_payload. rewrite (assign_fresh [] o) by done.
  simpl. rewrite Hv. simpl. by rewrite (set_prop_same _ _ _ Hv).
Qed.

Lemma run_result c workflow options replies t v :
  run c workflow options replies = (t, Ok v) →
  ∃ rawOutputs, v = map_outputs (unwrapArtifacts rawOutputs) options.
Proof.
  unfold run. rewrite bind_emit.
  destruct (post_prompt _ _) as [e|promptId]; [done|].
  unfold await. rewrite bind_ret.
  destruct (pollUntilDone _ _ _ _) as [t' [raw| |]]; try done.
  erewrite bind_ok by reflexivity. intros [= _ <-]. by exists raw.
Qed.

(** What the response holds under the [to] of a mapping entry. *)
Lemma applyNodeOutputs_read artifacts outputs o :
  Forall (λ e, simple_key (out_to e) = true) outputs →
  NoDup (out_to <$> outputs) →
  o ∈ outputs →
  read (applyNodeOutputs artifacts outputs) (out_to o)
  = default Undefined (resolved (byFrom_of artifacts) o).
Proof.
  intros Hsimple Hnd Ho.
  destruct (applyNodeOutputs_fold artifacts outputs [] Hsimple Hnd) as (rs & Hfold & Hin & _).
  unfold applyNodeOutputs. rewrite Hfold. simpl. by rewrite (Hin o Ho).
Qed.

End OutputMapping.

(** ** What the pipeline does skip *)

Section PipelineProps.
Import Pipeline.

(** A processor whose bus entry is truthy is skipped: not invoked, and the
    artifact is left as it is. *)
Lemma processor_step_skips artifact processor :
  truthy (read (read artifact "pipeline") (name processor)) = true →
  processor_step artifact processor = ret artifact.
Proof. unfold processor_step. by intros ->. Qed.

Lemma run_processors_skips processors artifact :
  Forall (λ p, truthy (read (read artifact "pipeline") (name p)) = true) processors →
  run_processors processors artifact = ret artifact.
Proof.
  induction 1 as [|p processors Hp _ IH]; [done|].
  simpl. by rewrite (processor_step_skips _ _ Hp), bind_ret.
Qed.

Lemma ensure_state_idem artifact : ensure_state (ensure_state artifact) = ensure_state artifact.
Proof.
  destruct artifact as [| | | | | |l|o]; try reflexivity.
  unfold ensure_state. simpl.
  destruct (get_prop o "pipeline") as [v|] eqn:Hp; simpl.
  - destruct v; simpl; rewrite ?Hp, ?get_set_prop, ?bool_decide_true; done.
  - by rewrite get_set_prop, bool_decide_true.
Qed.

Lemma ensure_state_present artifact k :
  truthy (read (read artifact "pipeline") k) = true → ensure_state artifact = artifact.
Proof. unfold ensure_state. by destruct (read artifact "pipeline"). Qed.

(** When every processor of the pipeline has a truthy bus entry on the
    artifact, processing it again invokes no processor and changes
    nothing; so does processing again with the empty pipeline. *)
Lemma processArtifact_again processors artifact t artifact' :
  processArtifact processors artifact = (t, Ok artifact') →
  Forall (λ p, truthy (read (read artifact' "pipeline") (name p)) = true) processors →
  processArtifact processors artifact' = ([], Ok artifact').
Proof.
  intros Hfirst Hall. unfold processArtifact in *.
  destruct processors as [|p processors].
  - simpl in *. injection Hfirst as _ <-. by rewrite ensure_state_idem.
  - apply Forall_cons in Hall as Hall'. destruct Hall' as [Hp _].
    rewrite (ensure_state_present _ _ Hp). by apply run_processors_skips.
Qed.

End PipelineProps.

(* ===================================================================== *)
(** * Further properties of the code *)
(* ===================================================================== *)

(** ** utils.ts: the back-off reaches its cap and stays there *)

Section BackoffCap.

Lemma pow2_reaches (cap : Z) (n : nat) : Z.log2_up cap ≤ Z.of_nat n → cap ≤ 2 ^ Z.of_nat n.
Proof.
  intros Hn. destruct (decide (0 < cap)) as [Hpos|Hneg].
  - pose proof (Z.log2_log2_up_spec cap Hpos) as [_ Hup].
    etrans; [exact Hup|]. apply Z.pow_le_mono_r; lia.
  - pose proof (Z.pow_pos_nonneg 2 (Z.of_nat n)). lia.
Qed.

Lemma backoff_at_cap_stays m n base cap :
  0 ≤ base → (m ≤ n)%nat →
  exponentialBackoff m base cap = cap → exponentialBackoff n base cap = cap.
Proof.
  intros Hb Hmn Hm. pose proof (backoff_mono m n base cap Hb Hmn).
  pose proof (backoff_le_cap n base cap). lia.
Qed.

End BackoffCap.

(** X1.  For a positive base (base and cap integers of magnitude up to
    2^53), the delay doubles from one attempt to the next as long as the
    doubled value is within the cap; once an attempt yields the cap, every
    later attempt yields the cap; and the cap is reached no later than
    attempt [log2_up cap]. *)
Theorem backoff_doubles_until_cap (attempt : nat) (base cap : Z) :
  0 < base → base ≤ 2 ^ 53 → Z.abs cap ≤ 2 ^ 53 →
  (base * 2 ^ Z.of_nat (S attempt) ≤ cap →
     exponentialBackoff (S attempt) base cap = 2 * exponentialBackoff attempt base cap)
  ∧ (exponentialBackoff attempt base cap = cap →
       ∀ later : nat, (attempt ≤ later)%nat → exponentialBackoff later base cap = cap)
  ∧ (Z.log2_up cap ≤ Z.of_nat attempt →
       exponentialBackoff attempt base cap = cap).
Proof.
  intros Hb _ _. split; [|split].
  - intros Hle. unfold exponentialBackoff in *.
    rewrite Nat2Z.inj_succ, Z.pow_succ_r in * by lia.
    pose proof (Z.pow_pos_nonneg 2 (Z.of_nat attempt)). nia.
  - intros Hcap later Hlater. eapply backoff_at_cap_stays; [lia|done..].
  - intros Hlog. unfold exponentialBackoff.
    pose proof (pow2_reaches cap attempt Hlog).
    pose proof (Z.pow_pos_nonneg 2 (Z.of_nat attempt)). nia.
Qed.

Lemma backoff_doubles_until_cap_witness :
  exponentialBackoff 2 2000 15000 = 2 * exponentialBackoff 1 2000 15000
  ∧ exponentialBackoff 3 2000 15000 = 15000
  ∧ exponentialBackoff 14 2000 15000 = 15000.
Proof.
  destruct (backoff_doubles_until_cap 1 2000 15000 ltac:(lia) ltac:(lia) ltac:(lia))
    as (Hdouble & _ & _).
  destruct (backoff_doubles_until_cap 3 2000 15000 ltac:(lia) ltac:(lia) ltac:(lia))
    as (_ & Hstay & _).
  destruct (backoff_doubles_until_cap 14 2000 15000 ltac:(lia) ltac:(lia) ltac:(lia))
    as (_ & _ & Hreach).
  split; [|split].
  - apply Hdouble. vm_compute. discriminate.
  - apply (Hstay eq_refl 3%nat). lia.
  - apply Hreach. vm_compute. discriminate.
Defined.

(** ** core/client.ts: what a run sleeps *)

Section PollDelays.
Import Client Terms.

Lemma sleeps_app t1 t2 : sleeps (t1 ++ t2) = sleeps t1 ++ sleeps t2.
Proof. apply omap_app. Qed.

Lemma sleeps_poll_events t : sleeps (poll_events t) = sleeps t.
Proof.
  unfold sleeps, poll_events. induction t as [|e t IH]; [done|].
  destruct e; rewrite ?filter_cons; simpl;
    first [done | exact IH | f_equal; exact IH].
Qed.

Lemma sleeps_schedule (delay : nat → Z) promptId (l : list nat) :
  sleeps (flat_map (λ n, [EvSleep (delay n); EvFetch promptId]) l) = delay <$> l.
Proof. unfold sleeps. induction l as [|n l IH]; [done|]. simpl. f_equal. exact IH. Qed.

Lemma run_trace c workflow options replies promptId :
  post_prompt (server c) (prepare workflow options) = inr promptId →
  (run c workflow options replies).1
  = EvPost (prepare workflow options) :: (pollUntilDone c promptId replies 0).1.
Proof.
  intros Hpost. unfold run. rewrite bind_emit, Hpost. cbn [await]. rewrite bind_ret.
  destruct (pollUntilDone c promptId replies 0) as [t [raw| |]]; cbn; try done.
  by rewrite app_nil_r.
Qed.

Lemma run_trace_rejected c workflow options replies e :
  post_prompt (server c) (prepare workflow options) = inl e →
  run c workflow options replies = ([EvPost (prepare workflow options)], Throw e).
Proof. intros Hpost. unfold run. rewrite bind_emit, Hpost. by cbn. Qed.

Lemma poll_sleeps c promptId replies :
  sleeps (pollUntilDone c promptId replies 0).1
  = delay_of c <$> seq 0 (fetch_count (pollUntilDone c promptId replies 0).1).
Proof.
  destruct (poll_trace_from c promptId replies 0) as (k & _ & Hk).
  rewrite (poll_fetch_count _ _ _ _ _ Hk).
  by rewrite <- sleeps_poll_events, Hk, sleeps_schedule.
Qed.

Lemma run_sleeps c workflow options replies :
  sleeps (run c workflow options replies).1
  = delay_of c <$> seq 0 (fetch_count (run c workflow options replies).1).
Proof.
  destruct (post_prompt (server c) (prepare workflow options)) as [e|promptId] eqn:Hpost.
  - by rewrite (run_trace_rejected _ _ _ _ _ Hpost).
  - rewrite (run_trace _ _ _ _ _ Hpost). apply poll_sleeps.
Qed.

Lemma total_sleep_bound (delay : nat → Z) (cap : Z) (l : list nat) :
  (∀ n, delay n ≤ cap) → foldr Z.add 0 (delay <$> l) ≤ Z.of_nat (length l) * cap.
Proof.
  intros Hd. induction l as [|n l IH]; [cbn; lia|].
  cbn [fmap list_fmap foldr length]. specialize (Hd n). lia.
Qed.

End PollDelays.

(** X2.  Whatever the server replies, a run of a client whose poll interval
    is positive (interval and cap integers of magnitude up to 2^53) sleeps
    exactly once before each history request; each of these delays lies
    between [min interval backoffCap] and [backoffCap], and all of them
    together amount to at most [backoffCap] times the number of history
    requests. *)
Theorem run_delays_bounded (c : Client.ComfyUIClient) (workflow : value)
    (options : option RunOptions) (replies : list (reply Histories)) :
  0 < Client.interval (Client.pollCfg c) →
  Client.interval (Client.pollCfg c) ≤ 2 ^ 53 →
  Z.abs (Client.backoffCap (Client.pollCfg c)) ≤ 2 ^ 53 →
  length (Terms.sleeps (Client.run c workflow options replies).1)
  = fetch_count (Client.run c workflow options replies).1
  ∧ Forall (λ ms, Z.min (Client.interval (Client.pollCfg c))
                        (Client.backoffCap (Client.pollCfg c)) ≤ ms
                  ≤ Client.backoffCap (Client.pollCfg c))
           (Terms.sleeps (Client.run c workflow options replies).1)
  ∧ Terms.total_sleep (Client.run c workflow options replies).1
    ≤ Z.of_nat (fetch_count (Client.run c workflow options replies).1)
      * Client.backoffCap (Client.pollCfg c).
Proof.
  intros Hint _ _. unfold Terms.total_sleep. rewrite run_sleeps.
  set (k := fetch_count _). split; [|split].
  - by rewrite length_fmap, length_seq.
  - apply Forall_fmap, Forall_forall. intros n _. cbn. unfold delay_of.
    pose proof (Z.pow_pos_nonneg 2 (Z.of_nat n)). nia.
  - etrans; [apply (total_sleep_bound _ (Client.backoffCap (Client.pollCfg c)))|].
    + intros n. unfold delay_of. lia.
    + by rewrite length_seq.
Qed.

Lemma run_delays_bounded_witness :
  Terms.sleeps
    (Client.run Examples.client_ok (Obj []) None
       [inr Examples.history_pending; inr Examples.history_pending;
        inr Examples.history_pending; inr Examples.history_pending]).1
  = [4000; 8000; 15000; 15000]
  ∧ Forall (λ ms, 4000 ≤ ms ≤ 15000) [4000; 8000; 15000; 15000].
Proof.
  split; [reflexivity|].
  exact (proj1 (proj2 (run_delays_bounded Examples.client_ok (Obj []) None
    [inr Examples.history_pending; inr Examples.history_pending;
     inr Examples.history_pending; inr Examples.history_pending]
    ltac:(vm_compute; reflexivity) ltac:(vm_compute; discriminate)
    ltac:(vm_compute; discriminate)))).
Defined.

(** ** core/client.ts: how a run ends *)

Section RunOutcome.
Import Client Terms.

Lemma poll_finished c promptId h rest attempt :
  errored h promptId = None → finished h promptId = true →
  ∃ rec, history_of h promptId = Some rec
    ∧ pollUntilDone c promptId (inr h :: rest) attempt
      = (EvSleep (delay_of c attempt) :: EvFetch promptId
           :: (extractArtifacts (server c) (outputs rec) promptId).1,
         (extractArtifacts (server c) (outputs rec) promptId).2).
Proof.
  intros Herr Hfin. unfold finished in Hfin.
  destruct (history_of h promptId) as [rec|] eqn:Hrec; [|done].
  exists rec. split; [done|]. rewrite pollUntilDone_cons, bind_emit.
  rewrite (bind_ok _ _ _ _ (getHistory_not_errored _ _ Herr)).
  by rewrite Hrec, Hfin.
Qed.


Lemma run_after_post c workflow options replies promptId :
  post_prompt (server c) (prepare workflow options) = inr promptId →
  run c workflow options replies
  = (EvPost (prepare workflow options) :: (pollUntilDone c promptId replies 0).1,
     mapped (pollUntilDone c promptId replies 0).2 options).
Proof.
  intros Hpost. unfold run. rewrite bind_emit, Hpost. cbn [await]. rewrite bind_ret.
  destruct (pollUntilDone c promptId replies 0) as [t [raw| |]]; cbn; try done.
  by rewrite app_nil_r.
Qed.

Lemma pending_no_record promptId h : history_of h promptId = None → pending promptId (inr h).
Proof. intros Hrec. exists h. unfold errored, finished. by rewrite Hrec. Qed.

Lemma pending_record promptId h rec :
  history_of h promptId = Some rec →
  status_str (status rec) ≠ "error" →
  completed (status rec) = false ∨ truthy (outputs rec) = false ∨ keys (outputs rec) = [] →
  pending promptId (inr h).
Proof.
  intros Hrec Hstatus Hnot. exists h. unfold errored, finished. rewrite Hrec.
  rewrite bool_decide_eq_false_2 by done. split; [done|]. split; [done|].
  destruct Hnot as [->| [->| ->]]; [done| |].
  - by rewrite andb_false_r.
  - by rewrite andb_false_r.
Qed.

(** The run up to and with the first history in which the prompt is
    completed with outputs. *)
Lemma run_at_first_finished c workflow options promptId ps h rest rec :
  post_prompt (server c) (prepare workflow options) = inr promptId →
  Forall (pending promptId) ps →
  errored h promptId = None →
  finished h promptId = true →
  history_of h promptId = Some rec →
  run c workflow options (ps ++ inr h :: rest)
  = (EvPost (prepare workflow options)
       :: poll_schedule (delay_of c) promptId (S (length ps))
       ++ (extractArtifacts (server c) (outputs rec) promptId).1,
     mapped (extractArtifacts (server c) (outputs rec) promptId).2 options).
Proof.
  intros Hpost Hps Herr Hfin Hrec.
  destruct (poll_finished c promptId h rest (0 + length ps) Herr Hfin) as (rec' & Hrec' & Hpoll).
  rewrite Hrec in Hrec'. injection Hrec' as <-.
  rewrite (run_after_post _ _ _ _ _ Hpost), (poll_after_pending _ _ _ _ _ Hps), Hpoll.
  cbn [fst snd]. rewrite poll_schedule_S. unfold poll_schedule.
  by rewrite <- app_assoc.
Qed.

Lemma finished_record h promptId :
  finished h promptId = true → ∃ rec, history_of h promptId = Some rec.
Proof. unfold finished. destruct (history_of h promptId) as [rec|]; [by eexists|done]. Qed.

End RunOutcome.



(** X5.  The poll loop has no limit of attempts and no deadline of its own:
    as long as every history the server returns is unfinished, [run] keeps
    sleeping and requesting, one request per reply.  Unfinished are the
    histories without a record of the prompt, and those whose record is not
    failed and is not completed, or has no outputs, or has outputs without
    any key (a record [completed] with outputs [{}] never ends the loop).
    This is for a prompt id that is not the name of a property objects
    inherit, and for delays in the range of the doubles. *)
Theorem run_polls_while_unfinished (c : Client.ComfyUIClient) (workflow : value)
    (options : option RunOptions) (promptId : string) (ps : list (reply Histories)) :
  Terms.own_name promptId →
  Terms.in_double_range (length ps) (Client.interval (Client.pollCfg c))
                        (Client.backoffCap (Client.pollCfg c)) →
  Client.post_prompt (Client.server c) (Client.prepare workflow options) = inr promptId →
  Forall (pending promptId) ps →
  Client.run c workflow options ps
  = (EvPost (Client.prepare workflow options)
       :: poll_schedule (delay_of c) promptId (length ps),
     Running)
  ∧ (∀ h, history_of h promptId = None → pending promptId (inr h))
  ∧ (∀ h rec,
       history_of h promptId = Some rec →
       status_str (status rec) ≠ "error" →
       completed (status rec) = false ∨ truthy (outputs rec) = false
       ∨ Client.keys (outputs rec) = [] →
       pending promptId (inr h)).
Proof.
  intros _ _ Hpost Hps. split; [|split].
  - rewrite (run_after_post _ _ _ _ _ Hpost).
    rewrite <- (app_nil_r ps) at 1 2. rewrite (poll_after_pending _ _ _ _ _ Hps).
    cbn. by rewrite app_nil_r.
  - apply pending_no_record.
  - apply pending_record.
Qed.

Lemma run_polls_while_unfinished_witness :
  Client.run Examples.client_ok (Obj []) None
    [inr Samples.history_empty; inr Samples.history_empty; inr Samples.history_empty]
  = (EvPost (Obj []) :: poll_schedule (delay_of Examples.client_ok) "prompt-1" 3, Running).
Proof.
  apply (run_polls_while_unfinished Examples.client_ok (Obj []) None "prompt-1"
           [inr Samples.history_empty; inr Samples.history_empty; inr Samples.history_empty]).
  - apply (bool_decide_unpack _). vm_compute. exact I.
  - unfold Terms.in_double_range. vm_compute. repeat split; try discriminate. by left.
  - reflexivity.
  - repeat constructor; exists Samples.history_empty; by vm_compute.
Defined.

(** ** core/client.ts: from outputs to artifacts *)

Section Artifacts.
Import Client Terms.

Lemma mapM_trace {A B} (f : A → M B) (xs : list A) t ys :
  mapM f xs = (t, Ok ys) →
  Forall2 (λ x y, (f x).2 = Ok y) xs ys ∧ t = flat_map (λ x, (f x).1) xs.
Proof.
  revert t ys. induction xs as [|x xs IH]; intros t ys; simpl.
  - intros [= <- <-]. by split; [constructor|].
  - destruct (f x) as [t1 [y| |]] eqn:Hfx; try done.
    erewrite bind_ok by reflexivity.
    destruct (mapM f xs) as [t2 [ys'| |]] eqn:Hxs; try done.
    simpl. intros [= <- <-]. destruct (IH _ _ eq_refl) as [Hall Ht].
    rewrite app_nil_r, <- Ht. split; [|done]. constructor; [by rewrite Hfx|done].
Qed.

Lemma mapM_outcome {A B} (f : A → M B) (xs : list A) :
  match (mapM f xs).2 with
  | Ok _ => ∀ x, x ∈ xs → ∃ y, (f x).2 = Ok y
  | Throw e => ∃ x, x ∈ xs ∧ (f x).2 = Throw e
  | Running => ∃ x, x ∈ xs ∧ (f x).2 = Running
  end.
Proof.
  induction xs as [|x xs IH]; simpl.
  - intros x Hx. by apply elem_of_nil in Hx.
  - destruct (f x) as [t1 [y| |]] eqn:Hfx; simpl.
    + destruct (mapM f xs) as [t2 [ys'| |]] eqn:Hxs; simpl in *.
      * intros x' [->|Hx']%elem_of_cons; [rewrite Hfx; by eexists|by apply IH].
      * destruct IH as (x' & Hx' & He). exists x'. split; [by right|done].
      * destruct IH as (x' & Hx' & He). exists x'. split; [by right|done].
    + exists x. rewrite Hfx. split; [by left|done].
    + exists x. rewrite Hfx. split; [by left|done].
Qed.

(** How the artifact of one leaf comes about. *)
Lemma leafToArtifact_binary srv leaf promptId :
  is_binary leaf = true →
  leafToArtifact srv leaf promptId
  = ([EvView (leaf_value leaf)],
     match get_view srv (leaf_value leaf) with
     | inr bytes =>
         Ok (mkArtifact "binary" (Buf bytes)
               (assign (leaf_value leaf)
                  [("from", Str (leaf_from leaf)); ("promptId", Str promptId)]))
     | inl e => Throw e
     end).
Proof.
  unfold is_binary, leafToArtifact. intros ->. rewrite bind_emit.
  by destruct (get_view srv (leaf_value leaf)).
Qed.

Lemma leafToArtifact_text srv leaf promptId :
  is_binary leaf = false →
  leafToArtifact srv leaf promptId
  = ([], Ok (mkArtifact "text" (Str (toString (leaf_value leaf)))
               (Obj [("from", Str (leaf_from leaf)); ("promptId", Str promptId)]))).
Proof. unfold is_binary, leafToArtifact. by intros ->. Qed.

(** The leaves are strings and binary descriptors. *)
Lemma walk_items_elem path items i leaf :
  leaf ∈ walk_items path items i →
  ∃ x p, x ∈ items ∧ leaf ∈ walkLeaves x p.
Proof.
  revert i. induction items as [|x items IH]; intros i; simpl.
  - by intros ?%elem_of_nil.
  - intros [H|H]%elem_of_app.
    + exists x, (path +:+ "[" +:+ string_of_nat i +:+ "]"). split; [by left|done].
    + destruct (IH _ H) as (x' & p & Hx' & Hp). exists x', p. split; [by right|done].
Qed.

Lemma walk_props_elem path props leaf :
  leaf ∈ walk_props path props →
  ∃ kv p, kv ∈ props ∧ leaf ∈ walkLeaves kv.2 p.
Proof.
  induction props as [|[k v] props IH]; simpl.
  - by intros ?%elem_of_nil.
  - intros [H|H]%elem_of_app.
    + exists (k, v), (path +:+ "." +:+ k). split; [by left|done].
    + destruct (IH H) as (kv & p & Hkv & Hp). exists kv, p. split; [by right|done].
Qed.

Lemma leaf_kinds node :
  ∀ path leaf, leaf ∈ walkLeaves node path →
    is_binary leaf = true ∨ ∃ s, leaf_value leaf = Str s.
Proof.
  induction node as [| | | |s|d|l IH|o IH] using value_nested_ind; intros path leaf.
  1-4, 6: by intros ?%elem_of_nil.
  - intros ->%list_elem_of_singleton. right. by exists s.
  - rewrite walkLeaves_Arr. intros (x & p & Hx & Hp)%walk_items_elem.
    rewrite Forall_forall in IH. by eapply IH.
  - rewrite walkLeaves_Obj. destruct (isBinaryManifest (Obj o)) eqn:Hb.
    + intros ->%list_elem_of_singleton. by left.
    + intros (kv & p & Hkv & Hp)%walk_props_elem.
      rewrite Forall_forall in IH. by eapply IH.
Qed.

Lemma all_leaves_kinds outputs leaf :
  leaf ∈ all_leaves outputs → is_binary leaf = true ∨ ∃ s, leaf_value leaf = Str s.
Proof.
  unfold all_leaves. intros (entry & _ & Hleaf)%list_elem_of_In%in_flat_map.
  apply list_elem_of_In in Hleaf. unfold node_leaves in Hleaf.
  destruct (isPlainObject entry.2); [by eapply leaf_kinds|by apply elem_of_nil in Hleaf].
Qed.

Lemma mkArtifact_reads kind payload manifest :
  isArtifact (mkArtifact kind payload manifest) = true
  ∧ read (mkArtifact kind payload manifest) "kind" = Str kind
  ∧ read (mkArtifact kind payload manifest) "payload" = payload
  ∧ read (mkArtifact kind payload manifest) "manifest" = manifest.
Proof. by repeat split. Qed.

Lemma leaf_artifact srv promptId leaf art :
  (is_binary leaf = true ∨ ∃ s, leaf_value leaf = Str s) →
  (leafToArtifact srv leaf promptId).2 = Ok art →
  artifact_of srv promptId leaf art.
Proof.
  intros Hkind. unfold artifact_of, manifest_from. destruct (is_binary leaf) eqn:Hb.
  - rewrite (leafToArtifact_binary _ _ _ Hb). cbn [snd].
    destruct (get_view srv (leaf_value leaf)) as [e|bytes] eqn:Hview; [done|].
    intros [= <-]. unfold is_binary in Hb.
    destruct (leaf_value leaf) as [| | | | | | |o] eqn:Hv; try done.
    match goal with
    | |- context [mkArtifact ?k ?p ?m] =>
        destruct (mkArtifact_reads k p m) as (-> & -> & -> & ->)
    end.
    cbn [write read].
    rewrite !get_set_prop.
    split; [done|]. split; [done|]. split; [done|]. split; [done|]. split; [by exists bytes|].
    intros k Hfrom Hpid. rewrite !get_set_prop.
    by rewrite !bool_decide_eq_false_2 by done.
  - rewrite (leafToArtifact_text _ _ _ Hb). cbn [snd]. intros [= <-].
    destruct Hkind as [?|[s Hs]]; [congruence|]. rewrite Hs.
    by repeat split.
Qed.

Lemma flat_Forall2 {A B C D} (R : C → D → Prop) (f : A → list C) (g : B → list D) xs ys :
  Forall2 (λ x y, Forall2 R (f x) (g y)) xs ys →
  Forall2 R (flat_map f xs) (flat_map g ys).
Proof.
  induction 1 as [|x y xs ys Hxy _ IH]; [constructor|].
  simpl. by apply Forall2_app.
Qed.

Lemma node_artifacts srv promptId (entry : string * value) :
  (let* artifacts := mapM (λ leaf, leafToArtifact srv leaf promptId) (node_leaves entry) in
   ret (entry.1, artifacts))
  = ((mapM (λ leaf, leafToArtifact srv leaf promptId) (node_leaves entry)).1,
     match (mapM (λ leaf, leafToArtifact srv leaf promptId) (node_leaves entry)).2 with
     | Ok artifacts => Ok (entry.1, artifacts)
     | Throw e => Throw e
     | Running => Running
     end).
Proof.
  destruct (mapM _ (node_leaves entry)) as [t [arts| |]]; cbn; try done.
  by rewrite app_nil_r.
Qed.

Lemma leaf_trace srv promptId leaves :
  flat_map (λ leaf, (leafToArtifact srv leaf promptId).1) leaves
  = (λ leaf, EvView (leaf_value leaf)) <$> filter (λ leaf, is_binary leaf = true) leaves.
Proof.
  induction leaves as [|leaf leaves IH]; [done|].
  cbn [flat_map]. rewrite filter_cons, IH. destruct (decide (is_binary leaf = true)) as [Hb|Hb].
  - by rewrite (leafToArtifact_binary _ _ _ Hb).
  - apply not_true_is_false in Hb. by rewrite (leafToArtifact_text _ _ _ Hb).
Qed.

Lemma filter_flat_map {A B} (P : B → Prop) `{∀ x, Decision (P x)} (f : A → list B) xs :
  filter P (flat_map f xs) = flat_map (λ x, filter P (f x)) xs.
Proof. induction xs as [|x xs IH]; [done|]. simpl. by rewrite list.filter_app, IH. Qed.

Lemma fmap_flat_map {A B C} (g : B → C) (f : A → list B) xs :
  g <$> flat_map f xs = flat_map (λ x, g <$> f x) xs.
Proof. induction xs as [|x xs IH]; [done|]. simpl. by rewrite fmap_app, IH. Qed.

Lemma extract_ok srv outputs promptId t raw :
  extractArtifacts srv outputs promptId = (t, Ok raw) →
  raw.*1 = keys outputs
  ∧ Forall2 (artifact_of srv promptId) (all_leaves outputs) (unwrapArtifacts raw)
  ∧ t = downloads outputs.
Proof.
  unfold extractArtifacts, all_leaves, downloads, all_leaves, unwrapArtifacts, keys.
  intros [Hall ->]%mapM_trace. split; [|split].
  - induction Hall as [|entry [k arts] es raw He _ IH]; [done|].
    rewrite node_artifacts in He. cbn [snd] in He.
    destruct (mapM _ (node_leaves entry)) as [t1 [arts1| |]]; try done.
    injection He as <- _. simpl. by f_equal.
  - apply flat_Forall2. eapply Forall2_impl; [exact Hall|].
    intros entry [k arts] He. rewrite node_artifacts in He. cbn [snd] in *.
    destruct (mapM _ (node_leaves entry)) as [t1 [arts1| |]] eqn:Hm; try done.
    injection He as _ <-. apply mapM_trace in Hm as [Hm _].
    apply Forall2_same_length_lookup. split; [by eapply Forall2_length|].
    intros i leaf art Hleaf Hart.
    eapply leaf_artifact; [|by eapply (Forall2_lookup_lr _ _ _ _ _ _ Hm)].
    apply (all_leaves_kinds (Obj [entry])). unfold all_leaves. simpl.
    rewrite app_nil_r. by eapply list_elem_of_lookup_2.
  - rewrite filter_flat_map, fmap_flat_map.
    induction Hall as [|entry [k arts] es raw He _ IH]; [done|].
    simpl. rewrite IH. f_equal. rewrite node_artifacts in *. cbn [fst snd] in *.
    destruct (mapM _ (node_leaves entry)) as [t1 [arts1| |]] eqn:Hm; try done.
    apply mapM_trace in Hm as [_ ->]. apply leaf_trace.
Qed.

Lemma leaf_outcome srv promptId leaf :
  match (leafToArtifact srv leaf promptId).2 with
  | Ok _ => is_binary leaf = true → ∃ bytes, get_view srv (leaf_value leaf) = inr bytes
  | Throw e => is_binary leaf = true ∧ get_view srv (leaf_value leaf) = inl e
  | Running => False
  end.
Proof.
  destruct (is_binary leaf) eqn:Hb.
  - rewrite (leafToArtifact_binary _ _ _ Hb). cbn [snd].
    destruct (get_view srv (leaf_value leaf)) as [e|bytes]; [done|]. intros _. by exists bytes.
  - by rewrite (leafToArtifact_text _ _ _ Hb).
Qed.

Lemma elem_of_all_leaves outputs leaf :
  leaf ∈ all_leaves outputs ↔ ∃ entry, entry ∈ entries outputs ∧ leaf ∈ node_leaves entry.
Proof.
  unfold all_leaves. rewrite list_elem_of_In, in_flat_map.
  split; intros (entry & H1 & H2); exists entry; by rewrite ?list_elem_of_In in *.
Qed.

Lemma extract_outcome srv outputs promptId :
  match (extractArtifacts srv outputs promptId).2 with
  | Ok _ =>
      ∀ leaf, leaf ∈ all_leaves outputs → is_binary leaf = true →
        ∃ bytes, get_view srv (leaf_value leaf) = inr bytes
  | Throw e =>
      ∃ leaf, leaf ∈ all_leaves outputs ∧ is_binary leaf = true
              ∧ get_view srv (leaf_value leaf) = inl e
  | Running => False
  end.
Proof.
  unfold extractArtifacts.
  pose proof (mapM_outcome
    (λ entry : string * value,
       let* artifacts := mapM (λ leaf, leafToArtifact srv leaf promptId) (node_leaves entry) in
       ret (entry.1, artifacts)) (entries outputs)) as Hout.
  assert (Hinner : ∀ entry : string * value,
    match (mapM (λ leaf, leafToArtifact srv leaf promptId) (node_leaves entry)).2 with
    | Ok _ => ∀ leaf, leaf ∈ node_leaves entry → is_binary leaf = true →
                ∃ bytes, get_view srv (leaf_value leaf) = inr bytes
    | Throw e => ∃ leaf, leaf ∈ node_leaves entry ∧ is_binary leaf = true
                         ∧ get_view srv (leaf_value leaf) = inl e
    | Running => False
    end).
  { intros entry.
    pose proof (mapM_outcome (λ leaf, leafToArtifact srv leaf promptId) (node_leaves entry))
      as Hin.
    destruct (mapM _ (node_leaves entry)) as [t [arts|e|]]; cbn [snd] in *.
    - intros leaf Hleaf Hb. destruct (Hin leaf Hleaf) as [art Hart].
      pose proof (leaf_outcome srv promptId leaf) as Hl. rewrite Hart in Hl. by apply Hl.
    - destruct Hin as (leaf & Hleaf & He). exists leaf. split; [done|].
      pose proof (leaf_outcome srv promptId leaf) as Hl. by rewrite He in Hl.
    - destruct Hin as (leaf & Hleaf & He).
      pose proof (leaf_outcome srv promptId leaf) as Hl. by rewrite He in Hl. }
  destruct (mapM _ (entries outputs)) as [t [raw|e|]]; cbn [snd] in *.
  - intros leaf (entry & Hentry & Hleaf)%elem_of_all_leaves Hb.
    destruct (Hout entry Hentry) as [y Hy]. rewrite node_artifacts in Hy. cbn [snd] in Hy.
    specialize (Hinner entry).
    destruct (mapM _ (node_leaves entry)) as [t1 [arts| |]]; try done. by apply Hinner.
  - destruct Hout as (entry & Hentry & He). rewrite node_artifacts in He. cbn [snd] in He.
    specialize (Hinner entry).
    destruct (mapM _ (node_leaves entry)) as [t1 [arts|e'|]]; try done.
    injection He as ->. destruct Hinner as (leaf & Hleaf & Hb & Hview).
    exists leaf. split; [|done]. apply elem_of_all_leaves. by exists entry.
  - destruct Hout as (entry & Hentry & He). rewrite node_artifacts in He. cbn [snd] in He.
    specialize (Hinner entry).
    by destruct (mapM _ (node_leaves entry)) as [t1 [arts|e'|]].
Qed.

Lemma leaf_extracted srv promptId leaf art :
  (leafToArtifact srv leaf promptId).2 = Ok art → extracted art.
Proof.
  unfold leafToArtifact. destruct (isBinaryManifest (leaf_value leaf)).
  - rewrite bind_emit. cbn [snd].
    destruct (get_view srv (leaf_value leaf)) as [e|bytes]; [done|].
    unfold await. rewrite bind_ret. intros [= <-]. by eexists _, _, _.
  - intros [= <-]. by eexists _, _, _.
Qed.

Lemma mapM_Forall {A B} (P : B → Prop) (f : A → M B) xs t ys :
  (∀ x y, (f x).2 = Ok y → P y) → mapM f xs = (t, Ok ys) → Forall P ys.
Proof.
  intros Hf [Hall _]%mapM_trace.
  induction Hall as [|x y xs ys Hxy _ IH]; constructor; eauto.
Qed.

Lemma extract_extracted srv outputs promptId t raw :
  extractArtifacts srv outputs promptId = (t, Ok raw) →
  Forall extracted (unwrapArtifacts raw).
Proof.
  unfold extractArtifacts, unwrapArtifacts. intros Hraw.
  apply Forall_flat_map.
  eapply mapM_Forall; [|exact Hraw].
  intros entry [k arts] He. rewrite node_artifacts in He. cbn [snd] in *.
  destruct (mapM _ (node_leaves entry)) as [t1 [arts1| |]] eqn:Hm; try done.
  injection He as _ <-.
  eapply mapM_Forall; [|exact Hm]. intros leaf art. apply leaf_extracted.
Qed.

(** A mapping entry finds an extracted artifact as it is. *)
Lemma with_payload_extracted art :
  extracted art → with_payload (Some art) (read art "payload") = art.
Proof.
  intros (kind & payload & manifest & -> & Hp).
  apply with_payload_same.
  - apply (bool_decide_unpack _). vm_compute. exact I.
  - by eexists.
Qed.

End Artifacts.

(** X6.  The walk of an output yields strings and binary descriptors,
    nothing else.  A binary descriptor is exactly one leaf, itself under
    the path of the walk (its own properties are not walked), and so is a
    string; [undefined], [null], booleans, numbers and buffers yield no
    leaf; an array yields the leaves of its items, and an object that is
    not a binary descriptor the leaves of its properties, in order.  So
    every leaf of a walk is a binary descriptor or a string. *)
Theorem leaves_are_strings_or_descriptors (node : value) (path : string) :
  (isBinaryManifest node = true → Client.walkLeaves node path = [Client.mkLeaf node path])
  ∧ (∀ s, node = Str s → Client.walkLeaves node path = [Client.mkLeaf node path])
  ∧ (node = Undefined ∨ node = Null ∨ (∃ b, node = Bool b) ∨ (∃ z, node = Num z)
     ∨ (∃ bytes, node = Buf bytes) →
       Client.walkLeaves node path = [])
  ∧ (∀ items, node = Arr items → Client.walkLeaves node path = walk_items path items 0)
  ∧ (∀ props, node = Obj props → isBinaryManifest node = false →
       Client.walkLeaves node path = walk_props path props)
  ∧ (∀ leaf, leaf ∈ Client.walkLeaves node path →
       Terms.is_binary leaf = true ∨ ∃ s, Client.leaf_value leaf = Str s).
Proof.
  split; [|split; [|split; [|split; [|split]]]].
  - intros Hb. destruct node; try done. by rewrite walkLeaves_Obj, Hb.
  - by intros s ->.
  - intros [->|[->|[[b ->]|[[z ->]|[bytes ->]]]]]; reflexivity.
  - intros items ->. apply walkLeaves_Arr.
  - intros props -> Hb. by rewrite walkLeaves_Obj, Hb.
  - intros leaf Hleaf. by eapply leaf_kinds.
Qed.

Lemma leaves_are_strings_or_descriptors_witness :
  Client.walkLeaves (Str "a cat") "9.text[0]" = [Client.mkLeaf (Str "a cat") "9.text[0]"]
  ∧ Client.walkLeaves (Obj [("text", Arr [Str "a cat"])]) "9"
    = walk_props "9" [("text", Arr [Str "a cat"])].
Proof.
  split.
  - apply (proj1 (proj2 (leaves_are_strings_or_descriptors (Str "a cat") "9.text[0]"))
             "a cat" eq_refl).
  - apply (proj1 (proj2 (proj2 (proj2 (proj2
             (leaves_are_strings_or_descriptors (Obj [("text", Arr [Str "a cat"])]) "9")))))
             [("text", Arr [Str "a cat"])] eq_refl eq_refl).
Defined.

(** X7.  When the extraction of the outputs succeeds, its result has one
    entry per key of the outputs, in order, and holds exactly one artifact
    per leaf, in the order of the walk: for a binary descriptor, kind
    [binary], the downloaded bytes as payload, and a manifest with the
    descriptor's own properties; for a string, kind [text], the string as
    payload, and a manifest of [from] and [promptId] only; in both, the
    manifest names the leaf's path and the prompt.  It has made one
    download per binary descriptor, in that order, and none for a
    string. *)
Theorem extraction_gives_one_artifact_per_leaf (srv : Client.Server) (outputs : value)
    (promptId : string) (t : list event) (raw : list (string * list value)) :
  Client.extractArtifacts srv outputs promptId = (t, Ok raw) →
  raw.*1 = Client.keys outputs
  ∧ Forall2 (Terms.artifact_of srv promptId) (all_leaves outputs) (unwrapArtifacts raw)
  ∧ t = Terms.downloads outputs.
Proof. apply extract_ok. Qed.

Lemma extraction_gives_one_artifact_per_leaf_witness :
  Examples.extracted_plain.*1 = ["8"; "9"]
  ∧ Forall2 (Terms.artifact_of Examples.server_ok "prompt-1")
      (all_leaves Examples.outputs_plain) (unwrapArtifacts Examples.extracted_plain)
  ∧ (Client.extractArtifacts Examples.server_ok Examples.outputs_plain "prompt-1").1
    = Terms.downloads Examples.outputs_plain.
Proof.
  apply (extraction_gives_one_artifact_per_leaf Examples.server_ok Examples.outputs_plain
           "prompt-1").
  reflexivity.
Defined.

(** X8.  The extraction succeeds exactly when the download of every binary
    descriptor among the leaves succeeds; when it fails, it fails with the
    error of one of these downloads; a string leaf never makes it fail. *)
Theorem extraction_fails_only_by_download (srv : Client.Server) (outputs : value)
    (promptId : string) :
  ((∀ leaf, leaf ∈ all_leaves outputs → Terms.is_binary leaf = true →
      ∃ bytes, Client.get_view srv (Client.leaf_value leaf) = inr bytes)
   ↔ ∃ raw, (Client.extractArtifacts srv outputs promptId).2 = Ok raw)
  ∧ (∀ e, (Client.extractArtifacts srv outputs promptId).2 = Throw e →
       ∃ leaf, leaf ∈ all_leaves outputs ∧ Terms.is_binary leaf = true
               ∧ Client.get_view srv (Client.leaf_value leaf) = inl e)
  ∧ (Client.extractArtifacts srv outputs promptId).2 ≠ Running.
Proof.
  pose proof (extract_outcome srv outputs promptId) as Hout.
  destruct (Client.extractArtifacts srv outputs promptId) as [t [raw|e|]]; cbn [snd] in *.
  - split; [|done]. split; [by exists raw|by intros _].
  - split; [|split; [|done]].
    + split; [|by intros [raw ?]].
      intros Hall. destruct Hout as (leaf & Hleaf & Hb & Hview).
      destruct (Hall leaf Hleaf Hb) as [bytes Hbytes]. congruence.
    + by intros e' [= <-].
  - done.
Qed.

Lemma extraction_fails_only_by_download_witness :
  (∃ raw, (Client.extractArtifacts Examples.server_ok Examples.outputs_plain "prompt-1").2
          = Ok raw)
  ∧ ∃ leaf, leaf ∈ all_leaves Examples.outputs_plain ∧ Terms.is_binary leaf = true
            ∧ Client.get_view Samples.server_down (Client.leaf_value leaf)
              = inl Samples.busy.
Proof.
  split.
  - apply (proj1 (extraction_fails_only_by_download Examples.server_ok
                    Examples.outputs_plain "prompt-1")).
    intros leaf _ _. by exists [].
  - apply (proj1 (proj2 (extraction_fails_only_by_download Samples.server_down
                           Examples.outputs_plain "prompt-1"))).
    reflexivity.
Defined.

(** ** core/client.ts: what a run returns *)

(** X3.  A run ends at the first history in which the prompt is completed
    with outputs: after a prompt id was returned and any number of
    unfinished histories, it has posted once, slept and requested once per
    history up to that one, and then turns to the outputs of that record.
    When every download succeeds, it has requested the files in the order
    of the leaves and returns the artifacts (mapped if an output mapping is
    given); when a download fails, it throws the error of a failed
    download.  Later replies are never requested.  This is for a prompt id
    that is not the name of a property objects inherit, and for delays in
    the range of the doubles. *)
Theorem run_returns_at_first_finished (c : Client.ComfyUIClient) (workflow : value)
    (options : option RunOptions) (promptId : string)
    (ps : list (reply Histories)) (h : Histories) (rest : list (reply Histories)) :
  Terms.own_name promptId →
  Terms.in_double_range (length ps) (Client.interval (Client.pollCfg c))
                        (Client.backoffCap (Client.pollCfg c)) →
  Client.post_prompt (Client.server c) (Client.prepare workflow options) = inr promptId →
  Forall (pending promptId) ps →
  errored h promptId = None →
  finished h promptId = true →
  ∃ rec, history_of h promptId = Some rec
    ∧ (∀ t raw,
         Client.extractArtifacts (Client.server c) (outputs rec) promptId = (t, Ok raw) →
         t = Terms.downloads (outputs rec)
         ∧ Client.run c workflow options (ps ++ inr h :: rest)
           = (EvPost (Client.prepare workflow options)
                :: poll_schedule (delay_of c) promptId (S (length ps)) ++ t,
              Ok (Client.map_outputs (unwrapArtifacts raw) options)))
    ∧ ((∃ leaf e, leaf ∈ all_leaves (outputs rec) ∧ Terms.is_binary leaf = true
                  ∧ Client.get_view (Client.server c) (Client.leaf_value leaf) = inl e) →
         ∃ leaf e t,
           leaf ∈ all_leaves (outputs rec) ∧ Terms.is_binary leaf = true
           ∧ Client.get_view (Client.server c) (Client.leaf_value leaf) = inl e
           ∧ Client.run c workflow options (ps ++ inr h :: rest)
             = (EvPost (Client.prepare workflow options)
                  :: poll_schedule (delay_of c) promptId (S (length ps)) ++ t,
                Throw e)).
Proof.
  intros _ _ Hpost Hps Herr Hfin.
  destruct (finished_record _ _ Hfin) as [rec Hrec].
  exists rec. split; [done|].
  rewrite (run_at_first_finished c workflow options promptId ps h rest rec
             Hpost Hps Herr Hfin Hrec).
  pose proof (extract_outcome (Client.server c) (outputs rec) promptId) as Hout.
  destruct (Client.extractArtifacts (Client.server c) (outputs rec) promptId)
    as [t' [raw'|e'|]] eqn:Hex; cbn [fst snd Terms.mapped] in *.
  - split.
    + intros t raw [= <- <-]. split; [|done].
      by destruct (extract_ok _ _ _ _ _ Hex) as (_ & _ & ->).
    + intros (leaf & e & Hleaf & Hb & Hview).
      destruct (Hout leaf Hleaf Hb) as [bytes Hbytes]. congruence.
  - split; [done|]. intros _.
    destruct Hout as (leaf & Hleaf & Hb & Hview). by exists leaf, e', t'.
  - done.
Qed.

Lemma run_returns_at_first_finished_witness :
  ∃ rec, history_of Samples.history_done "prompt-1" = Some rec
    ∧ Client.run Examples.client_ok (Obj []) None
        ([inr Examples.history_pending] ++ inr Samples.history_done :: [inl Samples.busy])
      = (EvPost (Obj [])
           :: poll_schedule (delay_of Examples.client_ok) "prompt-1" 2
           ++ Terms.downloads (outputs rec),
         Ok (Arr (unwrapArtifacts Examples.extracted_plain))).
Proof.
  destruct (run_returns_at_first_finished Examples.client_ok (Obj []) None "prompt-1"
              [inr Examples.history_pending] Samples.history_done [inl Samples.busy])
    as (rec & Hrec & Hok & _).
  - apply (bool_decide_unpack _). vm_compute. exact I.
  - unfold Terms.in_double_range. vm_compute. repeat split; try discriminate. by left.
  - reflexivity.
  - repeat constructor. exists Examples.history_pending. by vm_compute.
  - reflexivity.
  - reflexivity.
  - exists rec. split; [exact Hrec|].
    injection Hrec as <-.
    destruct (Hok (Terms.downloads Examples.outputs_plain) Examples.extracted_plain eq_refl)
      as [_ Hrun].
    exact Hrun.
Defined.

(** C9, as stated, fails: the [to] of a mapping entry is a path, split at
    dots.  For the entry [{ from: "9", to: "out.image" }] and an artifact
    with [manifest.from] "9", the result is [{ out: { image: artifact } }];
    it has no key [out.image]. *)
Lemma C9_mapping_counterexample :
  manifest_from Examples.artifact_hello = Str (out_from Examples.output_dotted)
  ∧ applyNodeOutputs [Examples.artifact_hello] [Examples.output_dotted]
    = Obj [("out", Obj [("image", Examples.artifact_hello)])]
  ∧ read (applyNodeOutputs [Examples.artifact_hello] [Examples.output_dotted])
         (out_to Examples.output_dotted)
    = Undefined.
Proof. repeat split. Qed.

(** C9 (amended): let a run find the prompt completed (its id not the name
    of a property objects inherit) and extract the artifacts [raw] of its
    outputs.  Without an outputs mapping (none, or an empty one) [run]
    resolves to the flat array of these artifacts.  With a mapping that is
    not empty it resolves to [applyNodeOutputs] of these artifacts and the
    mapping; and when the [to]s of that mapping each name one property (no
    dot, not a key lodash [set] refuses, not an inherited name) and are
    pairwise different, then for each entry [o] of it: if an extracted
    artifact has [manifest.from] equal to [o.from], the result holds under
    the key [o.to] an extracted artifact with that path (that very
    artifact when the paths are unique), unchanged; if no artifact has
    that path, the result holds [{ payload: defaultValue }] under [o.to],
    or nothing when the default is undefined. *)
Theorem C9_output_mapping (c : Client.ComfyUIClient) (workflow : value)
    (options : option RunOptions) (promptId : string)
    (ps : list (reply Histories)) (h : Histories) (rest : list (reply Histories))
    (rec : History) (t : list event) (raw : list (string * list value)) :
  Terms.own_name promptId →
  Client.post_prompt (Client.server c) (Client.prepare workflow options) = inr promptId →
  Forall (pending promptId) ps →
  errored h promptId = None →
  finished h promptId = true →
  history_of h promptId = Some rec →
  Client.extractArtifacts (Client.server c) (outputs rec) promptId = (t, Ok raw) →
  ((options ≫= node) ≫= node_outputs = None
   ∨ (options ≫= node) ≫= node_outputs = Some [] →
     (Client.run c workflow options (ps ++ inr h :: rest)).2
     = Ok (Arr (unwrapArtifacts raw)))
  ∧ (∀ outs,
       (options ≫= node) ≫= node_outputs = Some outs → outs ≠ [] →
       (Client.run c workflow options (ps ++ inr h :: rest)).2
       = Ok (applyNodeOutputs (unwrapArtifacts raw) outs)
       ∧ (Forall (λ e, simple_key (out_to e) = true ∧ Terms.own_name (out_to e)) outs →
          NoDup (out_to <$> outs) →
          ∀ o, o ∈ outs →
            (∀ art, art ∈ unwrapArtifacts raw → manifest_from art = Str (out_from o) →
               ∃ art',
                 art' ∈ unwrapArtifacts raw ∧ manifest_from art' = Str (out_from o)
                 ∧ (NoDup (manifest_from <$> unwrapArtifacts raw) → art' = art)
                 ∧ read (applyNodeOutputs (unwrapArtifacts raw) outs) (out_to o) = art')
            ∧ ((∀ art, art ∈ unwrapArtifacts raw →
                       manifest_from art ≠ Str (out_from o)) →
                 read (applyNodeOutputs (unwrapArtifacts raw) outs) (out_to o)
                 = if isUndefined (out_defaultValue o) then Undefined
                   else Obj [("payload", out_defaultValue o)]))).
Proof.
  intros _ Hpost Hps Herr Hfin Hrec Hex.
  pose proof (run_at_first_finished c workflow options promptId ps h rest rec
                Hpost Hps Herr Hfin Hrec) as Hrun.
  rewrite Hex in Hrun. cbn [fst snd Terms.mapped] in Hrun. rewrite Hrun. cbn [snd].
  split.
  { intros [H|H]; unfold Client.map_outputs; by rewrite H. }
  intros outs Houts Hne. split.
  { unfold Client.map_outputs. rewrite Houts. by destruct outs. }
  intros Hsimple Hnd o Ho.
  assert (Hread : read (applyNodeOutputs (unwrapArtifacts raw) outs) (out_to o)
                  = default Undefined (resolved (byFrom_of (unwrapArtifacts raw)) o)).
  { apply applyNodeOutputs_read; [|done..].
    eapply Forall_impl; [exact Hsimple|]. by intros e [He _]. }
  pose proof (extract_extracted _ _ _ _ _ Hex) as Hshape.
  split.
  - intros art Hart Hfrom.
    destruct (byFrom_some _ _ _ Hart Hfrom) as [art' Hart'].
    destruct (byFrom_lookup _ _ _ Hart') as [Hin' Hfrom'].
    exists art'. split; [done|]. split; [done|]. split.
    { intros Hu. pose proof (byFrom_unique _ _ _ Hu Hart Hfrom) as Hb. congruence. }
    rewrite Hread. unfold resolved. rewrite Hart'.
    pose proof (proj1 (Forall_forall _ _) Hshape art' Hin') as Hext.
    rewrite (with_payload_extracted _ Hext).
    destruct Hext as (kind & payload & manifest & -> & Hp).
    destruct (mkArtifact_reads kind payload manifest) as (_ & _ & -> & _).
    by rewrite Hp.
  - intros Hnone. rewrite Hread. unfold resolved.
    destruct (byFrom_of (unwrapArtifacts raw) !! out_from o) as [art|] eqn:Hart.
    + destruct (byFrom_lookup _ _ _ Hart) as [Hin' Hfrom']. by destruct (Hnone art).
    + by destruct (isUndefined _).
Qed.

Lemma C9_output_mapping_witness :
  (Client.run Examples.client_ok (Obj []) Samples.options_caption
     ([inr Examples.history_pending] ++ inr Samples.history_done :: [])).2
  = Ok (Obj [("caption", Samples.artifact_caption)]).
Proof.
  destruct (C9_output_mapping Examples.client_ok (Obj []) Samples.options_caption "prompt-1"
              [inr Examples.history_pending] Samples.history_done []
              {| outputs := Examples.outputs_plain;
                 status := {| status_str := "success"; completed := true;
                              messages := Arr [] |} |}
              (Terms.downloads Examples.outputs_plain) Examples.extracted_plain)
    as [_ Hmapped].
  - apply (bool_decide_unpack _). vm_compute. exact I.
  - reflexivity.
  - repeat constructor. exists Examples.history_pending. by vm_compute.
  - reflexivity.
  - reflexivity.
  - reflexivity.
  - reflexivity.
  - destruct (Hmapped [Samples.output_caption] eq_refl ltac:(discriminate)) as [Hrun _].
    etrans; [exact Hrun | reflexivity].
Defined.

(** ** core/pool.ts: leases come back *)

Section PoolUse.
Import Session Pool.

Lemma set_count_twice p k x y :
  sessionCounts p !! k = Some y → set_count (set_count p k x) k y = p.
Proof.
  intros Hk. destruct p as [cl qs counts ms]. unfold set_count. cbn in *.
  by rewrite insert_insert_eq, insert_id.
Qed.

Lemma acquire_under p :
  pool_wf p →
  (∃ i c m, count_is p i c ∧ cap_is p i m ∧ c < m) →
  ∃ bi cb mb cl q,
    best_of p (length (clients p)) bi cb mb ∧ 0 ≤ cb
    ∧ clients p !! bi = Some cl ∧ queues p !! bi = Some q
    ∧ acquire p
      = (Some {| client := Some cl; queue := Some q; release := release_at (Z.of_nat bi) |},
         set_count p (Z.of_nat bi) (Int (cb + 1))).
Proof.
  intros Hwf Hunder.
  destruct (select_under p Hwf Hunder) as (bi & cb & mb & Hsel & Hbest).
  pose proof Hbest as (Hbi & Hcb & Hmb & Hlt & _).
  destruct Hwf as (Hms & Hqs & Hcounts).
  destruct (Hcounts bi Hbi) as (c' & Hc' & Hpos).
  rewrite (count_is_inj _ _ _ _ Hc' Hcb) in Hpos.
  destruct (lookup_lt_is_Some_2 (clients p) bi Hbi) as [cl Hcl].
  destruct (lookup_lt_is_Some_2 (queues p) bi ltac:(lia)) as [q Hq].
  exists bi, cb, mb, cl, q. do 4 (split; [done|]).
  unfold acquire. rewrite Hsel, (count_of _ _ _ Hcb), js_add_Int.
  cbn [set_count clients queues]. by rewrite !at_index_nat, Hcl, Hq.
Qed.

Lemma release_after_acquire p bi cb :
  count_is p bi cb → 0 ≤ cb →
  release_at (Z.of_nat bi) (set_count p (Z.of_nat bi) (Int (cb + 1))) = p.
Proof.
  intros Hcb Hpos. unfold release_at.
  rewrite (count_of _ _ _ (set_count_eq p bi (cb + 1))), js_sub_Int, js_max_Int.
  replace (Z.max 0 (cb + 1 - 1)) with cb by lia. by apply set_count_twice.
Qed.

End PoolUse.

(** X9.  In a pool with an instance under its limit, [acquire] hands out a
    lease with the client and the queue of one instance, and calling the
    lease's [release] once puts the pool back exactly as it was before the
    [acquire]: all session counts as before. *)
Theorem acquire_then_release_restores (p : Pool.ComfyUIPool) :
  pool_wf p →
  (∃ i c m, count_is p i c ∧ cap_is p i m ∧ c < m) →
  ∃ l bi cl q,
    (Pool.acquire p).1 = Some l
    ∧ Pool.clients p !! bi = Some cl ∧ Session.client l = Some cl
    ∧ Pool.queues p !! bi = Some q ∧ Session.queue l = Some q
    ∧ Session.release l (Pool.acquire p).2 = p.
Proof.
  intros Hwf Hunder.
  destruct (acquire_under p Hwf Hunder)
    as (bi & cb & mb & cl & q & (_ & Hcb & _) & Hpos & Hcl & Hq & ->).
  eexists _, bi, cl, q. do 5 (split; [done|]). by apply release_after_acquire.
Qed.

Lemma acquire_then_release_restores_witness :
  ∃ l bi cl q,
    (Pool.acquire Examples.pool_AB).1 = Some l
    ∧ Pool.clients Examples.pool_AB !! bi = Some cl ∧ Session.client l = Some cl
    ∧ Pool.queues Examples.pool_AB !! bi = Some q ∧ Session.queue l = Some q
    ∧ Session.release l (Pool.acquire Examples.pool_AB).2 = Examples.pool_AB.
Proof.
  apply (acquire_then_release_restores Examples.pool_AB).
  - split; [reflexivity|]. split; [reflexivity|].
    intros [|[|i]] Hi.
    + exists 0. split; [reflexivity|lia].
    + exists 1. split; [reflexivity|lia].
    + exfalso. change (length (Pool.clients Examples.pool_AB)) with 2%nat in Hi. lia.
  - exists 0%nat, 0, 2. split; [reflexivity|]. split; [reflexivity|lia].
Defined.

(** X10.  [withSession] gives the slot back when the callback has settled:
    in a pool with an instance under its limit it makes a session, which
    takes one slot of an instance, and ends as the callback ends.  Once
    the callback has returned or thrown, the pool is exactly as before the
    call; this also holds when the callback has closed the session itself
    (the slot is not released twice).  As long as the callback has not
    settled, the slot stays taken. *)
Theorem withSession_releases_when_settled {T : Type} (p : Pool.ComfyUIPool)
    (body : Session.ComfyUISession Pool.ComfyUIPool → M T)
    (pl : option Pipeline.ArtifactPipeline) :
  pool_wf p →
  (∃ i c m, count_is p i c ∧ cap_is p i m ∧ c < m) →
  ∃ s bi cb,
    (Pool.createSession p pl).1 = Some s
    ∧ Session.closed s = false
    ∧ is_Some (Session.client (Session.lease s))
    ∧ count_is p bi cb
    ∧ count_is (Pool.createSession p pl).2 bi (cb + 1)
    ∧ (Pool.withSession p (λ s q, (body s, s, q)) pl).1 = body s
    ∧ ((body s).2 ≠ Running →
         Pool.withSession p (λ s q, (body s, s, q)) pl = (body s, p)
         ∧ Pool.withSession p
             (λ s q, (body s, (Session.close s q).1, (Session.close s q).2)) pl
           = (body s, p))
    ∧ ((body s).2 = Running →
         Pool.withSession p (λ s q, (body s, s, q)) pl
         = (body s, (Pool.createSession p pl).2)).
Proof.
  intros Hwf Hunder.
  destruct (acquire_under p Hwf Hunder)
    as (bi & cb & mb & cl & q & (_ & Hcb & _) & Hpos & Hcl & Hq & Hacq).
  unfold Pool.withSession, Pool.createSession. rewrite Hacq.
  eexists _, bi, cb. split; [done|]. split; [done|]. split; [by eexists|].
  split; [done|]. split; [apply set_count_eq|]. split; [done|].
  cbn [fst snd].
  match goal with
  | |- context [body ?s] => destruct (body s) as [t [a|e|]]
  end; cbn [snd].
  - split; [|done]. intros _.
    unfold Session.close, Session.new_session. cbn.
    by rewrite (release_after_acquire _ _ _ Hcb Hpos).
  - split; [|done]. intros _.
    unfold Session.close, Session.new_session. cbn.
    by rewrite (release_after_acquire _ _ _ Hcb Hpos).
  - split; [done|]. by intros _.
Qed.

Lemma withSession_releases_when_settled_witness :
  ∃ s, (Pool.createSession Examples.pool_one None).1 = Some s
    ∧ Pool.withSession Examples.pool_one
        (λ s q, (Session.uploadFile s "a.png", s, q)) None
      = (Session.uploadFile s "a.png", Examples.pool_one)
    ∧ Pool.withSession Examples.pool_one
        (λ s q, (Session.uploadFile s "a.png", (Session.close s q).1, (Session.close s q).2))
        None
      = (Session.uploadFile s "a.png", Examples.pool_one).
Proof.
  destruct (withSession_releases_when_settled Examples.pool_one
              (λ s, Session.uploadFile s "a.png") None)
    as (s & bi & cb & Hs & _ & _ & _ & _ & _ & Hsettled & _).
  - split; [reflexivity|]. split; [reflexivity|].
    intros [|i] Hi.
    + exists 0. split; [reflexivity|lia].
    + exfalso. change (length (Pool.clients Examples.pool_one)) with 1%nat in Hi. lia.
  - exists 0%nat, 0, 1. split; [reflexivity|]. split; [reflexivity|lia].
  - exists s. split; [exact Hs|]. apply Hsettled.
    injection Hs as <-. discriminate.
Defined.

(** ** core/pool.ts: metrics *)

Section Metrics.
Import Session Pool.

Lemma metrics_lookup p i c m :
  (i < length (clients p))%nat → count_is p i c → cap_is p i m →
  metrics p !! i
  = Some {| index := i; currentSessions := Int c; maxConcurrencyOf := Int m;
            available := bool_decide (c < m) |}.
Proof.
  intros Hi Hc Hm. unfold metrics. rewrite list_lookup_imap.
  destruct (lookup_lt_is_Some_2 (clients p) i Hi) as [cl ->]. cbn.
  by rewrite (count_of _ _ _ Hc), (limit_of _ _ _ Hm), js_lt_Int.
Qed.

Lemma metrics_available p :
  pool_wf p →
  (∃ e, e ∈ metrics p ∧ available e = true)
  ↔ ∃ i c m, count_is p i c ∧ cap_is p i m ∧ c < m.
Proof.
  intros Hwf. pose proof Hwf as (Hms & Hqs & Hcounts). split.
  - intros (e & (i & He)%list_elem_of_lookup_1 & Hav).
    assert (i < length (clients p))%nat as Hi.
    { apply lookup_lt_Some in He. unfold metrics in He. by rewrite length_imap in He. }
    destruct (Hcounts i Hi) as (c & Hc & _).
    destruct (lookup_lt_is_Some_2 (maxConcurrencies p) i ltac:(lia)) as [m Hm].
    rewrite (metrics_lookup p i c m Hi Hc Hm) in He. injection He as <-.
    cbn in Hav. apply bool_decide_eq_true_1 in Hav. by exists i, c, m.
  - intros (i & c & m & Hc & Hm & Hlt).
    assert (i < length (clients p))%nat as Hi.
    { rewrite <- Hms. by eapply lookup_lt_Some. }
    eexists. split; [eapply list_elem_of_lookup_2, (metrics_lookup p i c m Hi Hc Hm)|].
    cbn. by apply bool_decide_eq_true_2.
Qed.

End Metrics.

(** X11.  [metrics] has one entry per instance, in order, with the index,
    the session count, the limit, and [available] exactly when the count is
    below the limit.  It tells what [acquire] will do: the next lease has a
    client if and only if some entry is [available]. *)
Theorem metrics_tell_availability (p : Pool.ComfyUIPool) :
  pool_wf p →
  length (Pool.metrics p) = length (Pool.clients p)
  ∧ (∀ i c m, (i < length (Pool.clients p))%nat → count_is p i c → cap_is p i m →
       Pool.metrics p !! i
       = Some {| Pool.index := i; Pool.currentSessions := Pool.Int c;
                 Pool.maxConcurrencyOf := Pool.Int m;
                 Pool.available := bool_decide (c < m) |})
  ∧ ((∃ e, e ∈ Pool.metrics p ∧ Pool.available e = true)
     ↔ ∃ l cl, (Pool.acquire p).1 = Some l ∧ Session.client l = Some cl).
Proof.
  intros Hwf. split; [|split].
  - unfold Pool.metrics. by rewrite length_imap.
  - apply metrics_lookup.
  - rewrite (metrics_available p Hwf). split.
    + intros Hunder.
      destruct (acquire_under p Hwf Hunder) as (bi & cb & mb & cl & q & _ & _ & _ & _ & ->).
      by eexists _, cl.
    + intros (l & cl & Hl & Hcl). rewrite acquire_lease in Hl. injection Hl as <-.
      cbn in Hcl.
      destruct (select_spec p Hwf) as [[Hsel _] | (bi & cb & mb & _ & _ & Hcb & Hmb & Hlt & _)].
      * by rewrite Hsel, at_index_neg in Hcl.
      * by exists bi, cb, mb.
Qed.

Lemma metrics_tell_availability_witness :
  Pool.metrics Examples.pool_AB !! 1%nat
  = Some {| Pool.index := 1; Pool.currentSessions := Pool.Int 1;
            Pool.maxConcurrencyOf := Pool.Int 2;
            Pool.available := bool_decide (1 < 2) |}.
Proof.
  apply (proj1 (proj2 (metrics_tell_availability Examples.pool_AB pool_AB_wf)) 1%nat 1 2).
  - vm_compute. lia.
  - reflexivity.
  - reflexivity.
Defined.

(** ** core/pool.ts: capacity *)

Section Capacity.
Import Session Pool Terms.

Lemma free_cons m ms c cs : free_slots (m :: ms) (c :: cs) = (m - c) + free_slots ms cs.
Proof. reflexivity. Qed.

Lemma free_nonneg cs ms :
  Forall2 (λ c m, 0 ≤ c ≤ m) cs ms → 0 ≤ free_slots ms cs.
Proof.
  induction 1 as [|c m cs ms Hcm _ IH]; [done|]. rewrite free_cons. lia.
Qed.

Lemma free_zero cs ms :
  Forall2 (λ c m, 0 ≤ c ≤ m) cs ms → free_slots ms cs = 0 →
  ∀ i c m, cs !! i = Some c → ms !! i = Some m → c = m.
Proof.
  induction 1 as [|c m cs ms Hcm Hall IH]; [done|].
  rewrite free_cons. intros Hzero.
  pose proof (free_nonneg _ _ Hall).
  intros [|i] c' m'; cbn.
  - intros [= <-] [= <-]. lia.
  - apply IH. lia.
Qed.

Lemma free_pos cs ms :
  Forall2 (λ c m, 0 ≤ c ≤ m) cs ms → 0 < free_slots ms cs →
  ∃ i c m, cs !! i = Some c ∧ ms !! i = Some m ∧ c < m.
Proof.
  induction 1 as [|c m cs ms Hcm Hall IH]; [done|].
  rewrite free_cons. intros Hpos.
  destruct (decide (c < m)) as [Hlt|Hge].
  - by exists 0%nat, c, m.
  - destruct IH as (i & c' & m' & Hc' & Hm' & Hlt'); [lia|]. by exists (S i), c', m'.
Qed.

Lemma free_insert cs ms i c m :
  length cs = length ms → cs !! i = Some c → ms !! i = Some m →
  free_slots ms (<[i := c + 1]> cs) = free_slots ms cs - 1.
Proof.
  revert ms i. induction cs as [|c0 cs IH]; intros [|m0 ms] i Hlen; try done.
  destruct i as [|i]; cbn [lookup list_lookup].
  - intros [= <-] [= <-].
    change (<[0%nat := c0 + 1]> (c0 :: cs)) with ((c0 + 1) :: cs).
    rewrite !free_cons. lia.
  - intros Hc Hm.
    change (<[S i := c + 1]> (c0 :: cs)) with (c0 :: <[i := c + 1]> cs).
    rewrite !free_cons, (IH ms i); [lia| |done..]. by injection Hlen.
Qed.

Lemma counts_are_wf p cs :
  counts_are p cs → length (queues p) = length (clients p) →
  Forall2 (λ c m, 0 ≤ c ≤ m) cs (maxConcurrencies p) → pool_wf p.
Proof.
  intros [Hlen Hcs] Hqs Hall. split; [|split; [done|]].
  - apply Forall2_length in Hall. lia.
  - intros i Hi. destruct (lookup_lt_is_Some_2 cs i ltac:(lia)) as [c Hc].
    exists c. split; [by apply Hcs|].
    destruct (Forall2_lookup_l _ _ _ _ _ Hall Hc) as (m & _ & ?). lia.
Qed.

Lemma acquires_capacity k : ∀ p cs,
  counts_are p cs → length (queues p) = length (clients p) →
  Forall2 (λ c m, 0 ≤ c ≤ m) cs (maxConcurrencies p) →
  (acquires k p).1
  = replicate (k `min` Z.to_nat (free_slots (maxConcurrencies p) cs)) true
    ++ replicate (k - Z.to_nat (free_slots (maxConcurrencies p) cs)) false.
Proof.
  induction k as [|k IH]; intros p cs Hcs Hqs Hall; [done|].
  pose proof (counts_are_wf p cs Hcs Hqs Hall) as Hwf.
  pose proof (free_nonneg _ _ Hall) as Hfree.
  pose proof (Forall2_length _ _ _ Hall) as Hlen.
  destruct Hcs as [Hlencs Hcs]. cbn [acquires fst].
  destruct (decide (0 < free_slots (maxConcurrencies p) cs)) as [Hpos|Hzero].
  - destruct (free_pos _ _ Hall Hpos) as (i & c & m & Hc & Hm & Hlt).
    destruct (acquire_under p Hwf) as (bi & cb & mb & cl & q & Hbest & Hcb0 & Hcl & Hq & Hacq).
    { exists i, c, m. split; [by apply Hcs|done]. }
    destruct Hbest as (Hbi & Hcb & Hmb & Hltb & _).
    destruct (lookup_lt_is_Some_2 cs bi ltac:(lia)) as [c' Hc'].
    rewrite (count_is_inj _ _ _ _ (Hcs _ _ Hc') Hcb) in Hc'.
    rewrite Hacq. cbn [fst snd client].
    rewrite (IH _ (<[bi := cb + 1]> cs)).
    + cbn [set_count maxConcurrencies].
      rewrite (free_insert cs _ bi cb mb Hlen Hc' Hmb).
      rewrite bool_decide_eq_true_2 by (by eexists).
      replace (S k `min` Z.to_nat (free_slots (maxConcurrencies p) cs))%nat
        with (S (k `min` Z.to_nat (free_slots (maxConcurrencies p) cs - 1))) by lia.
      replace (S k - Z.to_nat (free_slots (maxConcurrencies p) cs))%nat
        with (k - Z.to_nat (free_slots (maxConcurrencies p) cs - 1))%nat by lia.
      done.
    + split; [by rewrite length_insert|].
      intros j cj Hj. destruct (decide (j = bi)) as [->|Hne].
      * rewrite list_lookup_insert_eq in Hj by lia. injection Hj as <-. apply set_count_eq.
      * rewrite list_lookup_insert_ne in Hj by done.
        apply set_count_ne; [lia|]. by apply Hcs.
    + done.
    + cbn [set_count maxConcurrencies].
      rewrite <- (list_insert_id (maxConcurrencies p) bi mb Hmb).
      apply Forall2_insert; [done|]. lia.
  - assert (free_slots (maxConcurrencies p) cs = 0) as Hfree0 by lia.
    assert (all_at_cap p) as Hfull.
    { intros i c m Hc Hm.
      destruct (lookup_lt_is_Some_2 cs i) as [c' Hc'].
      { rewrite Hlen. by eapply lookup_lt_Some. }
      rewrite (count_is_inj _ _ _ _ Hc (Hcs _ _ Hc')).
      by eapply (free_zero _ _ Hall Hfree0). }
    destruct (acquire_saturated p Hwf Hfull) as [Hlease Hcounts].
    rewrite Hlease. cbn [client].
    rewrite (IH _ cs).
    + rewrite acquire_pool. cbn [set_count maxConcurrencies].
      rewrite Hfree0. cbn [Z.to_nat]. rewrite !Nat.min_0_r, !Nat.sub_0_r.
      rewrite bool_decide_eq_false_2 by (by intros [? ?]). done.
    + split; [by rewrite acquire_pool|].
      intros j cj Hj. apply Hcounts. by apply Hcs.
    + by rewrite acquire_pool.
    + by rewrite acquire_pool.
Qed.

End Capacity.

(** X12.  The capacity of a pool: with session counts [cs] within the
    limits, the pool has as many free slots as the limits exceed the counts,
    summed over the instances.  Of [k] calls of [acquire] in a row, with no
    release in between, exactly the first [free] ones hand out a lease with
    a client; every later one hands out a lease without a client. *)
Theorem pool_serves_its_free_slots (p : Pool.ComfyUIPool) (cs : list Z) (k : nat) :
  Terms.counts_are p cs →
  length (Pool.queues p) = length (Pool.clients p) →
  Forall2 (λ c m, 0 ≤ c ≤ m) cs (Pool.maxConcurrencies p) →
  (Terms.acquires k p).1
  = replicate (k `min` Z.to_nat (Terms.free_slots (Pool.maxConcurrencies p) cs)) true
    ++ replicate (k - Z.to_nat (Terms.free_slots (Pool.maxConcurrencies p) cs)) false.
Proof. apply acquires_capacity. Qed.

Lemma pool_serves_its_free_slots_witness :
  (Terms.acquires 5 Examples.pool_AB).1 = [true; true; true; false; false].
Proof.
  apply (pool_serves_its_free_slots Examples.pool_AB [0; 1] 5).
  - split; [reflexivity|].
    intros [|[|i]] c Hc; [injection Hc as <-; reflexivity..|done].
  - reflexivity.
  - change (Pool.maxConcurrencies Examples.pool_AB) with [2; 2].
    constructor; [lia|]. constructor; [lia|]. constructor.
Defined.

(** ** core/pool.ts: a new pool *)

Section FreshPool.
Import Session Pool Terms.

Lemma free_fresh (ms : list Z) : free_slots ms ((λ _, 0) <$> ms) = foldr Z.add 0 ms.
Proof.
  induction ms as [|m ms IH]; [done|].
  rewrite fmap_cons, free_cons, IH. cbn [foldr]. lia.
Qed.

Lemma new_pool_counts nodes p :
  new_pool nodes = inr p →
  nodes ≠ []
  ∧ length (clients p) = length nodes
  ∧ length (queues p) = length (clients p)
  ∧ maxConcurrencies p = (λ o, default 1 (maxConcurrency o)) <$> nodes
  ∧ counts_are p ((λ _, 0) <$> maxConcurrencies p).
Proof.
  intros Hnew. unfold new_pool in Hnew.
  case_bool_decide as Hlen; [done|]. injection Hnew as <-.
  split; [by intros ->|]. cbn [clients queues maxConcurrencies].
  rewrite !length_fmap. do 3 (split; [done|]).
  split; [cbn [clients]; by rewrite !length_fmap|].
  intros i c Hc. rewrite !list_lookup_fmap in Hc.
  destruct (nodes !! i) as [o|] eqn:Ho; [|done]. injection Hc as <-.
  unfold count_is. cbn [sessionCounts].
  rewrite lookup_map_seqZ_0 by lia. rewrite Nat2Z.id, list_lookup_fmap. by rewrite Ho.
Qed.

End FreshPool.

(** X13.  The constructor of the pool rejects an empty list of nodes with
    the error [Must configure at least one client], and only that list.  A
    pool constructed from nodes whose limits ([maxConcurrency], 1 when
    absent) are at least 1 (what the queues accept) and at most 2^53 starts
    with all its slots free: of [k] calls of [acquire] in a row exactly the
    first [total] hand out a lease with a client, [total] being the sum of
    the limits. *)
Theorem new_pool_serves_total_limit (nodes : list Pool.PoolNodes) (k : nat) :
  Forall (λ o, 1 ≤ default 1 (Pool.maxConcurrency o) ≤ 2 ^ 53) nodes →
  match Pool.new_pool nodes with
  | inl e => nodes = [] ∧ e = Error "Must configure at least one client"
  | inr p =>
      nodes ≠ []
      ∧ length (Pool.clients p) = length nodes
      ∧ (Terms.acquires k p).1
        = replicate (k `min` Z.to_nat (Terms.total_limit nodes)) true
          ++ replicate (k - Z.to_nat (Terms.total_limit nodes)) false
  end.
Proof.
  intros Hpos. destruct (Pool.new_pool nodes) as [e|p] eqn:Hnew.
  - unfold Pool.new_pool in Hnew. case_bool_decide as Hlen; [|done].
    injection Hnew as <-. split; [by apply nil_length_inv|done].
  - destruct (new_pool_counts nodes p Hnew) as (Hne & Hcl & Hqs & Hms & Hcs).
    split; [done|]. split; [done|].
    rewrite (acquires_capacity k p _ Hcs Hqs).
    + by rewrite free_fresh, Hms.
    + apply Forall2_fmap_l, Forall_Forall2_diag. rewrite Hms. apply Forall_fmap.
      eapply Forall_impl; [exact Hpos|]. intros o Ho. unfold compose. cbn beta in *. lia.
Qed.

Lemma new_pool_serves_total_limit_witness :
  (Terms.acquires 4 (Examples.pool_of [Examples.node_with 2; Examples.node_with 1])).1
  = [true; true; true; false].
Proof.
  pose proof (new_pool_serves_total_limit [Examples.node_with 2; Examples.node_with 1] 4)
    as Hnew.
  destruct Hnew as (_ & _ & Hserved).
  - constructor; [cbn; lia|]. constructor; [cbn; lia|]. constructor.
  - exact Hserved.
Defined.

(** ** core/session.ts: an open session *)

Section SessionUse.
Import Session.
Context {S : Type}.

Lemma baseSet_object o path v : ∃ o', baseSet (Obj o) path v = Obj o'.
Proof.
  destruct path as [|key [|next rest]]; cbn [baseSet]; [by eexists|..];
    destruct (unsafe_key key); by eexists.
Qed.

Lemma applyNodeOutputs_object artifacts outputs :
  ∃ o, applyNodeOutputs artifacts outputs = Obj o.
Proof.
  unfold applyNodeOutputs. generalize (@nil (string * value)).
  induction outputs as [|e outputs IH]; intros r; [by exists r|].
  cbn [fold_left]. unfold applyNodeOutput at 2.
  destruct (isUndefined _); [apply IH|].
  unfold set. cbn [isObject].
  destruct (baseSet_object r (split_dot (out_to e))
              (with_payload (byFrom_of artifacts !! out_from e)
                 match byFrom_of artifacts !! out_from e with
                 | Some a => if truthy a then read a "payload" else out_defaultValue e
                 | None => out_defaultValue e
                 end)) as [o' ->].
  apply IH.
Qed.

Lemma run_value_truthy c workflow options replies t v :
  Client.run c workflow options replies = (t, Ok v) → truthy v = true.
Proof.
  intros (raw & ->)%run_result. unfold Client.map_outputs.
  destruct ((options ≫= node) ≫= node_outputs) as [[|o os]|]; try done.
  by destruct (applyNodeOutputs_object (unwrapArtifacts raw) (o :: os)) as [r ->].
Qed.

Lemma session_run_open (s : ComfyUISession S) c q workflow options replies :
  closed s = false → client (lease s) = Some c → queue (lease s) = Some q →
  run s workflow options replies
  = let* artifacts := Client.run c workflow options replies in
    match pipeline s with
    | Some pl => Pipeline.run_pipeline pl artifacts
    | None => ret artifacts
    end.
Proof.
  intros Hopen Hc Hq. unfold run, assertOpen, with_client.
  rewrite Hopen, Hc, Hq, bind_ret.
  destruct (Client.run c workflow options replies) as [t [v| |]] eqn:Hrun; try done.
  cbn [bind]. by rewrite (run_value_truthy _ _ _ _ _ _ Hrun).
Qed.

End SessionUse.

(** X14.  An open session whose lease has a client forwards its calls:
    [run] is the client's [run] followed, when the client has returned, by
    the pipeline of the session on what it returned (by nothing without a
    pipeline); [queue], [uploadFile] and [getHistory] are the client's.
    The client returns an array or an object, so the error
    [Generation failed] of [run] is never thrown; an error of the client
    goes through unchanged and no processor runs. *)
Theorem open_session_forwards {S : Type} (s : Session.ComfyUISession S)
    (c : Client.ComfyUIClient) (q : Session.PQueue) :
  Session.closed s = false →
  Session.client (Session.lease s) = Some c →
  Session.queue (Session.lease s) = Some q →
  (∀ workflow options replies,
     Session.run s workflow options replies
     = let* artifacts := Client.run c workflow options replies in
       match Session.pipeline s with
       | Some pl => Pipeline.run_pipeline pl artifacts
       | None => ret artifacts
       end)
  ∧ (∀ workflow options replies t e,
       Client.run c workflow options replies = (t, Throw e) →
       Session.run s workflow options replies = (t, Throw e))
  ∧ (∀ workflow options,
       Session.queue_workflow s workflow options = Client.queue c workflow options)
  ∧ (∀ filename, Session.uploadFile s filename = Client.uploadFile c filename)
  ∧ (∀ r promptId, Session.getHistory s r promptId = Client.getHistory r promptId).
Proof.
  intros Hopen Hc Hq. split; [|split; [|split; [|split]]].
  - intros. by eapply session_run_open.
  - intros workflow options replies t e Hrun.
    rewrite (session_run_open s c q) by done. by rewrite Hrun.
  - intros. unfold Session.queue_workflow, Session.assertOpen, Session.with_client.
    by rewrite Hopen, Hc, bind_ret.
  - intros. unfold Session.uploadFile, Session.assertOpen, Session.with_client.
    by rewrite Hopen, Hc, bind_ret.
  - intros. unfold Session.getHistory, Session.assertOpen, Session.with_client.
    by rewrite Hopen, Hc, bind_ret.
Qed.

Lemma open_session_forwards_witness :
  Session.run (Session.new_session Examples.lease_one None) (Obj []) None
    [inr Samples.history_done]
  = let* artifacts := Client.run Examples.client_ok (Obj []) None [inr Samples.history_done] in
    ret artifacts.
Proof.
  apply (proj1 (open_session_forwards (Session.new_session Examples.lease_one None)
                  Examples.client_ok (Session.mkQueue 1) eq_refl eq_refl eq_refl)).
Defined.

(** ** core/pipeline.ts: what a pass of the pipeline does to an artifact *)

Section PipelinePass.
Import Pipeline Terms.

Lemma processor_step_cases artifact processor :
  processor_step artifact processor = ret artifact
  ∨ processor_step artifact processor
    = ([EvRun (name processor)], Ok (stepped artifact processor)).
Proof.
  unfold processor_step, stepped.
  destruct (truthy _ || negb _); [by left|right].
  rewrite bind_emit. by destruct (next (run processor artifact)).
Qed.


Lemma run_processors_trace processors : ∀ artifact,
  ∃ t artifact', run_processors processors artifact = (t, Ok artifact')
    ∧ t `sublist_of` ((λ p, EvRun (name p)) <$> processors).
Proof.
  induction processors as [|p ps IH]; intros artifact; cbn [run_processors].
  - by exists [], artifact.
  - destruct (processor_step_cases artifact p) as [-> | ->].
    + rewrite bind_ret. destruct (IH artifact) as (t & a' & -> & Hsub).
      exists t, a'. split; [done|]. by apply sublist_cons.
    + destruct (IH (stepped artifact p)) as (t & a' & Hrun & Hsub).
      exists (EvRun (name p) :: t), a'. cbn [bind]. rewrite Hrun. split; [done|].
      rewrite fmap_cons. by apply sublist_skip.
Qed.


(** An artifact object whose [pipeline] property holds an object. *)
Lemma ensure_state_object o :
  state_ok (Obj o) = true →
  ∃ o' st, ensure_state (Obj o) = Obj o'
    ∧ get_prop o' "pipeline" = Some (Obj st)
    ∧ (∀ k, k ≠ "pipeline" → get_prop o' k = get_prop o k)
    ∧ (∀ n, has_prop (read (Obj o) "pipeline") n = true → is_Some (get_prop st n)).
Proof.
  unfold state_ok, ensure_state. cbn [read].
  destruct (get_prop o "pipeline") as [[| | | | | | |st]|] eqn:Hst; cbn [default]; try done.
  - intros _. exists (set_prop o "pipeline" (Obj [])), []. cbn [write].
    rewrite get_set_prop, bool_decide_eq_true_2 by done. do 2 (split; [done|]).
    split; [|done]. intros k Hk. by rewrite get_set_prop, bool_decide_eq_false_2.
  - intros _. exists (set_prop o "pipeline" (Obj [])), []. cbn [write].
    rewrite get_set_prop, bool_decide_eq_true_2 by done. do 2 (split; [done|]).
    split; [|done]. intros k Hk. by rewrite get_set_prop, bool_decide_eq_false_2.
  - intros _. exists o, st. do 3 (split; [done|]).
    intros n Hn. cbn in Hn. by apply bool_decide_eq_true_1 in Hn.
  - intros _. exists (set_prop o "pipeline" (Obj [])), []. cbn [write].
    rewrite get_set_prop, bool_decide_eq_true_2 by done. do 2 (split; [done|]).
    split; [|done]. intros k Hk. by rewrite get_set_prop, bool_decide_eq_false_2.
Qed.

Lemma stepped_object o st processor :
  get_prop o "pipeline" = Some (Obj st) →
  ∃ o' st', stepped (Obj o) processor = Obj o'
    ∧ get_prop o' "pipeline" = Some (Obj st')
    ∧ is_Some (get_prop st' (name processor))
    ∧ (∀ n, is_Some (get_prop st n) → is_Some (get_prop st' n))
    ∧ (∀ k, is_Some (get_prop o k) → is_Some (get_prop o' k))
    ∧ (next (run processor (Obj o)) = None →
         ∀ k, k ≠ "pipeline" → get_prop o' k = get_prop o k).
Proof.
  intros Hst. unfold stepped. cbn [read]. rewrite Hst. cbn [default write].
  set (st' := set_prop st (name processor) (output (run processor (Obj o)))).
  assert (Hst' : is_Some (get_prop st' (name processor))).
  { unfold st'. rewrite get_set_prop, bool_decide_eq_true_2 by done. by eexists. }
  assert (Hkeep : ∀ n, is_Some (get_prop st n) → is_Some (get_prop st' n)).
  { intros n Hn. unfold st'. rewrite get_set_prop. by case_bool_decide. }
  assert (Hkeys : ∀ (l : list (string * value)) k x k',
            is_Some (get_prop l k') → is_Some (get_prop (set_prop l k x) k')).
  { intros l k x k' Hk'. rewrite get_set_prop. by case_bool_decide. }
  destruct (next (run processor (Obj o))) as [n|].
  - unfold assign_next, assign. cbn [fold_left write fst snd].
    eexists _, st'. split; [done|].
    rewrite !get_set_prop. rewrite !(bool_decide_eq_false_2 (_ = "pipeline")) by done.
    rewrite bool_decide_eq_true_2 by done.
    do 3 (split; [done|]). split; [|done].
    intros k Hk. by do 4 apply Hkeys.
  - eexists _, st'. split; [done|]. rewrite get_set_prop, bool_decide_eq_true_2 by done.
    do 3 (split; [done|]). split; [intros k Hk; by apply Hkeys|].
    intros _ k Hk. by rewrite get_set_prop, bool_decide_eq_false_2.
Qed.

Lemma run_processors_object processors : ∀ o st t artifact',
  get_prop o "pipeline" = Some (Obj st) →
  run_processors processors (Obj o) = (t, Ok artifact') →
  ∃ o' st', artifact' = Obj o'
    ∧ get_prop o' "pipeline" = Some (Obj st')
    ∧ (∀ n, EvRun n ∈ t → is_Some (get_prop st' n))
    ∧ (∀ n, is_Some (get_prop st n) → is_Some (get_prop st' n))
    ∧ (∀ k, is_Some (get_prop o k) → is_Some (get_prop o' k))
    ∧ (Forall (λ p, ∀ x, next (run p x) = None) processors →
         ∀ k, k ≠ "pipeline" → get_prop o' k = get_prop o k).
Proof.
  induction processors as [|p ps IH]; intros o st t artifact' Hst; cbn [run_processors].
  - intros [= <- <-]. exists o, st. do 2 (split; [done|]).
    split; [by intros n ?%elem_of_nil|done].
  - destruct (processor_step_cases (Obj o) p) as [-> | ->].
    + rewrite bind_ret. intros Hrun.
      destruct (IH _ _ _ _ Hst Hrun) as (o' & st' & -> & Hst' & Hran & Hkeep & Hkeys & Hsame).
      exists o', st'. do 5 (split; [done|]).
      intros [_ Hps]%Forall_cons. by apply Hsame.
    + destruct (stepped_object o st p Hst)
        as (o1 & st1 & Ho1 & Hst1 & Hp & Hkeep1 & Hkeys1 & Hsame1).
      rewrite Ho1. cbn [bind].
      destruct (run_processors ps (Obj o1)) as [t' r] eqn:Hrun. intros [= <- ->].
      destruct (IH _ _ _ _ Hst1 Hrun) as (o' & st' & -> & Hst' & Hran & Hkeep & Hkeys & Hsame).
      exists o', st'. do 2 (split; [done|]). split; [|split; [|split]].
      * intros n [[= ->]|Hn]%elem_of_cons; [by apply Hkeep|by apply Hran].
      * intros n Hn. by apply Hkeep, Hkeep1.
      * intros k Hk. by apply Hkeys, Hkeys1.
      * intros [Hpnext Hps]%Forall_cons k Hk.
        rewrite (Hsame Hps k Hk). by apply Hsame1.
Qed.

Lemma processArtifact_object processors o t artifact' :
  state_ok (Obj o) = true →
  processArtifact processors (Obj o) = (t, Ok artifact') →
  ∃ o' st', artifact' = Obj o'
    ∧ get_prop o' "pipeline" = Some (Obj st')
    ∧ (∀ n, EvRun n ∈ t → is_Some (get_prop st' n))
    ∧ (∀ n, has_prop (read (Obj o) "pipeline") n = true → is_Some (get_prop st' n))
    ∧ (∀ k, is_Some (get_prop o k) → is_Some (get_prop o' k))
    ∧ (Forall (λ p, ∀ x, next (run p x) = None) processors →
         ∀ k, k ≠ "pipeline" → get_prop o' k = get_prop o k).
Proof.
  intros Hok. unfold processArtifact.
  destruct (ensure_state_object o Hok) as (o0 & st0 & -> & Hst0 & Hsame0 & Hkeep0).
  intros Hrun.
  destruct (run_processors_object _ _ _ _ _ Hst0 Hrun)
    as (o' & st' & -> & Hst' & Hran & Hkeep & Hkeys & Hsame).
  exists o', st'. do 3 (split; [done|]). split; [|split].
  - intros n Hn. by apply Hkeep, Hkeep0.
  - intros k Hk. apply Hkeys. destruct (decide (k = "pipeline")) as [->|Hne].
    + by rewrite Hst0.
    + by rewrite Hsame0.
  - intros Hnext k Hk. by rewrite (Hsame Hnext k Hk), Hsame0.
Qed.

End PipelinePass.



(** X16.  For an artifact whose [pipeline] property is absent or an object,
    after a pass: every processor that ran has an entry under its name in
    the artifact's [pipeline] object; the entries that were there before
    are still there; the artifact keeps all its properties, so it is still
    an artifact; and when no processor hands back a [next], every property
    other than [pipeline] (kind, payload, manifest) has the value it had
    before. *)
Theorem pass_records_what_ran (processors : Pipeline.ArtifactPipeline)
    (o : list (string * value)) (t : list event) (artifact' : value) :
  Terms.state_ok (Obj o) = true →
  Pipeline.processArtifact processors (Obj o) = (t, Ok artifact') →
  (∀ n, EvRun n ∈ t → has_prop (read artifact' "pipeline") n = true)
  ∧ (∀ n, has_prop (read (Obj o) "pipeline") n = true →
       has_prop (read artifact' "pipeline") n = true)
  ∧ (∀ k, has_prop (Obj o) k = true → has_prop artifact' k = true)
  ∧ (isArtifact (Obj o) = true → isArtifact artifact' = true)
  ∧ (Forall (λ p, ∀ x, Pipeline.next (Pipeline.run p x) = None) processors →
       ∀ k, k ≠ "pipeline" → read artifact' k = read (Obj o) k).
Proof.
  intros Hok Hrun.
  destruct (processArtifact_object _ _ _ _ Hok Hrun)
    as (o' & st' & -> & Hst' & Hran & Hkeep & Hkeys & Hsame).
  assert (Hprops : ∀ k, has_prop (Obj o) k = true → has_prop (Obj o') k = true).
  { intros k Hk. cbn in *. apply bool_decide_eq_true_2, Hkeys.
    by apply bool_decide_eq_true_1 in Hk. }
  cbn [read]. rewrite Hst'. cbn [default has_prop].
  split; [|split; [|split; [|split]]].
  - intros n Hn. by apply bool_decide_eq_true_2, Hran.
  - intros n Hn. by apply bool_decide_eq_true_2, Hkeep.
  - exact Hprops.
  - unfold isArtifact. cbn [isPlainObject andb].
    intros [Hkind Hpayload]%andb_true_iff.
    by rewrite (Hprops _ Hkind), (Hprops _ Hpayload).
  - intros Hnext k Hk. cbn [read]. by rewrite (Hsame Hnext k Hk).
Qed.

Lemma pass_records_what_ran_witness :
  has_prop
    (read (Terms.stepped (Pipeline.ensure_state Samples.artifact_image) Samples.uploader)
          "pipeline")
    "cosUploader" = true
  ∧ read (Terms.stepped (Pipeline.ensure_state Samples.artifact_image) Samples.uploader)
         "payload"
    = read Samples.artifact_image "payload".
Proof.
  destruct (pass_records_what_ran [Samples.uploader]
              [("kind", Str "binary"); ("payload", Buf []);
               ("manifest",
                Obj [("filename", Str "a.png"); ("subfolder", Str EmptyString);
                     ("type", Str "output"); ("from", Str "8.images[0]");
                     ("promptId", Str "prompt-1")])]
              [EvRun "cosUploader"]
              (Terms.stepped (Pipeline.ensure_state Samples.artifact_image) Samples.uploader)
              eq_refl eq_refl) as (Hran & _ & _ & _ & Hsame).
  split.
  - apply Hran. apply list_elem_of_here.
  - apply Hsame; [|done]. constructor; [done|constructor].
Defined.

(** ** core/pipeline.ts: the walk keeps the shape of its input *)

Section PipelineWalk.
Import Pipeline Terms.

Lemma walk_Arr processors items :
  walk processors (Arr items) = let* items' := pipe_items processors items in ret (Arr items').
Proof.
  change (walk processors (Arr items)) with
    (let* items' :=
       (fix walkItems (items : list value) : M (list value) :=
          match items with
          | [] => ret []
          | x :: items' =>
              let* x' := walk processors x in
              let* items'' := walkItems items' in
              ret (x' :: items'')
          end) items in
     ret (Arr items')).
  f_equal. induction items as [|x items IH]; [done|]. simpl. by rewrite IH.
Qed.

Lemma walk_Obj processors props :
  walk processors (Obj props)
  = if isArtifact (Obj props) then processArtifact processors (Obj props)
    else let* props' := pipe_props processors props in ret (Obj props').
Proof.
  change (walk processors (Obj props)) with
    (if isArtifact (Obj props) then processArtifact processors (Obj props)
     else let* props' :=
            (fix walkProps (props : list (string * value)) : M (list (string * value)) :=
               match props with
               | [] => ret []
               | (k, v) :: props' =>
                   let* v' := walk processors v in
                   let* props'' := walkProps props' in
                   ret ((k, v') :: props'')
               end) props in
          ret (Obj props')).
  destruct (isArtifact _); [done|]. f_equal.
  induction props as [|[k v] props IH]; [done|]. simpl. by rewrite IH.
Qed.

Lemma artifacts_ok_Arr l : artifacts_ok (Arr l) = true → Forall (λ x, artifacts_ok x = true) l.
Proof.
  change (artifacts_ok (Arr l)) with
    ((fix items (l : list value) : bool :=
        match l with
        | [] => true
        | x :: l' => artifacts_ok x && items l'
        end) l).
  induction l as [|x l IH]; [constructor|].
  intros [Hx Hl]%andb_true_iff. constructor; [done|by apply IH].
Qed.

Lemma artifacts_ok_Obj o :
  artifacts_ok (Obj o) = true →
  if isArtifact (Obj o) then state_ok (Obj o) = true
  else Forall (λ kv, artifacts_ok kv.2 = true) o.
Proof.
  change (artifacts_ok (Obj o)) with
    (if isArtifact (Obj o) then state_ok (Obj o)
     else (fix props (o : list (string * value)) : bool :=
             match o with
             | [] => true
             | (_, x) :: o' => artifacts_ok x && props o'
             end) o).
  destruct (isArtifact _); [done|].
  induction o as [|[k x] o IH]; [constructor|].
  intros [Hx Ho]%andb_true_iff. constructor; [done|by apply IH].
Qed.

Lemma walk_shape processors node :
  artifacts_ok node = true →
  ∃ t node', walk processors node = (t, Ok node') ∧ same_shape node node'.
Proof.
  induction node as [| | | | | |l IH|o IH] using value_nested_ind; intros Hok.
  1-6: eexists _, _; split; [reflexivity|by constructor].
  - apply artifacts_ok_Arr in Hok. rewrite walk_Arr.
    assert (∃ t l', pipe_items processors l = (t, Ok l') ∧ Forall2 same_shape l l')
      as (t & l' & -> & Hl).
    { induction l as [|x l IHl]; [by exists [], []|].
      apply Forall_cons in IH as [IHx IH]. apply Forall_cons in Hok as [Hx Hok].
      destruct (IHx Hx) as (t1 & x' & Hwalk & Hshape).
      destruct (IHl IH Hok) as (t2 & l' & Hitems & Hshapes).
      exists (t1 ++ t2 ++ []), (x' :: l'). cbn [pipe_items].
      rewrite Hwalk. cbn [bind]. rewrite Hitems. cbn. split; [done|by constructor]. }
    eexists _, _. split; [reflexivity|by constructor].
  - apply artifacts_ok_Obj in Hok. rewrite walk_Obj.
    destruct (isArtifact (Obj o)) eqn:Hart.
    + destruct (run_processors_trace processors (ensure_state (Obj o)))
        as (t & a' & Hrun & _).
      fold (processArtifact processors (Obj o)) in Hrun.
      destruct (processArtifact_object _ _ _ _ Hok Hrun)
        as (o' & st' & -> & _ & _ & _ & Hkeys & _).
      exists t, (Obj o'). split; [done|]. apply shape_artifact; [done|].
      unfold isArtifact in *. cbn [isPlainObject andb has_prop] in *.
      apply andb_true_iff in Hart as [Hkind Hpayload].
      apply bool_decide_eq_true_1 in Hkind, Hpayload.
      by rewrite !bool_decide_eq_true_2 by (by apply Hkeys).
    + assert (∃ t o', pipe_props processors o = (t, Ok o')
                ∧ o.*1 = o'.*1 ∧ Forall2 same_shape o.*2 o'.*2)
        as (t & o' & -> & Hkeys & Hvals).
      { clear Hart. induction o as [|[k x] o IHo]; [by exists [], []|].
        apply Forall_cons in IH as [IHx IH]. apply Forall_cons in Hok as [Hx Hok].
        destruct (IHx Hx) as (t1 & x' & Hwalk & Hshape).
        destruct (IHo IH Hok) as (t2 & o' & Hprops & Hkeys & Hshapes).
        exists (t1 ++ t2 ++ []), ((k, x') :: o'). cbn [pipe_props].
        cbn [snd] in Hwalk. rewrite Hwalk. cbn [bind]. rewrite Hprops. cbn.
        split; [done|]. split; [by f_equal|by constructor]. }
      eexists _, _. split; [reflexivity|by apply shape_object].
Qed.

End PipelineWalk.

(** X17.  [ArtifactPipeline.run] ends normally and returns a value of the
    shape of its argument (artifacts whose [pipeline] property is absent or
    an object): an array of the same length, an object with the same keys
    in the same order, at every depth; an artifact where there was an
    artifact; and every other value (string, number, boolean, [null],
    buffer) as it was. *)
Theorem run_pipeline_keeps_shape (processors : Pipeline.ArtifactPipeline) (node : value) :
  Terms.artifacts_ok node = true →
  ∃ t node', Pipeline.run_pipeline processors node = (t, Ok node')
    ∧ Terms.same_shape node node'.
Proof. apply walk_shape. Qed.

Lemma run_pipeline_keeps_shape_witness :
  ∃ t node',
    Pipeline.run_pipeline [Samples.uploader; Examples.marker]
      (Obj [("image", Arr [Samples.artifact_image; Num 7]);
            ("text", Examples.artifact_hello)])
    = (t, Ok node')
    ∧ Terms.same_shape
        (Obj [("image", Arr [Samples.artifact_image; Num 7]);
              ("text", Examples.artifact_hello)])
        node'.
Proof.
  apply (run_pipeline_keeps_shape [Samples.uploader; Examples.marker]).
  reflexivity.
Defined.

(** ** utils.ts: applyNodeInputs *)

Section InputMapping.
Import Terms.

Lemma read_write v key x : assignable v key = true → read (write v key x) key = x.
Proof.
  destruct v as [| | | | | |l|o]; try done; cbn [assignable write read].
  - intros [i Hi]%bool_decide_eq_true_1. rewrite Hi.
    case_bool_decide as Hlt; cbn [read]; rewrite Hi.
    + by rewrite list_lookup_insert_eq.
    + rewrite lookup_app_r by lia. rewrite lookup_app_r by (rewrite length_replicate; lia).
      rewrite length_replicate. by replace (i - length l - (i - length l))%nat with 0%nat by lia.
  - intros _. by rewrite get_set_prop, bool_decide_eq_true_2.
Qed.

Lemma read_write_other o key x key' :
  key ≠ key' → read (write (Obj o) key x) key' = read (Obj o) key'.
Proof. intros Hne. cbn. by rewrite get_set_prop, bool_decide_eq_false_2. Qed.

Lemma baseSet_read_path path : ∀ nested v,
  path ≠ [] → settable nested path = true →
  read_path (baseSet nested path v) path = v.
Proof.
  induction path as [|key rest IH]; intros nested v Hne; [done|].
  cbn [settable]. intros [[Hsafe Hassign]%andb_true_iff Hrest]%andb_true_iff.
  apply negb_true_iff, orb_false_iff in Hsafe as [Hsafe _]. cbn [baseSet]. rewrite Hsafe.
  destruct rest as [|next rest].
  - cbn [read_path]. by apply read_write.
  - cbn [read_path] in *. rewrite (read_write _ _ _ Hassign). by apply IH.
Qed.

Lemma baseSet_other o path v key' :
  key' ≠ hd EmptyString path → read (baseSet (Obj o) path v) key' = read (Obj o) key'.
Proof.
  destruct path as [|key rest]; [done|]. cbn [hd baseSet]. intros Hne.
  destruct (unsafe_key key); [done|].
  destruct rest; by apply read_write_other.
Qed.

Lemma split_dot_nonempty s : split_dot s ≠ [].
Proof.
  destruct s as [|c s]; [done|]. cbn [split_dot].
  case_bool_decide; [done|]. by destruct (split_dot s).
Qed.

Lemma applyNodeInputs_snoc workflow node ni inputs :
  applyNodeInputs workflow (Some (node ++ [ni])) (Some inputs)
  = if isUndefined (input_value inputs ni)
    then applyNodeInputs workflow (Some node) (Some inputs)
    else set (applyNodeInputs workflow (Some node) (Some inputs))
             (split_dot (in_to ni)) (input_value inputs ni).
Proof. unfold applyNodeInputs. cbn [default from_option id]. by rewrite fold_left_app. Qed.

End InputMapping.

(** X18.  [applyNodeInputs] applies the mapping entries in order, so the
    last entry is applied to the workflow as the entries before it left
    it.  Its value is the input named [from] (a name that objects do not
    inherit), or the entry's default when that input is absent,
    [undefined] or [null].  When that value is [undefined] the entry
    changes nothing.  Otherwise it is stored at the path [to] split at
    dots, creating the objects on the way that are not there, and reading
    the result along that path gives the value back (for a path lodash
    [set] can store at); in an object workflow every top-level property
    other than the first segment of the path is as before. *)
Theorem applyNodeInputs_stores_at_path (workflow : value) (node : list NodeInput)
    (ni : NodeInput) (inputs : list (string * value)) :
  in_from ni ∉ TypeUtils.object_prototype_keys →
  Terms.settable (applyNodeInputs workflow (Some node) (Some inputs))
                 (split_dot (in_to ni)) = true →
  (Terms.input_value inputs ni = Undefined →
     applyNodeInputs workflow (Some (node ++ [ni])) (Some inputs)
     = applyNodeInputs workflow (Some node) (Some inputs))
  ∧ (Terms.input_value inputs ni ≠ Undefined →
       Terms.read_path (applyNodeInputs workflow (Some (node ++ [ni])) (Some inputs))
                       (split_dot (in_to ni))
       = Terms.input_value inputs ni)
  ∧ (∀ k, isPlainObject (applyNodeInputs workflow (Some node) (Some inputs)) = true →
          k ≠ hd EmptyString (split_dot (in_to ni)) →
          read (applyNodeInputs workflow (Some (node ++ [ni])) (Some inputs)) k
          = read (applyNodeInputs workflow (Some node) (Some inputs)) k)
  ∧ (∀ x, get_prop inputs (in_from ni) = Some x → x ≠ Undefined → x ≠ Null →
          Terms.input_value inputs ni = x)
  ∧ (get_prop inputs (in_from ni) = None
     ∨ get_prop inputs (in_from ni) = Some Undefined
     ∨ get_prop inputs (in_from ni) = Some Null →
     Terms.input_value inputs ni = in_defaultValue ni).
Proof.
  intros _ Hset. rewrite applyNodeInputs_snoc.
  set (before := applyNodeInputs workflow (Some node) (Some inputs)) in *.
  split; [|split; [|split; [|split]]].
  - by intros ->.
  - intros Hdef. destruct (isUndefined _) eqn:Hu.
    { by destruct (Terms.input_value inputs ni). }
    pose proof (split_dot_nonempty (in_to ni)) as Hne.
    assert (isObject before = true) as Hobj.
    { destruct (split_dot (in_to ni)) as [|key rest]; [done|]. cbn [Terms.settable] in Hset.
      apply andb_true_iff in Hset as [[_ Hassign]%andb_true_iff _].
      by destruct before. }
    unfold set. rewrite Hobj. by apply baseSet_read_path.
  - intros k Hobj Hk. destruct (isUndefined _); [done|].
    destruct before as [| | | | | | |o]; try done.
    unfold set. cbn [isObject]. by apply baseSet_other.
  - intros x Hx Hu Hn. unfold Terms.input_value. rewrite Hx. by destruct x.
  - unfold Terms.input_value. by intros [->|[->| ->]].
Qed.

Lemma applyNodeInputs_stores_at_path_witness :
  Terms.read_path
    (applyNodeInputs Samples.workflow_text (Some ([] ++ [Samples.input_prompt]))
       (Some [("prompt", Str "a cat")]))
    ["6"; "inputs"; "text"]
  = Str "a cat"
  ∧ read
      (read
         (applyNodeInputs Samples.workflow_text (Some ([] ++ [Samples.input_prompt]))
            (Some [("prompt", Str "a cat")]))
         "6")
      "class_type"
    = Str "CLIPTextEncode".
Proof.
  split; [|reflexivity].
  apply (proj1 (proj2 (applyNodeInputs_stores_at_path Samples.workflow_text []
                         Samples.input_prompt [("prompt", Str "a cat")]
                         ltac:(apply (bool_decide_unpack _); vm_compute; exact I) eq_refl))).
  discriminate.
Defined.

(** ** utils.ts: extractFileExtension *)

Section FileExtension.
Import FileName.

Lemma lastIndexOf_absent s c : has_char c s = false → lastIndexOf s c = None.
Proof.
  induction s as [|c' s IH]; [done|]. cbn [has_char lastIndexOf].
  intros [Hc Hs]%orb_false_iff. by rewrite (IH Hs), Hc.
Qed.

Lemma lastIndexOf_last name c ext :
  has_char c ext = false →
  lastIndexOf (name +:+ String c ext) c = Some (String.length name).
Proof.
  intros Hext. induction name as [|c' name IH].
  - rewrite app_empty_l. cbn [lastIndexOf]. rewrite (lastIndexOf_absent _ _ Hext).
    by rewrite bool_decide_eq_true_2.
  - rewrite app_cons. cbn [lastIndexOf]. by rewrite IH.
Qed.

Lemma substring_after name c ext :
  substring (name +:+ String c ext) (String.length name + 1) = ext.
Proof.
  induction name as [|c' name IH]; [rewrite app_empty_l; by destruct ext|].
  rewrite app_cons. cbn [String.length Nat.add substring]. exact IH.
Qed.

Lemma lower_char_dot c : c ≠ "."%char → lower_char c ≠ "."%char.
Proof. destruct c as [[] [] [] [] [] [] [] []]; by vm_compute. Qed.

Lemma lower_char_lower c : is_upper (lower_char c) = false.
Proof. by destruct c as [[] [] [] [] [] [] [] []]. Qed.

Lemma toLowerCase_dot s : has_char "." s = false → has_char "." (toLowerCase s) = false.
Proof.
  induction s as [|c s IH]; [done|]. cbn [has_char toLowerCase].
  intros [Hc Hs]%orb_false_iff. rewrite (IH Hs), orb_false_r.
  apply bool_decide_eq_false_2, lower_char_dot. by apply bool_decide_eq_false_1 in Hc.
Qed.

Lemma toLowerCase_lower s : avoids is_upper (toLowerCase s) = true.
Proof.
  induction s as [|c s IH]; [done|]. cbn [avoids toLowerCase].
  by rewrite lower_char_lower, IH.
Qed.

Lemma app_nonempty name c ext : name +:+ String c ext ≠ EmptyString.
Proof. by destruct name. Qed.

End FileExtension.

(** X19.  [extractFileExtension] on a file name: the empty name is rejected
    with an error; a name without a dot has the extension [''], and so has
    a name whose only dot is its first character (as [.gitignore]); any
    other name gives what follows its last dot, in lower case, when that
    is ASCII text.  The extension never contains a dot or an upper-case
    letter. *)
Theorem extractFileExtension_cases (name ext : string) :
  has_char "." ext = false →
  Terms.ascii_text ext = true →
  FileName.extractFileExtension EmptyString
  = inl (Error "Invalid input: fileName must be a non-empty string.")
  ∧ (ext ≠ EmptyString → FileName.extractFileExtension ext = inr EmptyString)
  ∧ FileName.extractFileExtension ("." +:+ ext) = inr EmptyString
  ∧ (name ≠ EmptyString →
       FileName.extractFileExtension (name +:+ "." +:+ ext)
       = inr (FileName.toLowerCase ext))
  ∧ has_char "." (FileName.toLowerCase ext) = false
  ∧ avoids FileName.is_upper (FileName.toLowerCase ext) = true.
Proof.
  intros Hext _. split; [done|]. split; [|split; [|split; [|split]]].
  - intros Hne. unfold FileName.extractFileExtension.
    by rewrite bool_decide_eq_false_2, (lastIndexOf_absent _ _ Hext).
  - change ("." +:+ ext) with (EmptyString +:+ String "." ext).
    unfold FileName.extractFileExtension.
    rewrite bool_decide_eq_false_2 by apply app_nonempty.
    by rewrite (lastIndexOf_last _ _ _ Hext).
  - intros Hne. change ("." +:+ ext) with (String "." ext).
    unfold FileName.extractFileExtension.
    rewrite bool_decide_eq_false_2 by apply app_nonempty.
    rewrite (lastIndexOf_last _ _ _ Hext).
    destruct name as [|c name]; [done|].
    pose proof (substring_after (String c name) "." ext) as Hsub.
    cbn [String.length] in *. by rewrite Hsub.
  - by apply toLowerCase_dot.
  - apply toLowerCase_lower.
Qed.

Lemma extractFileExtension_cases_witness :
  FileName.extractFileExtension ("photo.final" +:+ "." +:+ "PNG") = inr "png"
  ∧ FileName.extractFileExtension ("." +:+ "gitignore") = inr EmptyString.
Proof.
  split.
  - apply (proj1 (proj2 (proj2 (proj2
      (extractFileExtension_cases "photo.final" "PNG" eq_refl eq_refl))))).
    discriminate.
  - apply (proj1 (proj2 (proj2
      (extractFileExtension_cases "photo.final" "gitignore" eq_refl eq_refl)))).
Defined.

(** ** type-utils.ts: validateInputs *)

Section Validation.
Import TypeUtils.

Lemma missing_inputs (all : list InputSpec) inputs i :
  i ∈ filter (λ input, js_in (from input) inputs = false)
        (filter (λ input, is_required input = true) all)
  ↔ i ∈ all ∧ is_required i = true ∧ js_in (from i) inputs = false.
Proof. rewrite !list_elem_of_filter. tauto. Qed.

Lemma validateInputs_cases (all : list InputSpec) inputs :
  validateInputs (Some all) inputs
  = match filter (λ input, js_in (from input) inputs = false)
            (filter (λ input, is_required input = true) all) with
    | [] => inr true
    | missing =>
        inl (Error ("Missing required inputs: " +:+ String.concat ", " (from <$> missing)))
    end.
Proof.
  unfold validateInputs. destruct (filter _ (filter _ all)) as [|i missing]; [done|].
  by rewrite bool_decide_eq_true_2 by (cbn; lia).
Qed.

End Validation.

(** X20.  [validateInputs] returns [true] exactly when every input of the
    node that is marked [required] is a property of the inputs object (also
    one whose value is [undefined], and also a name every object inherits,
    as [constructor]); a node without [inputs] is always accepted.
    Otherwise it throws an error whose text is [Missing required inputs: ]
    followed by a list in which every missing required input occurs. *)
Theorem validateInputs_accepts_iff (all : list TypeUtils.InputSpec)
    (inputs : list (string * value)) :
  (TypeUtils.validateInputs (Some all) inputs = inr true
   ↔ ∀ i, i ∈ all → TypeUtils.is_required i = true →
          TypeUtils.js_in (TypeUtils.from i) inputs = true)
  ∧ (∀ e, TypeUtils.validateInputs (Some all) inputs = inl e →
       ∃ names, e = Error ("Missing required inputs: " +:+ names)
         ∧ ∀ i, i ∈ all → TypeUtils.is_required i = true →
                TypeUtils.js_in (TypeUtils.from i) inputs = false →
                occurs_in (TypeUtils.from i) names)
  ∧ TypeUtils.validateInputs None inputs = inr true
  ∧ (∀ k, is_Some (get_prop inputs k) ∨ k ∈ TypeUtils.object_prototype_keys →
          TypeUtils.js_in k inputs = true).
Proof.
  rewrite validateInputs_cases.
  pose proof (missing_inputs all inputs) as Hmissing.
  destruct (filter _ (filter _ all)) as [|m missing] eqn:Hfilter.
  - split; [|split; [done|split; [done|]]].
    + split; [|done]. intros _ i Hi Hreq.
      destruct (TypeUtils.js_in (TypeUtils.from i) inputs) eqn:Hin; [done|].
      exfalso. eapply elem_of_nil, Hmissing. eauto.
    + intros k [Hk|Hk]; unfold TypeUtils.js_in.
      * by rewrite bool_decide_eq_true_2.
      * rewrite (bool_decide_eq_true_2 (k ∈ _)) by done. apply orb_true_r.
  - split; [|split; [|split; [done|]]].
    + split; [done|]. intros Hall.
      assert (m ∈ m :: missing) as (Hm & Hreq & Hin)%Hmissing by left.
      rewrite (Hall m Hm Hreq) in Hin. done.
    + intros e He. exists (String.concat ", " (TypeUtils.from <$> m :: missing)).
      split; [congruence|].
      intros i Hi Hreq Hin. apply occurs_in_concat.
      apply list_elem_of_fmap_2, Hmissing. eauto.
    + intros k [Hk|Hk]; unfold TypeUtils.js_in.
      * by rewrite bool_decide_eq_true_2.
      * rewrite (bool_decide_eq_true_2 (k ∈ _)) by done. apply orb_true_r.
Qed.

Lemma validateInputs_accepts_iff_witness :
  TypeUtils.validateInputs
    (Some [TypeUtils.mkInputSpec "prompt" (Some true);
           TypeUtils.mkInputSpec "seed" None])
    [("prompt", Undefined)]
  = inr true
  ∧ ∃ names,
      TypeUtils.validateInputs
        (Some [TypeUtils.mkInputSpec "prompt" (Some true);
               TypeUtils.mkInputSpec "seed" (Some true)])
        [("steps", Num 20)]
      = inl (Error ("Missing required inputs: " +:+ names))
      ∧ occurs_in "seed" names.
Proof.
  split.
  - apply (proj1 (validateInputs_accepts_iff
             [TypeUtils.mkInputSpec "prompt" (Some true); TypeUtils.mkInputSpec "seed" None]
             [("prompt", Undefined)])).
    intros i [->|[->|[]%elem_of_nil]%elem_of_cons]%elem_of_cons; [done|discriminate].
  - destruct (proj1 (proj2 (validateInputs_accepts_iff
               [TypeUtils.mkInputSpec "prompt" (Some true);
                TypeUtils.mkInputSpec "seed" (Some true)]
               [("steps", Num 20)])) _ eq_refl) as (names & Hnames & Hall).
    exists names. split; [by rewrite <- Hnames|].
    apply (Hall (TypeUtils.mkInputSpec "seed" (Some true)));
      [apply list_elem_of_further, list_elem_of_here|done..].
Defined.

(** ** logger.ts: the level filter *)

Section LogFilter.
Import Logger.
Variable inspect : value → bool → string.

Lemma printLog_filter lg severityLevel logLabel message metadata timestamp :
  is_Some (printLog inspect lg severityLevel logLabel message metadata timestamp)
  ↔ level_number (currentLevel lg) ≤ level_number severityLevel.
Proof.
  unfold printLog. destruct (Z.ltb_spec (level_number severityLevel)
                                        (level_number (currentLevel lg))).
  - split; [by intros [? ?]|lia].
  - split; [done|by eexists].
Qed.

Lemma printLog_text lg severityLevel logLabel message metadata timestamp line :
  printLog inspect lg severityLevel logLabel message metadata timestamp = Some line →
  line_text line
  = timestamp +:+ " [" +:+ logLabel +:+ "]" +:+ namespacePrefix lg +:+ " "
    +:+ message
    +:+ (if isUndefined metadata then EmptyString
         else " " +:+ inspect metadata (enableColor lg)).
Proof.
  unfold printLog. destruct (_ <? _); [done|]. intros [= <-].
  assert (∀ text, line_text (colorize lg severityLevel text) = text) as ->.
  { intros text. unfold colorize. destruct (enableColor lg); [|done].
    by destruct severityLevel. }
  destruct (isUndefined metadata); by rewrite ?app_assoc_s, ?app_empty_r.
Qed.

Lemma printLog_color lg severityLevel logLabel message metadata timestamp line :
  printLog inspect lg severityLevel logLabel message metadata timestamp = Some line →
  enableColor lg = false → line_color line = None.
Proof.
  unfold printLog. destruct (_ <? _); [done|]. intros [= <-] Hc.
  unfold colorize. by rewrite Hc.
Qed.

Lemma component_logger_level ns logging logLevel isTTY :
  currentLevel (component_logger ns logging logLevel isTTY)
  = if default false logging then default INFO logLevel else NONE.
Proof. done. Qed.

End LogFilter.

(** X21.  A logger prints a message exactly when its severity is at or
    above the logger's current level: [debug] from level DEBUG, [info] up
    to INFO, [warn] up to WARN, [error] up to ERROR, and nothing at level
    NONE.  The loggers of the client and of the pool are at level NONE
    unless [logging] is set, and then at [logLevel] (INFO when absent);
    their prefix is the name space in brackets.  A printed line is the
    time stamp, a blank, the label in brackets, the prefix of the logger, a
    blank and the message, in this order, followed, if there is metadata
    (anything but [undefined]), by a blank and the inspected metadata, and
    by nothing else; without colour the line is printed as it is. *)
Theorem logger_prints_from_its_level (inspect : value → bool → string)
    (lg : Logger.Logger) (message : string) (metadata : value) (timestamp : string) :
  (is_Some (Logger.debug inspect lg message metadata timestamp)
   ↔ Logger.currentLevel lg = Logger.DEBUG)
  ∧ (is_Some (Logger.info inspect lg message metadata timestamp)
     ↔ Logger.level_number (Logger.currentLevel lg) ≤ 20)
  ∧ (is_Some (Logger.warn inspect lg message metadata timestamp)
     ↔ Logger.level_number (Logger.currentLevel lg) ≤ 30)
  ∧ (is_Some (Logger.error inspect lg message metadata timestamp)
     ↔ Logger.currentLevel lg ≠ Logger.NONE)
  ∧ (∀ newLevel, Logger.currentLevel (Logger.setLevel lg newLevel) = newLevel)
  ∧ (∀ ns logging logLevel isTTY,
       Logger.currentLevel (Logger.component_logger ns logging logLevel isTTY)
       = (if default false logging then default Logger.INFO logLevel else Logger.NONE)
       ∧ (ns ≠ EmptyString →
          Logger.namespacePrefix (Logger.component_logger ns logging logLevel isTTY)
          = "[" +:+ ns +:+ "]"))
  ∧ (∀ line, Logger.info inspect lg message metadata timestamp = Some line →
       Logger.line_text line
       = timestamp +:+ " [INFO ]" +:+ Logger.namespacePrefix lg +:+ " " +:+ message
         +:+ (if isUndefined metadata then EmptyString
              else " " +:+ inspect metadata (Logger.enableColor lg))
       ∧ (Logger.enableColor lg = false → Logger.line_color line = None)).
Proof.
  unfold Logger.debug, Logger.info, Logger.warn, Logger.error.
  rewrite !printLog_filter.
  split; [|split; [|split; [|split; [|split; [|split]]]]]; try done.
  - destruct (Logger.currentLevel lg); cbn; split; first [done | lia].
  - destruct (Logger.currentLevel lg); cbn; split; first [done | lia | by intros _].
  - intros ns logging logLevel isTTY. split; [done|]. intros Hns.
    unfold Logger.component_logger, Logger.new_logger. cbn.
    by rewrite bool_decide_eq_false_2.
  - intros line Hline. split.
    + by apply printLog_text in Hline.
    + by apply (printLog_color _ _ _ _ _ _ _ _ Hline).
Qed.

Lemma logger_prints_from_its_level_witness :
  Logger.info (λ _ _, "{}")
    (Logger.component_logger "ComfyUIClient" None None false)
    "Workflow queued" Undefined "2025-01-01T00:00:00.000Z"
  = None
  ∧ ∃ line,
      Logger.info (λ _ _, "{}")
        (Logger.component_logger "ComfyUIClient" (Some true) None false)
        "Workflow queued" Undefined "2025-01-01T00:00:00.000Z"
      = Some line
      ∧ Logger.line_text line
        = "2025-01-01T00:00:00.000Z [INFO ][ComfyUIClient] Workflow queued".
Proof.
  split.
  - destruct (Logger.info (λ _ _, "{}")
                (Logger.component_logger "ComfyUIClient" None None false)
                "Workflow queued" Undefined "2025-01-01T00:00:00.000Z") as [line|] eqn:Hinfo;
      [|done].
    exfalso.
    pose proof (proj1 (proj1 (proj2 (logger_prints_from_its_level (λ _ _, "{}")
      (Logger.component_logger "ComfyUIClient" None None false)
      "Workflow queued" Undefined "2025-01-01T00:00:00.000Z")))) as Hfilter.
    rewrite Hinfo in Hfilter. specialize (Hfilter ltac:(by eexists)).
    vm_compute in Hfilter. by apply Hfilter.
  - by eexists.
Defined.

(** ** core/client.ts: the base URL *)

Section BaseUrl.
Import ClientRequest Terms.

Lemma baseUrl_of_slashes n : baseUrl_of (slashes n) = EmptyString.
Proof.
  induction n as [|n IH]; [done|]. cbn [slashes baseUrl_of]. rewrite IH.
  by rewrite bool_decide_eq_true_2.
Qed.

Lemma baseUrl_of_app url n : baseUrl_of (url +:+ slashes n) = baseUrl_of url.
Proof.
  induction url as [|c url IH].
  - rewrite app_empty_l. apply baseUrl_of_slashes.
  - rewrite app_cons. cbn [baseUrl_of]. by rewrite IH.
Qed.

Lemma baseUrl_of_split url : ∃ k, url = baseUrl_of url +:+ slashes k.
Proof.
  induction url as [|c url (k & IH)]; [by exists 0%nat|]. cbn [baseUrl_of].
  destruct (baseUrl_of url) as [|c' kept] eqn:Hkept.
  - rewrite app_empty_l in IH. case_bool_decide as Hc.
    + exists (S k). rewrite app_empty_l. cbn [slashes]. by rewrite Hc, <- IH.
    + exists k. rewrite app_cons, app_empty_l. by rewrite <- IH.
  - exists k. rewrite app_cons. by rewrite <- IH.
Qed.

Lemma baseUrl_of_end url : ends_with_slash (baseUrl_of url) = false.
Proof.
  induction url as [|c url IH]; [done|]. cbn [baseUrl_of].
  destruct (baseUrl_of url) as [|c' kept] eqn:Hkept.
  - case_bool_decide as Hc; [done|]. cbn. by apply bool_decide_eq_false_2.
  - exact IH.
Qed.

Lemma baseUrl_of_fixed url : ends_with_slash url = false → baseUrl_of url = url.
Proof.
  induction url as [|c url IH]; [done|]. cbn [baseUrl_of ends_with_slash].
  destruct url as [|c' url].
  - intros Hc. cbn. by rewrite Hc.
  - intros Hend. rewrite (IH Hend). done.
Qed.

End BaseUrl.

(** X22.  The base URL the client stores is its option without the
    trailing slashes, and only those: the option is the stored URL followed
    by slashes; the stored URL does not end with a slash; any number of
    trailing slashes in the option gives the same stored URL and so the
    same request URLs; a URL without a trailing slash is stored as it
    is. *)
Theorem baseUrl_without_trailing_slashes (url : string) (n : nat) (promptId : string) :
  (∃ k, url = ClientRequest.baseUrl_of url +:+ Terms.slashes k)
  ∧ Terms.ends_with_slash (ClientRequest.baseUrl_of url) = false
  ∧ ClientRequest.baseUrl_of (url +:+ Terms.slashes n) = ClientRequest.baseUrl_of url
  ∧ ClientRequest.prompt_url (url +:+ Terms.slashes n) = ClientRequest.prompt_url url
  ∧ ClientRequest.history_url (url +:+ Terms.slashes n) promptId
    = ClientRequest.history_url url promptId
  ∧ (Terms.ends_with_slash url = false → ClientRequest.baseUrl_of url = url).
Proof.
  unfold ClientRequest.prompt_url, ClientRequest.history_url.
  rewrite baseUrl_of_app. split; [apply baseUrl_of_split|].
  split; [apply baseUrl_of_end|]. do 3 (split; [done|]). apply baseUrl_of_fixed.
Qed.

Lemma baseUrl_without_trailing_slashes_witness :
  ClientRequest.baseUrl_of "http://127.0.0.1:8188" = "http://127.0.0.1:8188"
  ∧ ClientRequest.prompt_url ("http://127.0.0.1:8188" +:+ Terms.slashes 2)
    = "http://127.0.0.1:8188/prompt".
Proof.
  split.
  - apply (proj2 (proj2 (proj2 (proj2 (proj2
      (baseUrl_without_trailing_slashes "http://127.0.0.1:8188" 2 "prompt-1")))))).
    reflexivity.
  - exact (proj1 (proj2 (proj2 (proj2
      (baseUrl_without_trailing_slashes "http://127.0.0.1:8188" 2 "prompt-1"))))).
Defined.

(** ** core/client.ts: the headers *)

Section Headers.
Import ClientRequest.

Lemma get_prop_absent (o : list (string * value)) k : k ∉ o.*1 → get_prop o k = None.
Proof.
  induction o as [|[k' v] o IH]; [done|]. cbn [fmap list_fmap fst get_prop].
  intros [Hne Hk]%not_elem_of_cons. rewrite bool_decide_eq_false_2 by done. by apply IH.
Qed.

Lemma read_assign acc o k :
  NoDup o.*1 →
  read (assign (Obj acc) o) k = default (read (Obj acc) k) (get_prop o k).
Proof.
  revert acc. induction o as [|[k' v] o IH]; intros acc; [done|].
  rewrite fmap_cons. intros [Hk' Hdup]%NoDup_cons. cbn [fst] in Hk'.
  unfold assign. cbn [fold_left write fst snd]. fold (assign (Obj (set_prop acc k' v)) o).
  rewrite (IH _ Hdup). cbn [get_prop read]. rewrite get_set_prop.
  case_bool_decide as Hk; [|done]. subst k'. by rewrite (get_prop_absent _ _ Hk').
Qed.

End Headers.

(** X23.  The headers of a request hold every header the caller passes, with
    the caller's value: a caller's [Authorization] header is sent instead
    of the API key.  With an API key that is not empty, and no
    [Authorization] header from the caller, [Authorization] is [Bearer ]
    followed by the key; without an API key, or with the empty key, the
    headers are the caller's and nothing else. *)
Theorem headers_keep_the_callers (apiKey : option string) (extra : list (string * value)) :
  NoDup extra.*1 →
  (∀ k v, get_prop extra k = Some v → read (ClientRequest.headers apiKey extra) k = v)
  ∧ (∀ key, apiKey = Some key → key ≠ EmptyString →
       get_prop extra "Authorization" = None →
       read (ClientRequest.headers apiKey extra) "Authorization" = Str ("Bearer " +:+ key))
  ∧ (∀ key k, apiKey = Some key → k ≠ "Authorization" →
       read (ClientRequest.headers apiKey extra) k = read (Obj extra) k)
  ∧ (apiKey = None ∨ apiKey = Some EmptyString →
       ClientRequest.headers apiKey extra = Obj extra).
Proof.
  intros Hdup. unfold ClientRequest.headers. split; [|split; [|split]].
  - intros k v Hk. destruct apiKey as [key|]; [|by cbn; rewrite Hk].
    case_bool_decide; [by cbn; rewrite Hk|].
    by rewrite (read_assign _ _ _ Hdup), Hk.
  - intros key -> Hkey Hnone. rewrite bool_decide_eq_false_2 by done.
    by rewrite (read_assign _ _ _ Hdup), Hnone.
  - intros key k -> Hk. case_bool_decide; [done|].
    rewrite (read_assign _ _ _ Hdup). cbn [read get_prop].
    by rewrite bool_decide_eq_false_2 by done.
  - by intros [->| ->].
Qed.

Lemma headers_keep_the_callers_witness :
  read (ClientRequest.headers (Some "secret") [("Content-Type", Str "application/json")])
       "Authorization"
  = Str "Bearer secret"
  ∧ read (ClientRequest.headers (Some "secret") [("Content-Type", Str "application/json")])
         "Content-Type"
    = Str "application/json".
Proof.
  destruct (headers_keep_the_callers (Some "secret")
              [("Content-Type", Str "application/json")]) as (Hextra & Hkey & _).
  - apply (bool_decide_unpack _). vm_compute. exact I.
  - split; [by apply (Hkey "secret")|by apply Hextra].
Defined.

(** ** core/pool.ts: equal limits, even load *)

Section Balance.
Import Session Pool Terms.




End Balance.


